(** * WebSocket framing engine of the Mumble server (src/WebSocket.cpp)

    A shallow embedding of the server side WebSocket engine: the handshake
    scanner, the resumable frame decoder, the masking transform, the queue of
    decoded chunks and the frame writer, followed by the properties of the
    engine that are established for them. *)

From Stdlib Require Import Strings.String Strings.Ascii.
From Stdlib Require Import ZArith List Bool Lia.
From Stdlib Require Import Strings.Byte.
Import ListNotations.
Local Open Scope Z_scope.

Set Implicit Arguments.

(** ** Machine integers and octets

    Integers of the program are values of [Z]; a conversion to a fixed width
    unsigned type is the reduction modulo its range. *)

Definition quint8 (z : Z) : Z := z mod 2 ^ 8.
Definition quint16 (z : Z) : Z := z mod 2 ^ 16.
Definition quint64 (z : Z) : Z := z mod 2 ^ 64.

Abbreviation byte := Byte.byte.

(** The value of an octet, and the octet a conversion to [unsigned char]
    or [char] keeps of an integer. *)
Definition to_Z (b : byte) : Z := Z.of_N (Byte.to_N b).

Definition of_Z (z : Z) : byte :=
  match Byte.of_N (Z.to_N (z mod 256)) with
  | Some b => b
  | None => x00
  end.

Definition byte_xor (a b : byte) : byte := of_Z (Z.lxor (to_Z a) (to_Z b)).

(** [QByteArray]: a sequence of octets.  (An array of Qt holds fewer than
    2^31 octets; the sequences here have no bound.) *)
Definition QByteArray := list byte.

Definition qlength (a : QByteArray) : Z := Z.of_nat (length a).

(** [qFromBigEndian] and [qToBigEndian] of QtEndian, at the two widths the
    engine uses. *)
Fixpoint qFromBigEndian_acc (acc : Z) (bs : list byte) : Z :=
  match bs with
  | [] => acc
  | b :: rest => qFromBigEndian_acc (Z.lor (Z.shiftl acc 8) (to_Z b)) rest
  end.

Definition qFromBigEndian (bs : list byte) : Z := qFromBigEndian_acc 0 bs.

Fixpoint qToBigEndian (width : nat) (v : Z) : list byte :=
  match width with
  | O => []
  | S w => of_Z (Z.shiftr v (8 * Z.of_nat w)) :: qToBigEndian w v
  end.

(** ** Loops

    A [while (true)] loop whose body either goes round again or leaves the
    function.  [while_loop] runs at most [fuel] rounds and answers [None]
    when the loop has not left by then. *)

Inductive flow (S : Type) : Type :=
| Continue (s : S)
| Return (s : S).

Fixpoint while_loop {S : Type} (body : S -> flow S) (fuel : nat) (s : S)
  : option S :=
  match fuel with
  | O => None
  | Datatypes.S n =>
      match body s with
      | Continue s' => while_loop body n s'
      | Return s' => Some s'
      end
  end.

(** The same loop as relations, without a bound on the rounds:
    [steps body s s'] when the loop gets from [s] to [s'] by going round,
    and [runs body s r] when, started in [s], it is left in [r]. *)

Inductive steps (S : Type) (body : S -> flow S) : S -> S -> Prop :=
| steps_refl s : steps body s s
| steps_step s s' s'' :
    body s = Continue s' -> steps body s' s'' -> steps body s s''.

Inductive runs (S : Type) (body : S -> flow S) : S -> S -> Prop :=
| runs_return s r : body s = Return r -> runs body s r
| runs_continue s s' r :
    body s = Continue s' -> runs body s' r -> runs body s r.

(** What a round leaves behind, whichever way it ends. *)
Definition outcome {S : Type} (f : flow S) : S :=
  match f with
  | Continue s => s
  | Return s => s
  end.

(** ** The transport: QSslSocket

    The socket is the queue [rx] of octets that have arrived and have not
    been read yet, and the sequence [tx] of octets written so far. *)

Module QSslSocket.

Record t : Type := mk { rx : list byte; tx : list byte }.

Definition bytesAvailable (s : t) : Z := Z.of_nat (length (rx s)).

Definition read (s : t) (n : Z) : QByteArray * t :=
  (firstn (Z.to_nat n) (rx s), mk (skipn (Z.to_nat n) (rx s)) (tx s)).

Definition skip (s : t) (n : Z) : t :=
  mk (skipn (Z.to_nat n) (rx s)) (tx s).

Definition write (s : t) (data : QByteArray) : t :=
  mk (rx s) (tx s ++ data).

Definition flush (s : t) : t := s.

(** New octets arriving from the peer. *)
Definition arrive (s : t) (chunk : list byte) : t :=
  mk (rx s ++ chunk) (tx s).

End QSslSocket.

Abbreviation QSslSocket := QSslSocket.t.

(** ** The engine: class WebSocket

    The enumerations and the fields are those of WebSocket.h; the state
    [None] of the source is [None_] here. *)

Inductive WebSocketState : Type := None_ | Handshake | Open | Closed | Error.

Inductive WebSocketNextAction : Type :=
| ReadOpcodeAnd1ByteLength
| Read2ByteLength
| Read8ByteLength
| ReadMask
| ReadPayload.

Inductive WebSocketNextPayload : Type := Data | Ping | Pong.

Record WebSocket : Type := mkWebSocket {
  wsState : WebSocketState;
  webSocketAccept : option QByteArray;   (* [None] is the null array *)
  mask : list byte;                      (* unsigned char mask[4] *)
  maskIndex : Z;                         (* quint8 *)
  buffers : list QByteArray;
  bytesInBuffers : Z;                    (* quint64 *)
  nextAction : WebSocketNextAction;
  nextLength : Z;                        (* quint64 *)
  buffersFirstConsumed : Z;              (* quint64 *)
  nextPayload : WebSocketNextPayload
}.

Definition set_wsState (v : WebSocketState) (w : WebSocket) : WebSocket :=
  mkWebSocket v (webSocketAccept w) (mask w) (maskIndex w) (buffers w)
    (bytesInBuffers w) (nextAction w) (nextLength w) (buffersFirstConsumed w)
    (nextPayload w).

Definition set_webSocketAccept (v : option QByteArray) (w : WebSocket) :=
  mkWebSocket (wsState w) v (mask w) (maskIndex w) (buffers w)
    (bytesInBuffers w) (nextAction w) (nextLength w) (buffersFirstConsumed w)
    (nextPayload w).

Definition set_mask (v : list byte) (w : WebSocket) : WebSocket :=
  mkWebSocket (wsState w) (webSocketAccept w) v (maskIndex w) (buffers w)
    (bytesInBuffers w) (nextAction w) (nextLength w) (buffersFirstConsumed w)
    (nextPayload w).

Definition set_maskIndex (v : Z) (w : WebSocket) : WebSocket :=
  mkWebSocket (wsState w) (webSocketAccept w) (mask w) v (buffers w)
    (bytesInBuffers w) (nextAction w) (nextLength w) (buffersFirstConsumed w)
    (nextPayload w).

Definition set_buffers (v : list QByteArray) (w : WebSocket) : WebSocket :=
  mkWebSocket (wsState w) (webSocketAccept w) (mask w) (maskIndex w) v
    (bytesInBuffers w) (nextAction w) (nextLength w) (buffersFirstConsumed w)
    (nextPayload w).

Definition set_bytesInBuffers (v : Z) (w : WebSocket) : WebSocket :=
  mkWebSocket (wsState w) (webSocketAccept w) (mask w) (maskIndex w)
    (buffers w) v (nextAction w) (nextLength w) (buffersFirstConsumed w)
    (nextPayload w).

Definition set_nextAction (v : WebSocketNextAction) (w : WebSocket) :=
  mkWebSocket (wsState w) (webSocketAccept w) (mask w) (maskIndex w)
    (buffers w) (bytesInBuffers w) v (nextLength w) (buffersFirstConsumed w)
    (nextPayload w).

Definition set_nextLength (v : Z) (w : WebSocket) : WebSocket :=
  mkWebSocket (wsState w) (webSocketAccept w) (mask w) (maskIndex w)
    (buffers w) (bytesInBuffers w) (nextAction w) v (buffersFirstConsumed w)
    (nextPayload w).

Definition set_buffersFirstConsumed (v : Z) (w : WebSocket) : WebSocket :=
  mkWebSocket (wsState w) (webSocketAccept w) (mask w) (maskIndex w)
    (buffers w) (bytesInBuffers w) (nextAction w) (nextLength w) v
    (nextPayload w).

Definition set_nextPayload (v : WebSocketNextPayload) (w : WebSocket) :=
  mkWebSocket (wsState w) (webSocketAccept w) (mask w) (maskIndex w)
    (buffers w) (bytesInBuffers w) (nextAction w) (nextLength w)
    (buffersFirstConsumed w) v.

(** *** Constants *)

Definition msgHeader : byte := of_Z 130.                 (* 0b10000010 *)
Definition pongHeader : byte := of_Z (Z.lor 10 128).     (* 0x0A | 0b10000000 *)

(** *** WebSocket::unmask

    [unmask_loop] is the [for] loop over the first [len] octets of [data],
    threading [maskIndex]. *)

Fixpoint unmask_loop (key : list byte) (len : nat) (data : list byte)
    (index : Z) : list byte * Z :=
  match len, data with
  | Datatypes.S len', d :: rest =>
      let d' := byte_xor d (nth (Z.to_nat index) key x00) in
      let index := quint8 (index + 1) in
      let index := if index =? 4 then 0 else index in
      let (rest', index') := unmask_loop key len' rest index in
      (d' :: rest', index')
  | _, _ => (data, index)
  end.

Definition unmask (w : WebSocket) (data : QByteArray) (len : Z)
  : QByteArray * WebSocket :=
  let (data', index') :=
    unmask_loop (mask w) (Z.to_nat len) data (maskIndex w) in
  (data', set_maskIndex index' w).

(** *** WebSocket::writeLength *)

Definition writeLength (sock : QSslSocket) (length : Z) : QSslSocket :=
  if length <=? 125 then
    QSslSocket.write sock [of_Z length]
  else if length <=? 65536 then
    let sock := QSslSocket.write sock [of_Z 126] in
    let length16 := quint16 length in
    QSslSocket.write sock (qToBigEndian 2 length16)
  else
    let sock := QSslSocket.write sock [of_Z 127] in
    QSslSocket.write sock (qToBigEndian 8 length).

(** *** WebSocket::write *)

Definition write (w : WebSocket) (sock : QSslSocket) (qbaMsg : QByteArray)
  : QSslSocket :=
  match wsState w with
  | Open =>
      let sock := QSslSocket.write sock [msgHeader] in
      let sock := writeLength sock (qlength qbaMsg) in
      QSslSocket.write sock qbaMsg
  | _ => sock
  end.

(** *** WebSocket::socketReadOpen

    One round of the [while (true)] loop.  [iAvailable] is read from the
    socket at the top of every round, so the decrements the source applies
    to its local copy have no effect and are left out.  The second header
    octet is examined by [header_length], the part of the first case that
    follows the opcode dispatch. *)

Definition header_length (w : WebSocket) (sock : QSslSocket) (h1 : Z)
  : flow (WebSocket * QSslSocket) :=
  let maskBit := negb (Z.land h1 128 =? 0) in
  if negb maskBit then Return (set_wsState Error w, sock)
  else
    let h1 := Z.land h1 127 in
    if h1 <=? 125 then
      Continue (set_nextAction ReadMask (set_nextLength h1 w), sock)
    else if h1 =? 126 then
      Continue (set_nextAction Read2ByteLength w, sock)
    else if h1 =? 127 then
      Continue (set_nextAction Read8ByteLength w, sock)
    else Return (set_wsState Error w, sock).

Definition socketReadOpen_body (st : WebSocket * QSslSocket)
  : flow (WebSocket * QSslSocket) :=
  let (w, sock) := st in
  let iAvailable := QSslSocket.bytesAvailable sock in
  match nextAction w with
  | ReadOpcodeAnd1ByteLength =>
      if iAvailable <? 2 then Return st
      else
        let (headerBuffer, sock) := QSslSocket.read sock 2 in
        let h0 := Z.land (to_Z (nth 0 headerBuffer x00)) 15 in
        let h1 := to_Z (nth 1 headerBuffer x00) in
        if h0 <=? 2 then
          header_length (set_nextPayload Data w) sock h1
        else if h0 =? 8 then
          let h0 := Z.lor h0 128 in
          let h1 := 0 in
          let sock := QSslSocket.write sock [of_Z h0; of_Z h1] in
          Return (set_wsState Closed w, sock)
        else if h0 =? 9 then
          header_length (set_nextPayload Ping w) sock h1
        else if h0 =? 10 then
          header_length (set_nextPayload Pong w) sock h1
        else Return (set_wsState Error w, sock)
  | Read2ByteLength =>
      if iAvailable <? 2 then Return st
      else
        let (lengthBuffer2, sock) := QSslSocket.read sock 2 in
        let w := set_nextLength (qFromBigEndian lengthBuffer2) w in
        Continue (set_nextAction ReadMask w, sock)
  | Read8ByteLength =>
      if iAvailable <? 8 then Return st
      else
        let (lengthBuffer8, sock) := QSslSocket.read sock 8 in
        let w := set_nextLength (qFromBigEndian lengthBuffer8) w in
        Continue (set_nextAction ReadMask w, sock)
  | ReadMask =>
      if iAvailable <? 4 then Return st
      else
        let (m, sock) := QSslSocket.read sock 4 in
        let w := set_maskIndex 0 (set_mask m w) in
        Continue (set_nextAction ReadPayload w, sock)
  | ReadPayload =>
      match nextPayload w with
      | Pong =>
          if nextLength w <=? iAvailable then
            let sock := QSslSocket.skip sock (nextLength w) in
            Continue (set_nextAction ReadOpcodeAnd1ByteLength w, sock)
          else Return st
      | Ping =>
          if nextLength w <=? iAvailable then
            let (pingData, sock) := QSslSocket.read sock (nextLength w) in
            let (pingData, w) := unmask w pingData (nextLength w) in
            let sock := QSslSocket.write sock [pongHeader] in
            let sock := writeLength sock (qlength pingData) in
            let sock := QSslSocket.write sock pingData in
            Continue (set_nextAction ReadOpcodeAnd1ByteLength w, sock)
          else Return st
      | Data =>
          if nextLength w =? 0 then
            Continue (set_nextAction ReadOpcodeAnd1ByteLength w, sock)
          else if iAvailable =? 0 then Return st
          else
            let read :=
              if nextLength w <? iAvailable then nextLength w
              else iAvailable in
            let (data, sock) := QSslSocket.read sock read in
            let w := set_nextLength (quint64 (nextLength w - read)) w in
            let (data, w) := unmask w data read in
            let w := set_buffers (buffers w ++ [data]) w in
            let w := set_bytesInBuffers (quint64 (bytesInBuffers w + read)) w in
            Continue (w, sock)
      end
  end.

(** Every round that goes round again takes octets from the socket, or
    brings the payload length to zero, or leaves the payload step, so
    [3 * available + 3] rounds are enough (see [socketReadOpen_returns]). *)
Definition socketReadOpen_fuel (sock : QSslSocket) : nat :=
  3 * length (QSslSocket.rx sock) + 3.

Definition socketReadOpen (w : WebSocket) (sock : QSslSocket)
  : option (WebSocket * QSslSocket) :=
  while_loop socketReadOpen_body (socketReadOpen_fuel sock) (w, sock).

(** *** WebSocket::read(char *, qint64)

    The loop state is the engine together with the locals [maxLen] and
    [len] and the octets stored into [buf] so far.  [qint64] is the
    conversion back to the signed type that the assignment to [maxLen]
    performs. *)

Definition qint64 (z : Z) : Z := (z + 2 ^ 63) mod 2 ^ 64 - 2 ^ 63.

Record read_locals : Type := mk_read_locals {
  rl_ws : WebSocket;
  rl_maxLen : Z;
  rl_len : Z;
  rl_buf : list byte
}.

Definition read_body (st : read_locals) : flow read_locals :=
  let w := rl_ws st in
  match buffers w with
  | [] => Return st
  | first :: others =>
      let remainingInFirst :=
        quint64 (qlength first - buffersFirstConsumed w) in
      if remainingInFirst =? 0 then
        let w := set_buffersFirstConsumed 0 (set_buffers others w) in
        Continue (mk_read_locals w (rl_maxLen st) (rl_len st) (rl_buf st))
      else if rl_maxLen st =? 0 then Return st
      else
        let readStep :=
          if remainingInFirst <? quint64 (rl_maxLen st) then remainingInFirst
          else quint64 (rl_maxLen st) in
        let readFrom := skipn (Z.to_nat (buffersFirstConsumed w)) first in
        let buf := rl_buf st ++ firstn (Z.to_nat readStep) readFrom in
        let maxLen := qint64 (rl_maxLen st - readStep) in
        let w :=
          set_buffersFirstConsumed
            (quint64 (buffersFirstConsumed w + readStep)) w in
        let len := qint64 (rl_len st + readStep) in
        let w := set_bytesInBuffers (quint64 (bytesInBuffers w - readStep)) w in
        Continue (mk_read_locals w maxLen len buf)
  end.

(** A chunk takes at most two rounds, one that copies out of it and one
    that removes it (see [read_returns]). *)
Definition read_fuel (w : WebSocket) : nat := 2 * length (buffers w) + 2.

(** The result is the returned count, the octets stored into [buf], and
    the engine afterwards. *)
Definition read (w : WebSocket) (maxLen : Z)
  : option (Z * list byte * WebSocket) :=
  match while_loop read_body (read_fuel w) (mk_read_locals w maxLen 0 []) with
  | Some st => Some (rl_len st, rl_buf st, rl_ws st)
  | None => None
  end.

(** *** WebSocket::read(qint64)

    The array is created with [target] zero octets and the first overload
    stores what it copies at its front. *)

Definition read_array (w : WebSocket) (maxLen : Z)
  : option (QByteArray * WebSocket) :=
  let target :=
    if quint64 maxLen <? bytesInBuffers w then quint64 maxLen
    else bytesInBuffers w in
  let array := repeat x00 (Z.to_nat target) in
  match read w (qint64 target) with
  | Some (_, stored, w') =>
      Some (stored ++ skipn (length stored) array, w')
  | None => None
  end.

(** *** WebSocket::bytesAvailable and WebSocket::state *)

Definition bytesAvailable (w : WebSocket) : Z := qint64 (bytesInBuffers w).

Definition state (w : WebSocket) : WebSocketState := wsState w.

(** ** Qt library functions used by the handshake

    These belong to Qt, not to the engine; they are given here as
    executable definitions after the Qt 5 documentation and the standards
    they implement (RFC 3629, FIPS 180-4, RFC 4648). *)

Definition bytes_of_string (s : string) : list byte := list_byte_of_string s.

Definition CR : byte := x0d.
Definition LF : byte := x0a.

(** [QIODevice::canReadLine] and [QIODevice::readLine] on the buffered
    octets: a line ends with its line feed, which [readLine] returns too. *)

Fixpoint canReadLine_in (bs : list byte) : bool :=
  match bs with
  | [] => false
  | b :: rest => if Byte.eqb b LF then true else canReadLine_in rest
  end.

Fixpoint readLine_in (bs : list byte) : list byte * list byte :=
  match bs with
  | [] => ([], [])
  | b :: rest =>
      if Byte.eqb b LF then ([b], rest)
      else let (line, rest') := readLine_in rest in (b :: line, rest')
  end.

Definition canReadLine (s : QSslSocket) : bool :=
  canReadLine_in (QSslSocket.rx s).

Definition readLine (s : QSslSocket) : QByteArray * QSslSocket :=
  let (line, rest) := readLine_in (QSslSocket.rx s) in
  (line, QSslSocket.mk rest (QSslSocket.tx s)).

(** *** QString: a sequence of UTF-16 code units *)

Module QString.

Definition t := list Z.

Definition length (s : t) : Z := Z.of_nat (List.length s).

Definition replacement : Z := 65533.  (* U+FFFD *)

Definition continuation (b : byte) : bool := Z.land (to_Z b) 192 =? 128.

Definition low6 (b : byte) : Z := Z.land (to_Z b) 63.

(** The decoder: an octet that does not start a well formed sequence
    becomes U+FFFD and decoding goes on with the next octet; a code point
    above the basic plane becomes a surrogate pair. *)
Fixpoint decode (bs : list byte) : t :=
  match bs with
  | [] => []
  | b0 :: t0 =>
      let c0 := to_Z b0 in
      if c0 <? 128 then c0 :: decode t0
      else
        match t0 with
        | [] => [replacement]
        | b1 :: t1 =>
            if (194 <=? c0) && (c0 <=? 223) && continuation b1 then
              Z.lor (Z.shiftl (Z.land c0 31) 6) (low6 b1) :: decode t1
            else
              match t1 with
              | [] => replacement :: decode t0
              | b2 :: t2 =>
                  let cp3 :=
                    Z.lor (Z.shiftl (Z.land c0 15) 12)
                      (Z.lor (Z.shiftl (low6 b1) 6) (low6 b2)) in
                  if (224 <=? c0) && (c0 <=? 239) && continuation b1
                     && continuation b2 && (2048 <=? cp3)
                     && negb ((55296 <=? cp3) && (cp3 <=? 57343)) then
                    cp3 :: decode t2
                  else
                    match t2 with
                    | [] => replacement :: decode t0
                    | b3 :: t3 =>
                        let cp4 :=
                          Z.lor (Z.shiftl (Z.land c0 7) 18)
                            (Z.lor (Z.shiftl (low6 b1) 12)
                               (Z.lor (Z.shiftl (low6 b2) 6) (low6 b3))) in
                        if (240 <=? c0) && (c0 <=? 244) && continuation b1
                           && continuation b2 && continuation b3
                           && (65536 <=? cp4) && (cp4 <=? 1114111) then
                          let v := cp4 - 65536 in
                          (55296 + Z.shiftr v 10)
                            :: (56320 + Z.land v 1023) :: decode t3
                        else replacement :: decode t0
                    end
              end
        end
  end.

Fixpoint until_nul (bs : list byte) : list byte :=
  match bs with
  | [] => []
  | b :: rest => if Byte.eqb b x00 then [] else b :: until_nul rest
  end.

(** [QString::fromUtf8(const QByteArray &)] of Qt 5: the array is taken up
    to its first zero octet, and a byte order mark at the very start is
    dropped. *)
Definition fromUtf8 (bs : QByteArray) : t :=
  match until_nul bs with
  | xef :: xbb :: xbf :: rest => decode rest
  | text => decode text
  end.

Definition high_surrogate (c : Z) : bool := (55296 <=? c) && (c <=? 56319).
Definition low_surrogate (c : Z) : bool := (56320 <=? c) && (c <=? 57343).

(** [QString::toUtf8]; a surrogate without its partner becomes [?]. *)
Fixpoint toUtf8 (s : t) : QByteArray :=
  match s with
  | [] => []
  | c :: rest =>
      if c <? 128 then of_Z c :: toUtf8 rest
      else if c <? 2048 then
        of_Z (Z.lor 192 (Z.shiftr c 6))
          :: of_Z (Z.lor 128 (Z.land c 63)) :: toUtf8 rest
      else if high_surrogate c then
        match rest with
        | c' :: rest' =>
            if low_surrogate c' then
              let cp := 65536 + Z.shiftl (c - 55296) 10 + (c' - 56320) in
              of_Z (Z.lor 240 (Z.shiftr cp 18))
                :: of_Z (Z.lor 128 (Z.land (Z.shiftr cp 12) 63))
                :: of_Z (Z.lor 128 (Z.land (Z.shiftr cp 6) 63))
                :: of_Z (Z.lor 128 (Z.land cp 63)) :: toUtf8 rest'
            else x3f :: toUtf8 rest
        | [] => [x3f]
        end
      else if low_surrogate c then x3f :: toUtf8 rest
      else
        of_Z (Z.lor 224 (Z.shiftr c 12))
          :: of_Z (Z.lor 128 (Z.land (Z.shiftr c 6) 63))
          :: of_Z (Z.lor 128 (Z.land c 63)) :: toUtf8 rest
  end.

(** A string literal of the source. *)
Definition literal (s : string) : t := fromUtf8 (bytes_of_string s).

(** Case folding of one code unit, as far as it can be told apart by a
    comparison with the folding of a code unit below 128: the capital
    letters, U+017F (long s) and U+212A (Kelvin sign) are the code units
    that fold to one. *)
Definition foldCase (c : Z) : Z :=
  if (65 <=? c) && (c <=? 90) then c + 32
  else if c =? 383 then 115
  else if c =? 8490 then 107
  else c.

Fixpoint starts_with_folded (s prefix : t) : bool :=
  match prefix, s with
  | [], _ => true
  | _ :: _, [] => false
  | p :: prefix', c :: s' =>
      (foldCase c =? foldCase p) && starts_with_folded s' prefix'
  end.

(** [QString::startsWith(prefix, Qt::CaseInsensitive)]. *)
Definition startsWith (s prefix : t) : bool := starts_with_folded s prefix.

(** [QChar::isSpace]. *)
Definition isSpace (c : Z) : bool :=
  (c =? 32) || ((9 <=? c) && (c <=? 13)) || (c =? 133) || (c =? 160)
  || (c =? 5760) || ((8192 <=? c) && (c <=? 8202)) || (c =? 8232)
  || (c =? 8233) || (c =? 8239) || (c =? 8287) || (c =? 12288).

Fixpoint trim_front (s : t) : t :=
  match s with
  | [] => []
  | c :: rest => if isSpace c then trim_front rest else s
  end.

(** [QStringRef::trimmed]. *)
Definition trimmed (s : t) : t := rev (trim_front (rev (trim_front s))).

(** [QStringRef(&s, position, n)]. *)
Definition ref (s : t) (position n : Z) : t :=
  firstn (Z.to_nat n) (skipn (Z.to_nat position) s).

End QString.

Abbreviation QString := QString.t.

(** *** QCryptographicHash::hash(_, Sha1) *)

Module Sha1.

Definition w32 (z : Z) : Z := z mod 2 ^ 32.

Definition rotl (n x : Z) : Z :=
  w32 (Z.lor (Z.shiftl x n) (Z.shiftr x (32 - n))).

Definition pad (msg : list byte) : list byte :=
  let n := Z.of_nat (List.length msg) in
  let zeros := (64 - (n + 9) mod 64) mod 64 in
  msg ++ [x80] ++ repeat x00 (Z.to_nat zeros) ++ qToBigEndian 8 (8 * n).

Fixpoint words (n : nat) (bs : list byte) : list Z :=
  match n with
  | O => []
  | S n' => qFromBigEndian (firstn 4 bs) :: words n' (skipn 4 bs)
  end.

(** The message schedule, most recent word first. *)
Fixpoint schedule (n : nat) (recent : list Z) : list Z :=
  match n with
  | O => recent
  | S n' =>
      let x :=
        Z.lxor (Z.lxor (nth 2 recent 0) (nth 7 recent 0))
          (Z.lxor (nth 13 recent 0) (nth 15 recent 0)) in
      schedule n' (rotl 1 x :: recent)
  end.

Definition regs : Type := Z * Z * Z * Z * Z.

Definition round (t : nat) (r : regs) (wt : Z) : regs :=
  let '(a, b, c, d, e) := r in
  let '(f, k) :=
    if (t <? 20)%nat then
      (Z.lor (Z.land b c) (Z.land (Z.lnot b) d), 1518500249)
    else if (t <? 40)%nat then (Z.lxor (Z.lxor b c) d, 1859775393)
    else if (t <? 60)%nat then
      (Z.lor (Z.lor (Z.land b c) (Z.land b d)) (Z.land c d), 2400959708)
    else (Z.lxor (Z.lxor b c) d, 3395469782) in
  (w32 (rotl 5 a + f + e + k + wt), a, rotl 30 b, c, d).

Fixpoint rounds (t : nat) (ws : list Z) (r : regs) : regs :=
  match ws with
  | [] => r
  | wt :: rest => rounds (S t) rest (round t r wt)
  end.

Definition block (h : regs) (bs : list byte) : regs :=
  let ws := rev (schedule 64 (rev (words 16 bs))) in
  let '(a, b, c, d, e) := rounds 0 ws h in
  let '(h0, h1, h2, h3, h4) := h in
  (w32 (h0 + a), w32 (h1 + b), w32 (h2 + c), w32 (h3 + d), w32 (h4 + e)).

Fixpoint blocks (n : nat) (h : regs) (bs : list byte) : regs :=
  match n with
  | O => h
  | S n' => blocks n' (block h (firstn 64 bs)) (skipn 64 bs)
  end.

Definition initial : regs :=
  (1732584193, 4023233417, 2562383102, 271733878, 3285377520).

Definition hash (msg : QByteArray) : QByteArray :=
  let padded := pad msg in
  let '(h0, h1, h2, h3, h4) :=
    blocks (Nat.div (List.length padded) 64) initial padded in
  qToBigEndian 4 h0 ++ qToBigEndian 4 h1 ++ qToBigEndian 4 h2
    ++ qToBigEndian 4 h3 ++ qToBigEndian 4 h4.

End Sha1.

(** *** QByteArray::toBase64 *)

Definition base64_alphabet : list byte :=
  bytes_of_string
    "ABCDEFGHIJKLMNOPQRSTUVWXYZabcdefghijklmnopqrstuvwxyz0123456789+/".

Definition base64_digit (i : Z) : byte :=
  nth (Z.to_nat (Z.land i 63)) base64_alphabet x00.

Fixpoint toBase64 (bs : QByteArray) : QByteArray :=
  match bs with
  | [] => []
  | [a] =>
      let v := Z.shiftl (to_Z a) 16 in
      [base64_digit (Z.shiftr v 18); base64_digit (Z.shiftr v 12); x3d; x3d]
  | [a; b] =>
      let v := Z.lor (Z.shiftl (to_Z a) 16) (Z.shiftl (to_Z b) 8) in
      [base64_digit (Z.shiftr v 18); base64_digit (Z.shiftr v 12);
       base64_digit (Z.shiftr v 6); x3d]
  | a :: b :: c :: rest =>
      let v :=
        Z.lor (Z.shiftl (to_Z a) 16) (Z.lor (Z.shiftl (to_Z b) 8) (to_Z c)) in
      base64_digit (Z.shiftr v 18) :: base64_digit (Z.shiftr v 12)
        :: base64_digit (Z.shiftr v 6) :: base64_digit v :: toBase64 rest
  end.

(** ** The handshake *)

Definition magicSequence : QByteArray :=
  QString.toUtf8 (QString.literal "258EAFA5-E914-47DA-95CA-C5AB0DC85B11").

Definition serverHeader : QByteArray :=
  QString.toUtf8
    (QString.fromUtf8
       (bytes_of_string "HTTP/1.1 101 Switching Protocols" ++ [CR; LF]
        ++ bytes_of_string "Upgrade: websocket" ++ [CR; LF]
        ++ bytes_of_string "Connection: Upgrade" ++ [CR; LF]
        ++ bytes_of_string "Sec-WebSocket-Accept: ")).

(** *** WebSocket::socketReadHandshake

    One round of the [while (canReadLine())] loop; [Return] also stands
    for the loop condition turning false and for [break], after both of
    which the function is left. *)

Definition is_crlf (lineAscii : QByteArray) : bool :=
  match lineAscii with
  | [a; b] => Byte.eqb a CR && Byte.eqb b LF
  | _ => false
  end.

Definition socketReadHandshake_body (st : WebSocket * QSslSocket)
  : flow (WebSocket * QSslSocket) :=
  let (w, sock) := st in
  if negb (canReadLine sock) then Return st
  else
    let (lineAscii, sock) := readLine sock in
    let line := QString.fromUtf8 lineAscii in
    if QString.startsWith line (QString.literal "Sec-WebSocket-Key:") then
      let restLength := QString.length line - 18 in
      if restLength <? 24 + 2 then Return (set_wsState Error w, sock)
      else
        let keyOnly :=
          QString.toUtf8 (QString.trimmed (QString.ref line 18 restLength)) in
        let accept := toBase64 (Sha1.hash (keyOnly ++ magicSequence)) in
        Continue (set_webSocketAccept (Some accept) w, sock)
    else if is_crlf lineAscii then
      match webSocketAccept w with
      | None => Return (set_wsState Error w, sock)
      | Some accept =>
          let sock := QSslSocket.write sock serverHeader in
          let sock := QSslSocket.write sock accept in
          let sock := QSslSocket.write sock lineAscii in
          let sock := QSslSocket.write sock lineAscii in
          let sock := QSslSocket.flush sock in
          Return (set_wsState Open w, sock)
      end
    else Continue (w, sock).

(** Every round that goes round again has read a line, which holds at
    least its line feed (see [socketReadHandshake_returns]). *)
Definition socketReadHandshake_fuel (sock : QSslSocket) : nat :=
  length (QSslSocket.rx sock) + 1.

Definition socketReadHandshake (w : WebSocket) (sock : QSslSocket)
  : option (WebSocket * QSslSocket) :=
  while_loop socketReadHandshake_body (socketReadHandshake_fuel sock) (w, sock).

(** *** WebSocket::socketRead *)

Definition socketRead (w : WebSocket) (sock : QSslSocket)
  : option (WebSocket * QSslSocket) :=
  let w :=
    match wsState w with
    | None_ => set_wsState Handshake w
    | _ => w
    end in
  let after_handshake :=
    match wsState w with
    | Handshake => socketReadHandshake w sock
    | _ => Some (w, sock)
    end in
  match after_handshake with
  | Some (w, sock) =>
      match wsState w with
      | Open => socketReadOpen w sock
      | _ => Some (w, sock)
      end
  | None => None
  end.

(** The event loop: octets arrive on the socket and the engine is told
    that the socket is readable. *)
Definition feed (st : WebSocket * QSslSocket) (chunk : list byte)
  : option (WebSocket * QSslSocket) :=
  socketRead (fst st) (QSslSocket.arrive (snd st) chunk).

Fixpoint feed_all (st : WebSocket * QSslSocket) (chunks : list (list byte))
  : option (WebSocket * QSslSocket) :=
  match chunks with
  | [] => Some st
  | chunk :: rest =>
      match feed st chunk with
      | Some st' => feed_all st' rest
      | None => None
      end
  end.

(** A freshly constructed engine: the class declares no constructor, and
    this is the value-initialised object. *)
Definition fresh : WebSocket :=
  mkWebSocket None_ None [x00; x00; x00; x00] 0 [] 0
    ReadOpcodeAnd1ByteLength 0 0 Data.

Definition idle : QSslSocket := QSslSocket.mk [] [].

(** An engine after a completed handshake, at a frame boundary. *)
Definition opened : WebSocket := set_wsState Open fresh.

(** ** Vocabulary of the properties *)

(** The length header that the minimal-size rule of the frame writer's
    description asks for: one octet up to 125, then 126 and sixteen bits
    for what sixteen bits can hold, then 127 and sixty-four bits. *)
Definition minimal_length_header (L : Z) : list byte :=
  if L <=? 125 then [of_Z L]
  else if L <? 2 ^ 16 then of_Z 126 :: qToBigEndian 2 L
  else of_Z 127 :: qToBigEndian 8 L.

(** The octets the decoder's current step needs before it does anything:
    the fixed size of a header field, the whole payload of a ping or pong,
    and one octet of a data payload that has octets left. *)
Definition needed (w : WebSocket) : Z :=
  match nextAction w with
  | ReadOpcodeAnd1ByteLength => 2
  | Read2ByteLength => 2
  | Read8ByteLength => 8
  | ReadMask => 4
  | ReadPayload =>
      match nextPayload w with
      | Data => if nextLength w =? 0 then 0 else 1
      | _ => nextLength w
      end
  end.

(** The opcode and the mask bit of a frame header. *)
Definition opcode (b0 : byte) : Z := Z.land (to_Z b0) 15.

Definition mask_bit (b1 : byte) : bool := negb (Z.land (to_Z b1) 128 =? 0).

Definition valid_opcode (op : Z) : bool :=
  (op <=? 2) || (op =? 8) || (op =? 9) || (op =? 10).

(** The bound that the type of [nextLength] puts on it. *)
Definition nextLength_fits (w : WebSocket) : Prop :=
  0 <= nextLength w < 2 ^ 64.

(** Two engines that hold the same decoded octets: they agree on every
    field but the division of the decoded octets into chunks. *)
Definition same_decoded (a b : WebSocket) : Prop :=
  wsState a = wsState b
  /\ webSocketAccept a = webSocketAccept b
  /\ mask a = mask b
  /\ maskIndex a = maskIndex b
  /\ concat (buffers a) = concat (buffers b)
  /\ bytesInBuffers a = bytesInBuffers b
  /\ nextAction a = nextAction b
  /\ nextLength a = nextLength b
  /\ buffersFirstConsumed a = buffersFirstConsumed b
  /\ nextPayload a = nextPayload b.

Definition same_outcome (a b : WebSocket * QSslSocket) : Prop :=
  same_decoded (fst a) (fst b) /\ snd a = snd b.

(** The measure of the decoder loop (see [socketReadOpen_fuel]). *)
Definition open_measure (st : WebSocket * QSslSocket) : nat :=
  3 * length (QSslSocket.rx (snd st))
  + match nextAction (fst st) with
    | ReadPayload =>
        match nextPayload (fst st) with
        | Data => if nextLength (fst st) =? 0 then 1 else 2
        | _ => 1
        end
    | _ => 0
    end.

(** The octets that let the decoder's current step run to its end. *)
Definition complete (w : WebSocket) : Z :=
  match nextAction w with
  | ReadPayload => nextLength w
  | _ => needed w
  end.

Definition flow_map {S T : Type} (f : S -> T) (x : flow S) : flow T :=
  match x with
  | Continue s => Continue (f s)
  | Return s => Return (f s)
  end.

Definition flow_rel {S : Type} (R : S -> S -> Prop) (x y : flow S) : Prop :=
  match x, y with
  | Continue a, Continue b => R a b
  | Return a, Return b => R a b
  | _, _ => False
  end.

(** Octets arriving while the engine is in a given state. *)
Definition with_arrival (m : list byte) (st : WebSocket * QSslSocket)
  : WebSocket * QSslSocket :=
  (fst st, QSslSocket.arrive (snd st) m).

(** A data payload of which some octets, but not all, have arrived. *)
Definition partial_data (w : WebSocket) (sock : QSslSocket) : Prop :=
  nextAction w = ReadPayload /\ nextPayload w = Data
  /\ 0 < QSslSocket.bytesAvailable sock < nextLength w.

(** What [socketRead] does for an engine that is scanning the handshake:
    scan, and decode frames at once when the handshake completes. *)
Definition handshake_phase (w : WebSocket) (sock : QSslSocket)
  : option (WebSocket * QSslSocket) :=
  match socketReadHandshake w sock with
  | Some (w', sock') =>
      match wsState w' with
      | Open => socketReadOpen w' sock'
      | _ => Some (w', sock')
      end
  | None => None
  end.

(** A frame header that is an error: an opcode that is none of 0, 1, 2, 8,
    9 and 10, or a frame other than Close without the mask bit. *)
Definition header_error (b0 b1 : byte) : bool :=
  negb (valid_opcode (opcode b0))
  || (negb (opcode b0 =? 8) && negb (mask_bit b1)).

(** The layout of a masked frame that is not a Close frame: the header
    octets [b0] and [b1], the extended length [ext], the key, the payload. *)
Definition length_code (b1 : byte) : Z := Z.land (to_Z b1) 127.

Definition extension_size (b1 : byte) : nat :=
  if length_code b1 <=? 125 then 0
  else if length_code b1 =? 126 then 2 else 8.

Definition frame_length (b1 : byte) (ext : list byte) : Z :=
  if length_code b1 <=? 125 then length_code b1 else qFromBigEndian ext.

Definition payload_kind (b0 : byte) : WebSocketNextPayload :=
  if opcode b0 <=? 2 then Data else if opcode b0 =? 9 then Ping else Pong.

(** The engine when the key of such a frame has been read. *)
Definition at_payload (w : WebSocket) (b0 b1 : byte) (ext key : list byte)
  : WebSocket :=
  mkWebSocket (wsState w) (webSocketAccept w) key 0 (buffers w)
    (bytesInBuffers w) ReadPayload (frame_length b1 ext)
    (buffersFirstConsumed w) (payload_kind b0).

(** A ping frame with a payload of 65536 zero octets, masked with the
    key 37 FA 21 3D, and the payload that unmasking gives. *)
Definition ping_65536_key : list byte := [x37; xfa; x21; x3d].

Definition ping_65536_payload : list byte := repeat x00 (Z.to_nat 65536).

Definition ping_65536 : list byte :=
  x89 :: xff :: qToBigEndian 8 65536 ++ ping_65536_key
      ++ ping_65536_payload ++ [].

Definition ping_65536_unmasked : list byte :=
  fst (unmask_loop ping_65536_key (length ping_65536_payload)
         ping_65536_payload 0).

(** *** The queue of decoded chunks

    The octets that are queued and not yet read, front first. *)
Definition pending (w : WebSocket) : list byte :=
  skipn (Z.to_nat (buffersFirstConsumed w)) (concat (buffers w)).

(** The invariant of the queue: the offset lies within the head chunk,
    the total is the number of pending octets, and the queued chunks
    together are short enough for the quint64 counters. *)
Definition buffer_ok (w : WebSocket) : Prop :=
  match buffers w with
  | [] => buffersFirstConsumed w = 0
  | first :: _ => 0 <= buffersFirstConsumed w <= qlength first
  end
  /\ bytesInBuffers w = qlength (pending w)
  /\ qlength (concat (buffers w)) < 2 ^ 64.

(** The two overloads of [read] as functions from the engine and a maximum
    length to the octets returned and the engine afterwards. *)
Definition read_into (w : WebSocket) (maxLen : Z)
  : option (QByteArray * WebSocket) :=
  match read w maxLen with
  | Some (_, stored, w') => Some (stored, w')
  | None => None
  end.

(** Successive reads with the given maximum lengths, and their results
    one after the other. *)
Fixpoint read_many (reader : WebSocket -> Z -> option (QByteArray * WebSocket))
    (w : WebSocket) (maxLens : list Z) : option (QByteArray * WebSocket) :=
  match maxLens with
  | [] => Some ([], w)
  | maxLen :: rest =>
      match reader w maxLen with
      | Some (bytes, w') =>
          match read_many reader w' rest with
          | Some (more, w'') => Some (bytes ++ more, w'')
          | None => None
          end
      | None => None
      end
  end.

Definition total (maxLens : list Z) : Z := fold_right Z.add 0 maxLens.

(** The measure of the loop of [read] (see [read_fuel]). *)
Definition read_measure (st : read_locals) : nat :=
  match buffers (rl_ws st) with
  | [] => 0
  | first :: others =>
      if quint64 (qlength first - buffersFirstConsumed (rl_ws st)) =? 0
      then 2 * length others + 1
      else if rl_maxLen st =? 0 then 0
      else 2 * length others + 2
  end.

(** The frame of the third testable property: the text [Hello] masked
    with the key 37 FA 21 3D; and the engine after it has decoded it. *)
Definition hello_frame : list byte :=
  [x81; x85; x37; xfa; x21; x3d; x7f; x9f; x4d; x51; x58].

Definition after_hello : WebSocket :=
  mkWebSocket Open None [x37; xfa; x21; x3d] 1 [bytes_of_string "Hello"] 5
    ReadOpcodeAnd1ByteLength 0 0 Data.

(** A queue of two chunks of which the first octet has been read. *)
Definition two_chunks : WebSocket :=
  mkWebSocket Open None [x00; x00; x00; x00] 0
    [bytes_of_string "Hello"; bytes_of_string "Wo"] 6
    ReadOpcodeAnd1ByteLength 0 1 Data.

(** *** The operations of the engine

    What the owner of an engine can do with it: let it read from the
    socket when octets have arrived, write a message, and read decoded
    octets through either overload of [read]. *)
Inductive operation : Type :=
| SocketRead (arrived : list byte)
| Write (qbaMsg : QByteArray)
| Read (maxLen : Z)
| ReadArray (maxLen : Z).

Definition perform (op : operation) (st : WebSocket * QSslSocket)
  : option (WebSocket * QSslSocket) :=
  match op with
  | SocketRead arrived => feed st arrived
  | Write qbaMsg => Some (fst st, write (fst st) (snd st) qbaMsg)
  | Read maxLen =>
      match read (fst st) maxLen with
      | Some (_, _, w') => Some (w', snd st)
      | None => None
      end
  | ReadArray maxLen =>
      match read_array (fst st) maxLen with
      | Some (_, w') => Some (w', snd st)
      | None => None
      end
  end.

Fixpoint perform_all (ops : list operation) (st : WebSocket * QSslSocket)
  : option (WebSocket * QSslSocket) :=
  match ops with
  | [] => Some st
  | op :: rest =>
      match perform op st with
      | Some st' => perform_all rest st'
      | None => None
      end
  end.

(** The order None, Handshake, Open, then Closed or Error: [forward a b]
    when [b] is [a] or lies after it. *)
Definition forward (a b : WebSocketState) : bool :=
  match a, b with
  | None_, _ => true
  | Handshake, (Handshake | Open | Closed | Error) => true
  | Open, (Open | Closed | Error) => true
  | Closed, Closed => true
  | Error, Error => true
  | _, _ => false
  end.

(** *** The key line of the handshake

    A line of the request as [readLine] returns it, line end included:
    whether the scanner takes it for the key header, what follows the
    header name, the trimmed value, and the accept token of the value. *)
Definition key_header : QString := QString.literal "Sec-WebSocket-Key:".

Definition is_key_line (lineAscii : QByteArray) : bool :=
  QString.startsWith (QString.fromUtf8 lineAscii) key_header.

Definition rest_length (lineAscii : QByteArray) : Z :=
  QString.length (QString.fromUtf8 lineAscii) - 18.

Definition trimmed_value (lineAscii : QByteArray) : QString :=
  QString.trimmed
    (QString.ref (QString.fromUtf8 lineAscii) 18 (rest_length lineAscii)).

Definition trimmed_key_bytes (lineAscii : QByteArray) : QByteArray :=
  QString.toUtf8 (trimmed_value lineAscii).

Definition accept_token (lineAscii : QByteArray) : QByteArray :=
  toBase64 (Sha1.hash (trimmed_key_bytes lineAscii ++ magicSequence)).

(** The request of the first testable property and lines with other
    values: one character too long, too short, and too short but padded
    with blanks. *)
Definition crlf : list byte := [CR; LF].

Definition sample_key_line : list byte :=
  bytes_of_string "Sec-WebSocket-Key: dGhlIHNhbXBsZSBub25jZQ==" ++ crlf.

Definition sample_request : list byte :=
  bytes_of_string "GET /chat HTTP/1.1" ++ crlf
    ++ bytes_of_string "Upgrade: websocket" ++ crlf
    ++ sample_key_line ++ crlf.

Definition long_key_line : list byte :=
  bytes_of_string "Sec-WebSocket-Key: dGhlIHNhbXBsZSBub25jZQ===" ++ crlf.

Definition short_key_line : list byte :=
  bytes_of_string "Sec-WebSocket-Key: abc" ++ crlf.

Definition padded_key_line : list byte :=
  bytes_of_string "Sec-WebSocket-Key:                       abc" ++ crlf.

(** Sockets on which a request line and then a key line wait, and the
    same sockets when the request line has been read. *)
Definition short_key_request : QSslSocket :=
  QSslSocket.mk
    (bytes_of_string "GET / HTTP/1.1" ++ crlf ++ short_key_line
       ++ bytes_of_string "xyz") [].

Definition at_short_key_line : QSslSocket :=
  QSslSocket.mk (short_key_line ++ bytes_of_string "xyz") [].

Definition sample_key_request : QSslSocket :=
  QSslSocket.mk
    (bytes_of_string "GET /chat HTTP/1.1" ++ crlf ++ sample_key_line) [].

Definition at_sample_key_line : QSslSocket :=
  QSslSocket.mk sample_key_line [].

Definition scanning : WebSocket := set_wsState Handshake fresh.

(** The measure of the loop of the scanner (see
    [socketReadHandshake_fuel]). *)
Definition handshake_measure (st : WebSocket * QSslSocket) : nat :=
  length (QSslSocket.rx (snd st)).

(** What the decoder keeps true of an engine and its socket: the payload
    length is a quint64 value, the queue is well formed, and the octets
    queued and the octets waiting in the socket together are few enough for
    the quint64 counters. *)
Definition decoder_ok (st : WebSocket * QSslSocket) : Prop :=
  nextLength_fits (fst st)
  /\ buffer_ok (fst st)
  /\ qlength (concat (buffers (fst st)))
     + QSslSocket.bytesAvailable (snd st) < 2 ^ 64.

(** An invocation of [socketRead] on an engine and a socket gets the
    decoder to the state [c] at the start of a round: the connection is
    open, or the invocation completes the handshake first. *)
Definition reaches (w0 : WebSocket) (sock0 : QSslSocket)
    (c : WebSocket * QSslSocket) : Prop :=
  exists w sock,
    ((wsState w0 = Open /\ (w, sock) = (w0, sock0))
     \/ ((wsState w0 = None_ \/ wsState w0 = Handshake)
         /\ socketReadHandshake (set_wsState Handshake w0) sock0
            = Some (w, sock)
         /\ wsState w = Open))
    /\ steps socketReadOpen_body (w, sock) c.

(** *** Frames and requests as a peer sends them

    The octets of a frame: the two header octets, the extended length,
    the key and the payload. *)
Definition frame_octets (b0 b1 : byte) (ext key payload : list byte)
  : list byte :=
  b0 :: b1 :: ext ++ key ++ payload.

(** A payload unmasked with a key, from the first octet of the key. *)
Definition unmasked (key payload : list byte) : list byte :=
  fst (unmask_loop key (length payload) payload 0).

(** The chunks that a decoded payload adds to the queue: none when the
    payload is empty. *)
Definition chunk_of (data : QByteArray) : list QByteArray :=
  match data with
  | [] => []
  | _ => [data]
  end.

(** A frame other than Close as a client sends it, the octets it is sent
    as, whether it is well formed (a valid opcode, the mask bit, an
    extended length of the size that the length code announces, a key of
    four octets, a payload of the announced length and below the 2^31
    octets that an array can hold; for a ping a payload that is not 65536
    octets long), the octets that it adds to the queue
    and the octets that it is answered with. *)
Record frame : Type := mk_frame {
  f_b0 : byte;
  f_b1 : byte;
  f_ext : list byte;
  f_key : list byte;
  f_payload : list byte
}.

Definition frame_bytes (f : frame) : list byte :=
  frame_octets (f_b0 f) (f_b1 f) (f_ext f) (f_key f) (f_payload f).

Definition well_formed (f : frame) : bool :=
  valid_opcode (opcode (f_b0 f))
  && negb (opcode (f_b0 f) =? 8)
  && mask_bit (f_b1 f)
  && Nat.eqb (length (f_ext f)) (extension_size (f_b1 f))
  && Nat.eqb (length (f_key f)) 4
  && (qlength (f_payload f) =? frame_length (f_b1 f) (f_ext f))
  && (qlength (f_payload f) <? 2 ^ 31)
  && negb ((opcode (f_b0 f) =? 9) && (qlength (f_payload f) =? 65536)).

Definition delivered (f : frame) : list byte :=
  if opcode (f_b0 f) <=? 2 then unmasked (f_key f) (f_payload f) else [].

Definition answered (f : frame) : list byte :=
  if opcode (f_b0 f) =? 9 then
    [x8a] ++ minimal_length_header (qlength (f_payload f))
      ++ unmasked (f_key f) (f_payload f)
  else [].

(** Four frames: the text [Hello], a ping, a pong and an empty
    continuation frame. *)
Definition sample_frames : list frame :=
  [mk_frame x81 x85 [] [x37; xfa; x21; x3d] [x7f; x9f; x4d; x51; x58];
   mk_frame x89 x82 [] [x01; x02; x03; x04] [x10; x20];
   mk_frame x8a xfe [x00; x01] [x01; x02; x03; x04] [x33];
   mk_frame x00 x80 [] [x0a; x0b; x0c; x0d] []].

(** A sequence of octets that is exactly one line for [readLine]; a line
    that the scanner passes over (neither the key header nor the blank
    line); a key line that the scanner takes a token from. *)
Definition one_line (l : QByteArray) : bool :=
  canReadLine_in l && Nat.eqb (length (snd (readLine_in l))) 0.

Definition other_line (l : QByteArray) : bool :=
  one_line l && negb (is_key_line l) && negb (is_crlf l).

Definition good_key_line (l : QByteArray) : bool :=
  one_line l && is_key_line l && (26 <=? rest_length l).

Definition passed_line (l : QByteArray) : bool :=
  other_line l || good_key_line l.

(** The response of the server to a handshake with the given token. *)
Definition response (token : QByteArray) : list byte :=
  serverHeader ++ token ++ crlf ++ crlf.

(** Lines of a request: the request line, a header that is not the key
    header, and a key header with another key. *)
Definition request_line : list byte :=
  bytes_of_string "GET /chat HTTP/1.1" ++ crlf.

Definition upgrade_line : list byte :=
  bytes_of_string "Upgrade: websocket" ++ crlf.

Definition other_key_line : list byte :=
  bytes_of_string "sec-websocket-key: AQIDBAUGBwgJCgsMDQ4PEA==" ++ crlf.

(** One socket after another: octets have been taken from the front of
    what waits to be read, and octets have been added at the end of what
    has been written. *)
Definition io_extends (sock sock' : QSslSocket) : Prop :=
  (exists consumed,
      QSslSocket.rx sock = consumed ++ QSslSocket.rx sock')
  /\ (exists written,
         QSslSocket.tx sock' = QSslSocket.tx sock ++ written).

(** The octets that an engine and its socket hold between them, and the
    octets that a sequence of operations lets arrive. *)
Definition load (st : WebSocket * QSslSocket) : Z :=
  qlength (concat (buffers (fst st))) + QSslSocket.bytesAvailable (snd st).

Definition arrivals (ops : list operation) : Z :=
  fold_right
    (fun op n =>
       match op with
       | SocketRead arrived => qlength arrived + n
       | _ => n
       end) 0 ops.

(** * Properties *)

(** ** Tactics *)

Ltac case_if :=
  match goal with
  | |- context [if ?b then _ else _] => destruct b eqn:?
  end.

Ltac to_lia :=
  repeat match goal with
  | H : (_ <? _) = true |- _ => apply Z.ltb_lt in H
  | H : (_ <? _) = false |- _ => apply Z.ltb_ge in H
  | H : (_ <=? _) = true |- _ => apply Z.leb_le in H
  | H : (_ <=? _) = false |- _ => apply Z.leb_gt in H
  | H : (_ =? _) = true |- _ => apply Z.eqb_eq in H
  | H : (_ =? _) = false |- _ => apply Z.eqb_neq in H
  end.

(** Going round on a concrete state, as often as the loop does. *)
Ltac go_round :=
  repeat (eapply steps_step; [vm_compute; reflexivity|]); apply steps_refl.

Ltac go_round_once :=
  eapply steps_step; [vm_compute; reflexivity|]; apply steps_refl.


(** ** Octets *)

Lemma to_Z_range (b : byte) : 0 <= to_Z b < 256.
Proof.
  unfold to_Z. pose proof (Byte.to_N_bounded b). lia.
Qed.

Lemma of_Z_to_Z (b : byte) : of_Z (to_Z b) = b.
Proof.
  unfold of_Z. pose proof (to_Z_range b) as Hr.
  rewrite Z.mod_small by exact Hr.
  unfold to_Z. rewrite N2Z.id, Byte.of_to_N. reflexivity.
Qed.

Lemma to_Z_of_Z (z : Z) : to_Z (of_Z z) = z mod 256.
Proof.
  unfold of_Z, to_Z.
  pose proof (Z.mod_pos_bound z 256 ltac:(lia)) as Hr.
  destruct (Byte.of_N (Z.to_N (z mod 256))) as [b|] eqn:E.
  - apply Byte.to_of_N in E. rewrite E. lia.
  - apply Byte.of_N_None_iff in E. lia.
Qed.

Lemma lxor_octets (a b : Z) :
  0 <= a < 256 -> 0 <= b < 256 -> 0 <= Z.lxor a b < 256.
Proof.
  intros Ha Hb.
  assert (Hn : 0 <= Z.lxor a b) by (apply Z.lxor_nonneg; lia).
  split; [exact Hn|].
  destruct (Z.eq_dec (Z.lxor a b) 0) as [E|E]; [lia|].
  change 256 with (2 ^ 8). apply Z.log2_lt_pow2; [lia|].
  pose proof (Z.log2_lxor a b ltac:(lia) ltac:(lia)) as Hl.
  assert (Hla : Z.log2 a < 8).
  { destruct (Z.eq_dec a 0) as [->|]; [simpl; lia|].
    apply Z.log2_lt_pow2; simpl; lia. }
  assert (Hlb : Z.log2 b < 8).
  { destruct (Z.eq_dec b 0) as [->|]; [simpl; lia|].
    apply Z.log2_lt_pow2; simpl; lia. }
  lia.
Qed.

Lemma byte_xor_involutive (a k : byte) : byte_xor (byte_xor a k) k = a.
Proof.
  unfold byte_xor. rewrite to_Z_of_Z.
  rewrite Z.mod_small by (apply lxor_octets; apply to_Z_range).
  rewrite Z.lxor_assoc, Z.lxor_nilpotent, Z.lxor_0_r.
  apply of_Z_to_Z.
Qed.

(** ** Loops: the runs of a body *)

Section Loops.

Variable S : Type.
Variable body : S -> flow S.

Lemma runs_deterministic s r1 r2 :
  runs body s r1 -> runs body s r2 -> r1 = r2.
Proof.
  intros H1; revert r2.
  induction H1 as [s r Hb | s s' r Hb _ IH]; intros r2 H2;
    inversion H2; subst; try congruence.
  apply IH. congruence.
Qed.

Lemma steps_runs s s' r :
  steps body s s' -> runs body s' r -> runs body s r.
Proof.
  induction 1; intros Hr; [exact Hr|].
  eapply runs_continue; eauto.
Qed.

Lemma steps_trans s1 s2 s3 :
  steps body s1 s2 -> steps body s2 s3 -> steps body s1 s3.
Proof.
  induction 1; intros H23; [exact H23|].
  eapply steps_step; eauto.
Qed.

Lemma while_loop_runs fuel s r :
  while_loop body fuel s = Some r -> runs body s r.
Proof.
  revert s; induction fuel as [|n IH]; intros s; simpl; [discriminate|].
  destruct (body s) as [s'|s'] eqn:Hb; intros H.
  - eapply runs_continue; eauto.
  - injection H as <-. apply runs_return; exact Hb.
Qed.

(** A measure that every round decreases bounds the number of rounds. *)
Variable measure : S -> nat.
Hypothesis measure_decreases :
  forall s s', body s = Continue s' -> (measure s' < measure s)%nat.

Lemma while_loop_returns fuel s :
  (measure s < fuel)%nat -> exists r, while_loop body fuel s = Some r.
Proof.
  revert s; induction fuel as [|n IH]; intros s Hm; [lia|]. simpl.
  destruct (body s) as [s'|s'] eqn:Hb; [|eauto].
  apply IH. apply measure_decreases in Hb. lia.
Qed.

Lemma runs_while_loop fuel s r :
  (measure s < fuel)%nat -> runs body s r ->
  while_loop body fuel s = Some r.
Proof.
  intros Hm Hr. destruct (while_loop_returns Hm) as [r' Hw].
  rewrite Hw. f_equal.
  eapply runs_deterministic; [|exact Hr]. eapply while_loop_runs; eauto.
Qed.

End Loops.

(** ** The masking transform *)

Lemma unmask_loop_length key len data index :
  length (fst (unmask_loop key len data index)) = length data.
Proof.
  revert data index; induction len as [|n IH]; intros [|d rest] index;
    simpl; try reflexivity.
  specialize (IH rest (if quint8 (index + 1) =? 4 then 0 else quint8 (index + 1))).
  destruct (unmask_loop key n rest _); simpl in *. congruence.
Qed.

Lemma next_index (i : Z) :
  0 <= i < 4 ->
  (if quint8 (i + 1) =? 4 then 0 else quint8 (i + 1)) = (i + 1) mod 4.
Proof.
  intros Hi. unfold quint8. rewrite (Z.mod_small (i + 1)) by lia.
  destruct (Z.eqb_spec (i + 1) 4) as [E|E].
  - rewrite E. reflexivity.
  - rewrite Z.mod_small; lia.
Qed.

Lemma unmask_loop_index key data index :
  0 <= index < 4 ->
  snd (unmask_loop key (length data) data index)
  = (index + Z.of_nat (length data)) mod 4.
Proof.
  revert index; induction data as [|d rest IH]; intros index Hi.
  - simpl. rewrite Z.add_0_r, Z.mod_small; lia.
  - cbn [length unmask_loop]. rewrite next_index by exact Hi.
    specialize (IH ((index + 1) mod 4) (Z.mod_pos_bound _ 4 ltac:(lia))).
    destruct (unmask_loop key (length rest) rest ((index + 1) mod 4)).
    simpl in *. rewrite IH, Zplus_mod_idemp_l. f_equal. lia.
Qed.

Lemma unmask_loop_twice key data index :
  fst (unmask_loop key (length data)
         (fst (unmask_loop key (length data) data index)) index) = data.
Proof.
  revert index; induction data as [|d rest IH]; intros index; [reflexivity|].
  cbn [length unmask_loop].
  set (index' := if quint8 (index + 1) =? 4 then 0 else quint8 (index + 1)).
  specialize (IH index').
  destruct (unmask_loop key (length rest) rest index') as [rest1 i1] eqn:E1.
  cbn [fst unmask_loop]. fold index'. simpl in IH.
  destruct (unmask_loop key (length rest) rest1 index') as [rest2 i2] eqn:E2.
  simpl in *. rewrite byte_xor_involutive. congruence.
Qed.

(** C10.  The masking transform is an involution: for every array [d],
    every key of four octets and every rolling index [i] in 0..3, unmasking
    [d] and then unmasking the result from the same index [i] gives [d]
    back, and each of the two applications leaves the rolling index at
    [(i + length d) mod 4]. *)
Theorem unmask_involution :
  forall (w : WebSocket) (d : QByteArray) (k0 k1 k2 k3 : byte) (i : Z),
    0 <= i < 4 ->
    let w0 := set_maskIndex i (set_mask [k0; k1; k2; k3] w) in
    let (d1, w1) := unmask w0 d (qlength d) in
    let (d2, w2) := unmask (set_maskIndex i w1) d1 (qlength d1) in
    d2 = d
    /\ maskIndex w1 = (i + qlength d) mod 4
    /\ maskIndex w2 = (i + qlength d) mod 4.
Proof.
  intros w d k0 k1 k2 k3 i Hi. unfold unmask, qlength. cbn zeta.
  rewrite !Nat2Z.id. cbn [mask maskIndex set_maskIndex set_mask].
  set (key := [k0; k1; k2; k3]).
  pose proof (unmask_loop_twice key d i) as Htwice.
  pose proof (unmask_loop_index key d Hi) as Hidx.
  pose proof (unmask_loop_length key (length d) d i) as Hlen.
  destruct (unmask_loop key (length d) d i) as [d1 i1] eqn:E1.
  cbn [fst snd mask maskIndex set_maskIndex] in *.
  rewrite Nat2Z.id.
  pose proof (unmask_loop_index key d1 Hi) as Hidx2.
  rewrite Hlen in *.
  destruct (unmask_loop key (length d) d1 i) as [d2 i2] eqn:E2.
  cbn [fst snd] in *. cbn [mask set_mask]. fold key. rewrite E2.
  cbn [maskIndex set_maskIndex]. auto.
Qed.

Lemma unmask_involution_witness :
  0 <= 1 < 4
  /\ let w0 := set_maskIndex 1 (set_mask [x37; xfa; x21; x3d] opened) in
     let (d1, w1) := unmask w0 [x7f; x9f; x4d; x51; x58] 5 in
     let (d2, w2) := unmask (set_maskIndex 1 w1) d1 (qlength d1) in
     d2 = [x7f; x9f; x4d; x51; x58]
     /\ maskIndex w1 = (1 + 5) mod 4 /\ maskIndex w2 = (1 + 5) mod 4.
Proof.
  assert (Hi : 0 <= 1 < 4) by lia.
  split; [exact Hi|].
  exact (@unmask_involution opened [x7f; x9f; x4d; x51; x58]
           x37 xfa x21 x3d 1 Hi).
Defined.

(** ** The frame writer *)

Lemma writeLength_rx sock L :
  QSslSocket.rx (writeLength sock L) = QSslSocket.rx sock.
Proof.
  unfold writeLength.
  destruct (L <=? 125); [reflexivity|]. destruct (L <=? 65536); reflexivity.
Qed.

(** Away from 65536 the writer follows the minimal-size rule. *)
Lemma writeLength_minimal sock L :
  L <> 65536 ->
  QSslSocket.tx (writeLength sock L)
  = QSslSocket.tx sock ++ minimal_length_header L.
Proof.
  intros HL. unfold writeLength, minimal_length_header.
  destruct (Z.leb_spec L 125) as [H1|H1]; [reflexivity|].
  destruct (Z.leb_spec L 65536) as [H2|H2];
    destruct (Z.ltb_spec L (2 ^ 16)) as [H3|H3];
    change (2 ^ 16) with 65536 in H3; try lia.
  - cbn [QSslSocket.write QSslSocket.tx QSslSocket.rx].
    unfold quint16. rewrite Z.mod_small by (change (2 ^ 16) with 65536; lia).
    rewrite <- app_assoc. reflexivity.
  - cbn [QSslSocket.write QSslSocket.tx QSslSocket.rx].
    rewrite <- app_assoc. reflexivity.
Qed.

(** C4.  At a payload length of 65536 the writer emits the octet 126 and
    the sixteen-bit field 0, where the minimal-size rule asks for 127 and
    the sixty-four-bit field; at the lengths 10, 200 and 70000 it emits the
    one-octet, the sixteen-bit and the sixty-four-bit form of the rule. *)
Theorem writeLength_65536 :
  QSslSocket.tx (writeLength idle 65536) = [x7e; x00; x00]
  /\ minimal_length_header 65536
     = [x7f; x00; x00; x00; x00; x00; x01; x00; x00]
  /\ QSslSocket.tx (writeLength idle 10) = [x0a]
  /\ QSslSocket.tx (writeLength idle 200) = [x7e; x00; xc8]
  /\ QSslSocket.tx (writeLength idle 70000)
     = [x7f; x00; x00; x00; x00; x00; x01; x11; x70].
Proof.
  repeat split; vm_compute; reflexivity.
Qed.

(** ** The frame decoder: termination *)

#[local] Opaque firstn skipn Z.to_nat.

Lemma header_length_decreases w sock h1 st' :
  nextAction w = ReadOpcodeAnd1ByteLength ->
  header_length w sock h1 = Continue st' ->
  (open_measure st' <= open_measure (w, sock))%nat.
Proof.
  unfold header_length, open_measure. intros Hn.
  repeat case_if; intros H; inversion H; subst; cbn; rewrite Hn; lia.
Qed.

Lemma socketReadOpen_body_decreases st st' :
  socketReadOpen_body st = Continue st' ->
  (open_measure st' < open_measure st)%nat.
Proof.
  destruct st as [w [rx tx]]. unfold socketReadOpen_body.
  unfold QSslSocket.bytesAvailable, QSslSocket.read, QSslSocket.skip.
  cbn [QSslSocket.rx QSslSocket.tx].
  destruct (nextAction w) eqn:Hn.
  - case_if; [discriminate|]. to_lia.
    assert (Hsk : (2 + length (skipn (Z.to_nat 2) rx) = length rx)%nat)
      by (rewrite length_skipn; lia).
    repeat case_if; intros H; try discriminate;
      apply header_length_decreases in H; try assumption;
      unfold open_measure in *; cbn [fst snd QSslSocket.rx nextAction
        set_nextPayload] in *; rewrite Hn in *; lia.
  - case_if; [discriminate|]. to_lia. intros [= <-].
    unfold open_measure;
      cbn [fst snd QSslSocket.rx nextAction set_nextAction set_nextLength].
    rewrite Hn, length_skipn. lia.
  - case_if; [discriminate|]. to_lia. intros [= <-].
    unfold open_measure;
      cbn [fst snd QSslSocket.rx nextAction set_nextAction set_nextLength].
    rewrite Hn, length_skipn. lia.
  - case_if; [discriminate|]. to_lia. intros [= <-].
    unfold open_measure;
      cbn [fst snd QSslSocket.rx nextAction nextPayload nextLength
           set_nextAction set_maskIndex set_mask].
    rewrite Hn, length_skipn. repeat case_if; destruct (nextPayload w); lia.
  - unfold open_measure at 2. cbn [fst snd QSslSocket.rx]. rewrite Hn.
    destruct (nextPayload w) eqn:Hp.
    + destruct (nextLength w =? 0) eqn:Hz;
        [intros [= <-]; unfold open_measure;
         cbn [fst snd QSslSocket.rx nextAction set_nextAction]; lia|].
      case_if; [discriminate|]. to_lia.
      unfold unmask.
      destruct (unmask_loop _ _ _ _) as [data' index'].
      intros [= <-].
      unfold open_measure; cbn [fst snd QSslSocket.rx nextAction nextPayload
        nextLength set_bytesInBuffers set_buffers set_maskIndex
        set_nextLength].
      rewrite Hn, Hp, length_skipn.
      destruct (Z.ltb_spec (nextLength w) (Z.of_nat (length rx))) as [Hlt|Hge].
      * destruct (Z.le_gt_cases (nextLength w) 0) as [Hneg|Hpos].
        -- unfold quint64. rewrite Z.sub_diag, Z.mod_0_l by lia.
           cbn [Z.eqb]. lia.
        -- case_if; lia.
      * case_if; lia.
    + case_if; [|discriminate]. unfold unmask.
      destruct (unmask_loop _ _ _ _) as [data' index'].
      intros [= <-].
      unfold open_measure; cbn [fst snd QSslSocket.rx QSslSocket.write
        nextAction set_nextAction set_maskIndex].
      rewrite writeLength_rx. cbn [QSslSocket.rx QSslSocket.write].
      rewrite length_skipn. lia.
    + case_if; [|discriminate].
      intros [= <-]. unfold open_measure; cbn [fst snd QSslSocket.rx
        nextAction set_nextAction]. rewrite length_skipn. lia.
Qed.

(** The decoder always returns: the bound on its rounds is never reached. *)
Lemma socketReadOpen_returns w sock :
  exists r, socketReadOpen w sock = Some r.
Proof.
  unfold socketReadOpen.
  apply while_loop_returns with (measure := open_measure).
  - apply socketReadOpen_body_decreases.
  - unfold open_measure, socketReadOpen_fuel. cbn [fst snd].
    destruct (nextAction w), (nextPayload w); try case_if; lia.
Qed.

Lemma socketReadOpen_runs w sock r :
  socketReadOpen w sock = Some r <-> runs socketReadOpen_body (w, sock) r.
Proof.
  split; [apply while_loop_runs|]. unfold socketReadOpen.
  apply runs_while_loop with (measure := open_measure).
  - apply socketReadOpen_body_decreases.
  - unfold open_measure, socketReadOpen_fuel. cbn [fst snd].
    destruct (nextAction w), (nextPayload w); try case_if; lia.
Qed.

(** ** The frame decoder: octets that arrive later *)

Lemma read_arrive sock m n :
  n <= QSslSocket.bytesAvailable sock ->
  QSslSocket.read (QSslSocket.arrive sock m) n
  = (fst (QSslSocket.read sock n),
     QSslSocket.arrive (snd (QSslSocket.read sock n)) m).
Proof.
  unfold QSslSocket.read, QSslSocket.arrive, QSslSocket.bytesAvailable.
  destruct sock as [rx tx]; cbn [QSslSocket.rx QSslSocket.tx fst snd].
  intros Hn.
  assert (Hle : (Z.to_nat n <= length rx)%nat) by lia.
  rewrite firstn_app, skipn_app.
  replace (Z.to_nat n - length rx)%nat with O by lia.
  rewrite firstn_O, skipn_O, app_nil_r. reflexivity.
Qed.

Lemma skip_arrive sock m n :
  n <= QSslSocket.bytesAvailable sock ->
  QSslSocket.skip (QSslSocket.arrive sock m) n
  = QSslSocket.arrive (QSslSocket.skip sock n) m.
Proof.
  unfold QSslSocket.skip, QSslSocket.arrive, QSslSocket.bytesAvailable.
  destruct sock as [rx tx]; cbn [QSslSocket.rx QSslSocket.tx fst snd].
  intros Hn.
  assert (Hle : (Z.to_nat n <= length rx)%nat) by lia.
  rewrite skipn_app.
  replace (Z.to_nat n - length rx)%nat with O by lia.
  rewrite skipn_O. reflexivity.
Qed.

Lemma write_arrive sock m data :
  QSslSocket.write (QSslSocket.arrive sock m) data
  = QSslSocket.arrive (QSslSocket.write sock data) m.
Proof. reflexivity. Qed.

Lemma writeLength_arrive sock m L :
  writeLength (QSslSocket.arrive sock m) L
  = QSslSocket.arrive (writeLength sock L) m.
Proof.
  unfold writeLength. repeat case_if; reflexivity.
Qed.

Lemma bytesAvailable_arrive sock m :
  QSslSocket.bytesAvailable (QSslSocket.arrive sock m)
  = QSslSocket.bytesAvailable sock + Z.of_nat (length m).
Proof.
  unfold QSslSocket.bytesAvailable, QSslSocket.arrive.
  cbn [QSslSocket.rx]. rewrite length_app. lia.
Qed.

Lemma arrive_nil sock : QSslSocket.arrive sock [] = sock.
Proof.
  destruct sock as [rx tx]. unfold QSslSocket.arrive.
  cbn [QSslSocket.rx QSslSocket.tx]. rewrite app_nil_r. reflexivity.
Qed.

Lemma arrive_arrive sock m1 m2 :
  QSslSocket.arrive (QSslSocket.arrive sock m1) m2
  = QSslSocket.arrive sock (m1 ++ m2).
Proof.
  unfold QSslSocket.arrive. cbn [QSslSocket.rx QSslSocket.tx].
  rewrite app_assoc. reflexivity.
Qed.

Lemma header_length_arrive w sock m h1 :
  header_length w (QSslSocket.arrive sock m) h1
  = flow_map (with_arrival m) (header_length w sock h1).
Proof.
  unfold header_length. repeat case_if; reflexivity.
Qed.

(** A step that has all the octets it can use does the same whatever
    arrives behind them. *)
Lemma socketReadOpen_body_arrive w sock m :
  nextLength_fits w ->
  complete w <= QSslSocket.bytesAvailable sock ->
  socketReadOpen_body (w, QSslSocket.arrive sock m)
  = flow_map (with_arrival m) (socketReadOpen_body (w, sock)).
Proof.
  intros [Hlo Hhi] Hc. unfold complete, needed in Hc.
  pose proof (bytesAvailable_arrive sock m) as Ha.
  unfold socketReadOpen_body.
  destruct (nextAction w) eqn:Hn.
  - rewrite read_arrive by exact Hc.
    destruct (QSslSocket.read sock 2) as [hb sock'].
    cbn [fst snd].
    destruct (Z.ltb_spec (QSslSocket.bytesAvailable sock) 2);
      destruct (Z.ltb_spec
                  (QSslSocket.bytesAvailable (QSslSocket.arrive sock m)) 2);
      try lia.
    repeat case_if; try apply header_length_arrive; reflexivity.
  - rewrite read_arrive by exact Hc.
    destruct (QSslSocket.read sock 2) as [hb sock']. cbn [fst snd].
    destruct (Z.ltb_spec (QSslSocket.bytesAvailable sock) 2);
      destruct (Z.ltb_spec
                  (QSslSocket.bytesAvailable (QSslSocket.arrive sock m)) 2);
      try lia.
    reflexivity.
  - rewrite read_arrive by exact Hc.
    destruct (QSslSocket.read sock 8) as [hb sock']. cbn [fst snd].
    destruct (Z.ltb_spec (QSslSocket.bytesAvailable sock) 8);
      destruct (Z.ltb_spec
                  (QSslSocket.bytesAvailable (QSslSocket.arrive sock m)) 8);
      try lia.
    reflexivity.
  - rewrite read_arrive by exact Hc.
    destruct (QSslSocket.read sock 4) as [hb sock']. cbn [fst snd].
    destruct (Z.ltb_spec (QSslSocket.bytesAvailable sock) 4);
      destruct (Z.ltb_spec
                  (QSslSocket.bytesAvailable (QSslSocket.arrive sock m)) 4);
      try lia.
    reflexivity.
  - destruct (nextPayload w) eqn:Hp.
    + destruct (Z.eqb_spec (nextLength w) 0) as [Hz|Hz]; [reflexivity|].
      destruct (Z.eqb_spec (QSslSocket.bytesAvailable sock) 0);
        destruct (Z.eqb_spec
                    (QSslSocket.bytesAvailable (QSslSocket.arrive sock m)) 0);
        try lia.
      assert (Hr : (if nextLength w
                         <? QSslSocket.bytesAvailable (QSslSocket.arrive sock m)
                    then nextLength w
                    else QSslSocket.bytesAvailable (QSslSocket.arrive sock m))
                   = nextLength w) by (case_if; to_lia; lia).
      assert (Hr' : (if nextLength w <? QSslSocket.bytesAvailable sock
                     then nextLength w
                     else QSslSocket.bytesAvailable sock)
                   = nextLength w) by (case_if; to_lia; lia).
      rewrite Hr, Hr', read_arrive by exact Hc.
      destruct (QSslSocket.read sock (nextLength w)) as [data sock'].
      cbn [fst snd]. destruct (unmask _ data (nextLength w)). reflexivity.
    + destruct (Z.leb_spec (nextLength w) (QSslSocket.bytesAvailable sock));
        destruct (Z.leb_spec (nextLength w)
                    (QSslSocket.bytesAvailable (QSslSocket.arrive sock m)));
        try lia.
      rewrite read_arrive by exact Hc.
      destruct (QSslSocket.read sock (nextLength w)) as [data sock'].
      cbn [fst snd]. destruct (unmask w data (nextLength w)).
      rewrite !write_arrive, writeLength_arrive, write_arrive. reflexivity.
    + destruct (Z.leb_spec (nextLength w) (QSslSocket.bytesAvailable sock));
        destruct (Z.leb_spec (nextLength w)
                    (QSslSocket.bytesAvailable (QSslSocket.arrive sock m)));
        try lia.
      rewrite skip_arrive by exact Hc. reflexivity.
Qed.

Lemma lor_range (n a b : Z) :
  0 <= n -> 0 <= a < 2 ^ n -> 0 <= b < 2 ^ n -> 0 <= Z.lor a b < 2 ^ n.
Proof.
  intros Hn Ha Hb.
  assert (Hnn : 0 <= Z.lor a b) by (apply Z.lor_nonneg; lia).
  split; [exact Hnn|].
  destruct (Z.eq_dec (Z.lor a b) 0) as [E|E]; [lia|].
  apply Z.log2_lt_pow2; [lia|].
  rewrite Z.log2_lor by lia.
  assert (Hla : a = 0 \/ Z.log2 a < n)
    by (destruct (Z.eq_dec a 0); [auto|right; apply Z.log2_lt_pow2; lia]).
  assert (Hlb : b = 0 \/ Z.log2 b < n)
    by (destruct (Z.eq_dec b 0); [auto|right; apply Z.log2_lt_pow2; lia]).
  pose proof (Z.log2_nonneg a). pose proof (Z.log2_nonneg b).
  destruct Hla as [->|Hla], Hlb as [->|Hlb]; cbn [Z.log2] in *; try lia.
  exfalso. apply E. reflexivity.
Qed.

Lemma qFromBigEndian_acc_range bs : forall acc k,
  0 <= k -> 0 <= acc < 2 ^ k ->
  0 <= qFromBigEndian_acc acc bs < 2 ^ (k + 8 * Z.of_nat (length bs)).
Proof.
  induction bs as [|b rest IH]; intros acc k Hk Hacc.
  - cbn [qFromBigEndian_acc length]. replace (k + 8 * Z.of_nat 0) with k by lia.
    exact Hacc.
  - cbn [qFromBigEndian_acc length].
    replace (k + 8 * Z.of_nat (Datatypes.S (length rest)))
      with ((k + 8) + 8 * Z.of_nat (length rest)) by lia.
    apply IH; [lia|]. apply lor_range; [lia| |].
    + rewrite Z.shiftl_mul_pow2 by lia. rewrite Z.pow_add_r by lia. nia.
    + pose proof (to_Z_range b).
      assert (2 ^ 8 <= 2 ^ (k + 8)) by (apply Z.pow_le_mono_r; lia).
      change (2 ^ 8) with 256 in *. lia.
Qed.

Lemma qFromBigEndian_fits bs :
  (length bs <= 8)%nat -> 0 <= qFromBigEndian bs < 2 ^ 64.
Proof.
  intros Hl. unfold qFromBigEndian.
  pose proof (@qFromBigEndian_acc_range bs 0 0 ltac:(lia) ltac:(simpl; lia))
    as Hr.
  assert (2 ^ (0 + 8 * Z.of_nat (length bs)) <= 2 ^ 64)
    by (apply Z.pow_le_mono_r; lia).
  lia.
Qed.

(** A round that returns either found too few octets and changed
    nothing, or ended the connection. *)
Lemma socketReadOpen_body_Return w sock r :
  socketReadOpen_body (w, sock) = Return r ->
  (r = (w, sock) /\ QSslSocket.bytesAvailable sock < needed w)
  \/ (complete w <= QSslSocket.bytesAvailable sock
      /\ (wsState (fst r) = Closed \/ wsState (fst r) = Error)).
Proof.
  unfold socketReadOpen_body, header_length, complete, needed.
  destruct (nextAction w) eqn:Hn.
  - case_if; to_lia; [intros [= <-]; left; split; [reflexivity|lia]|].
    destruct (QSslSocket.read sock 2) as [hb sock'].
    repeat case_if; intros [= <-]; right; cbn; auto.
  - case_if; to_lia; [intros [= <-]; left; split; [reflexivity|lia]|].
    destruct (QSslSocket.read sock 2); discriminate.
  - case_if; to_lia; [intros [= <-]; left; split; [reflexivity|lia]|].
    destruct (QSslSocket.read sock 8); discriminate.
  - case_if; to_lia; [intros [= <-]; left; split; [reflexivity|lia]|].
    destruct (QSslSocket.read sock 4); discriminate.
  - destruct (nextPayload w).
    + case_if; [discriminate|].
      case_if; to_lia; [intros [= <-]; left; split; [reflexivity|lia]|].
      destruct (QSslSocket.read sock _). destruct (unmask _ _ _). discriminate.
    + case_if; to_lia; [|intros [= <-]; left; split; [reflexivity|lia]].
      destruct (QSslSocket.read sock _). destruct (unmask _ _ _). discriminate.
    + case_if; to_lia; [|intros [= <-]; left; split; [reflexivity|lia]].
      discriminate.
Qed.

Lemma socketReadOpen_body_blocked w sock :
  QSslSocket.bytesAvailable sock < needed w ->
  socketReadOpen_body (w, sock) = Return (w, sock).
Proof.
  unfold socketReadOpen_body, needed.
  assert (Ha : 0 <= QSslSocket.bytesAvailable sock)
    by (unfold QSslSocket.bytesAvailable; lia).
  destruct (nextAction w); try (intros H; case_if; to_lia; [reflexivity|lia]).
  destruct (nextPayload w).
  - intros H. destruct (Z.eqb_spec (nextLength w) 0); [lia|].
    case_if; to_lia; [reflexivity|lia].
  - intros H; case_if; to_lia; [lia|reflexivity].
  - intros H; case_if; to_lia; [lia|reflexivity].
Qed.

(** A round that goes round again keeps the connection state and the
    bound on the payload length, and had either all the octets it could
    use or a part of a data payload. *)
Lemma socketReadOpen_body_Continue w sock st' :
  socketReadOpen_body (w, sock) = Continue st' ->
  wsState (fst st') = wsState w
  /\ (nextLength_fits w -> nextLength_fits (fst st'))
  /\ (complete w <= QSslSocket.bytesAvailable sock \/ partial_data w sock).
Proof.
  unfold socketReadOpen_body, header_length, complete, needed, partial_data,
    nextLength_fits.
  assert (Hlen : forall n, (length (firstn n (QSslSocket.rx sock)) <= n)%nat)
    by (intros n; rewrite length_firstn; lia).
  destruct (nextAction w) eqn:Hn.
  - case_if; to_lia; [discriminate|]. unfold QSslSocket.read.
    repeat case_if; intros [= <-]; cbn [fst wsState nextLength set_nextAction
      set_nextLength set_nextPayload]; (split; [reflexivity|]).
    all: (split; [|left; lia]); intros; try assumption;
      try (pose proof (Z.land_nonneg
                         (to_Z (nth 1 (firstn (Z.to_nat 2) (QSslSocket.rx sock)) x00))
                         127); to_lia; lia).
  - case_if; to_lia; [discriminate|]. unfold QSslSocket.read. intros [= <-].
    cbn [fst wsState nextLength set_nextAction set_nextLength].
    split; [reflexivity|]. split; [|left; lia]. intros _.
    apply qFromBigEndian_fits. specialize (Hlen (Z.to_nat 2)). lia.
  - case_if; to_lia; [discriminate|]. unfold QSslSocket.read. intros [= <-].
    cbn [fst wsState nextLength set_nextAction set_nextLength].
    split; [reflexivity|]. split; [|left; lia]. intros _.
    apply qFromBigEndian_fits. specialize (Hlen (Z.to_nat 8)). lia.
  - case_if; to_lia; [discriminate|]. unfold QSslSocket.read. intros [= <-].
    cbn [fst wsState nextLength set_nextAction set_maskIndex set_mask].
    split; [reflexivity|]. split; [auto|left; lia].
  - destruct (nextPayload w) eqn:Hp.
    + destruct (Z.eqb_spec (nextLength w) 0) as [Hz|Hz].
      { intros [= <-]. cbn [fst wsState nextLength set_nextAction].
        split; [reflexivity|]. split; [auto|left].
        unfold QSslSocket.bytesAvailable. lia. }
      case_if; to_lia; [discriminate|]. unfold QSslSocket.read, unmask.
      destruct (unmask_loop _ _ _ _) as [data' index'].
      intros [= <-].
      cbn [fst wsState nextLength set_bytesInBuffers set_buffers
           set_maskIndex set_nextLength].
      split; [reflexivity|]. split.
      * intros _. unfold quint64. apply Z.mod_pos_bound. lia.
      * assert (0 <= QSslSocket.bytesAvailable sock)
          by (unfold QSslSocket.bytesAvailable; lia).
        destruct (Z.le_gt_cases (nextLength w)
                    (QSslSocket.bytesAvailable sock)); [left; lia|right].
        repeat split; auto; lia.
    + case_if; to_lia; [|discriminate]. unfold QSslSocket.read, unmask.
      destruct (unmask_loop _ _ _ _) as [data' index'].
      intros [= <-]. cbn [fst wsState nextLength set_nextAction set_maskIndex].
      split; [reflexivity|]. split; [auto|left; lia].
    + case_if; to_lia; [|discriminate].
      intros [= <-]. cbn [fst wsState nextLength set_nextAction].
      split; [reflexivity|]. split; [auto|left; lia].
Qed.

Lemma unmask_loop_app key d1 : forall d2 n2 index,
  unmask_loop key (length d1 + n2) (d1 ++ d2) index
  = let (a, i1) := unmask_loop key (length d1) d1 index in
    let (b, i2) := unmask_loop key n2 d2 i1 in
    (a ++ b, i2).
Proof.
  induction d1 as [|d rest IH]; intros d2 n2 index.
  - cbn [length app Nat.add unmask_loop].
    destruct (unmask_loop key n2 d2 index); reflexivity.
  - cbn [length app Nat.add unmask_loop]. rewrite IH.
    destruct (unmask_loop key (length rest) rest _) as [a i1].
    destruct (unmask_loop key n2 d2 i1) as [b i2]. reflexivity.
Qed.

Lemma quint64_add_idem a b : quint64 (quint64 a + b) = quint64 (a + b).
Proof. unfold quint64. apply Zplus_mod_idemp_l. Qed.

Lemma quint64_sub_idem a b : quint64 (quint64 a - b) = quint64 (a - b).
Proof. unfold quint64. apply Zminus_mod_idemp_l. Qed.

Lemma firstn_app_exact (l1 l2 : list byte) n :
  firstn (length l1 + n) (l1 ++ l2) = l1 ++ firstn n l2.
Proof.
  rewrite firstn_app, firstn_all2 by lia. f_equal. f_equal. lia.
Qed.

Lemma skipn_app_exact (l1 l2 : list byte) n :
  skipn (length l1 + n) (l1 ++ l2) = skipn n l2.
Proof.
  rewrite skipn_app, skipn_all2 by lia. cbn [app]. f_equal. lia.
Qed.

(** The data step, when both octets and payload are left. *)
Lemma socketReadOpen_body_data w rx tx :
  nextAction w = ReadPayload -> nextPayload w = Data ->
  nextLength w <> 0 -> rx <> [] ->
  let avail := Z.of_nat (length rx) in
  let read := if nextLength w <? avail then nextLength w else avail in
  let um := unmask_loop (mask w) (Z.to_nat read)
              (firstn (Z.to_nat read) rx) (maskIndex w) in
  socketReadOpen_body (w, QSslSocket.mk rx tx)
  = Continue
      (set_bytesInBuffers (quint64 (bytesInBuffers w + read))
         (set_buffers (buffers w ++ [fst um])
            (set_maskIndex (snd um)
               (set_nextLength (quint64 (nextLength w - read)) w))),
       QSslSocket.mk (skipn (Z.to_nat read) rx) tx).
Proof.
  intros Hn Hp Hz Hrx avail read um.
  unfold socketReadOpen_body. rewrite Hn, Hp.
  destruct (Z.eqb_spec (nextLength w) 0) as [|_]; [contradiction|].
  unfold QSslSocket.bytesAvailable, QSslSocket.read.
  cbn [QSslSocket.rx QSslSocket.tx]. fold avail.
  destruct (Z.eqb_spec avail 0) as [E|_].
  { destruct rx; [contradiction|]. subst avail. cbn [length] in E. lia. }
  fold read. unfold unmask.
  cbn [mask maskIndex set_nextLength]. fold um.
  destruct um as [data' index']. reflexivity.
Qed.

(** A part of a data payload: the step takes what is there and the next
    round waits; when more arrives, the two rounds together decode what one
    round decodes when everything is there at once. *)
Lemma socketReadOpen_body_partial w rx tx :
  nextLength_fits w -> partial_data w (QSslSocket.mk rx tx) ->
  exists w1,
    socketReadOpen_body (w, QSslSocket.mk rx tx)
    = Continue (w1, QSslSocket.mk [] tx)
    /\ socketReadOpen_body (w1, QSslSocket.mk [] tx)
       = Return (w1, QSslSocket.mk [] tx)
    /\ forall m, m <> [] ->
         exists c2 c2',
           socketReadOpen_body (w1, QSslSocket.mk m tx) = Continue c2
           /\ socketReadOpen_body (w, QSslSocket.mk (rx ++ m) tx)
              = Continue c2'
           /\ same_outcome c2 c2'.
Proof.
  intros [Hlo Hhi] (Hn & Hp & Ha).
  unfold QSslSocket.bytesAvailable in Ha. cbn [QSslSocket.rx] in Ha.
  assert (Hrx : rx <> []) by (intros ->; cbn [length] in Ha; lia).
  assert (Hz : nextLength w <> 0) by lia.
  pose proof (@socketReadOpen_body_data w rx tx Hn Hp Hz Hrx) as Hstep.
  cbn zeta in Hstep.
  destruct (Z.ltb_spec (nextLength w) (Z.of_nat (length rx))) as [|_]; [lia|].
  rewrite Nat2Z.id, firstn_all, skipn_all in Hstep.
  destruct (unmask_loop (mask w) (length rx) rx (maskIndex w))
    as [d1 i1] eqn:Hum.
  cbn [fst snd] in Hstep.
  set (r := Z.of_nat (length rx)) in *.
  set (w1 := set_bytesInBuffers _ _) in Hstep.
  assert (Hnl1 : nextLength w1 = nextLength w - r).
  { subst w1. cbn [nextLength set_bytesInBuffers set_buffers set_maskIndex
      set_nextLength]. unfold quint64. apply Z.mod_small. lia. }
  exists w1. split; [exact Hstep|]. split.
  { apply socketReadOpen_body_blocked. unfold needed, QSslSocket.bytesAvailable.
    subst w1. cbn [nextAction nextPayload nextLength QSslSocket.rx length
      set_bytesInBuffers set_buffers set_maskIndex set_nextLength].
    rewrite Hn, Hp.
    cbn [nextLength set_bytesInBuffers set_buffers set_maskIndex
      set_nextLength] in Hnl1. rewrite Hnl1.
    destruct (Z.eqb_spec (nextLength w - r) 0); cbn; lia. }
  intros m Hm.
  assert (Hn1 : nextAction w1 = ReadPayload) by exact Hn.
  assert (Hp1 : nextPayload w1 = Data) by exact Hp.
  assert (Hz1 : nextLength w1 <> 0) by lia.
  assert (Hrxm : rx ++ m <> []) by (destruct rx; [contradiction|discriminate]).
  pose proof (@socketReadOpen_body_data w1 m tx Hn1 Hp1 Hz1 Hm) as H1.
  pose proof (@socketReadOpen_body_data w (rx ++ m) tx Hn Hp Hz Hrxm) as H2.
  cbn zeta in H1, H2. rewrite Hnl1 in H1.
  set (read2 := if nextLength w - r <? Z.of_nat (length m)
                then nextLength w - r else Z.of_nat (length m)) in H1.
  assert (Hread : (if nextLength w <? Z.of_nat (length (rx ++ m))
                   then nextLength w else Z.of_nat (length (rx ++ m)))
                  = r + read2).
  { rewrite length_app, Nat2Z.inj_add. fold r. subst read2.
    repeat case_if; to_lia; lia. }
  assert (Hread2 : 0 <= read2) by (subst read2; case_if; lia).
  rewrite Hread in H2.
  replace (Z.to_nat (r + read2)) with (length rx + Z.to_nat read2)%nat in H2
    by (subst r; lia).
  rewrite firstn_app_exact, skipn_app_exact, unmask_loop_app, Hum in H2.
  assert (Hmk : mask w1 = mask w /\ maskIndex w1 = i1
                /\ buffers w1 = buffers w ++ [d1]
                /\ bytesInBuffers w1 = quint64 (bytesInBuffers w + r))
    by (subst w1; repeat split).
  destruct Hmk as (Hmask & Hidx & Hbuf & Hbytes).
  rewrite Hmask, Hidx in H1.
  destruct (unmask_loop (mask w) (Z.to_nat read2)
              (firstn (Z.to_nat read2) m) i1) as [d2 i2].
  cbn [fst snd] in H1, H2.
  eexists; eexists. split; [exact H1|]. split; [exact H2|].
  unfold same_outcome, same_decoded. cbn [fst snd].
  cbn [wsState webSocketAccept mask maskIndex buffers bytesInBuffers
       nextAction nextLength buffersFirstConsumed nextPayload
       set_bytesInBuffers set_buffers set_maskIndex set_nextLength].
  rewrite Hbuf, Hbytes.
  rewrite quint64_add_idem, !concat_app.
  cbn [concat]. rewrite !app_nil_r, <- !app_assoc.
  replace (nextLength w - (r + read2)) with (nextLength w - r - read2) by lia.
  replace (bytesInBuffers w + (r + read2))
    with (bytesInBuffers w + r + read2) by lia.
  subst w1. repeat split.
Qed.

(** The decoder never looks at the chunks it has queued. *)
Lemma same_decoded_refl w : same_decoded w w.
Proof. unfold same_decoded. repeat split. Qed.

Lemma same_outcome_refl c : same_outcome c c.
Proof. split; [apply same_decoded_refl|reflexivity]. Qed.

Lemma same_outcome_trans a b c :
  same_outcome a b -> same_outcome b c -> same_outcome a c.
Proof.
  unfold same_outcome, same_decoded.
  intros [H1 E1] [H2 E2]. split; [|congruence].
  repeat match goal with H : _ /\ _ |- _ => destruct H end.
  repeat split; congruence.
Qed.

Lemma socketReadOpen_body_same c1 c2 :
  same_outcome c1 c2 ->
  flow_rel same_outcome (socketReadOpen_body c1) (socketReadOpen_body c2).
Proof.
  destruct c1 as [w1 s1], c2 as [w2 s2]. unfold same_outcome.
  cbn [fst snd]. intros [Hs <-].
  destruct w1 as [st1 ac1 mk1 mi1 bf1 bb1 na1 nl1 fc1 np1].
  destruct w2 as [st2 ac2 mk2 mi2 bf2 bb2 na2 nl2 fc2 np2].
  unfold same_decoded in Hs.
  cbn [wsState webSocketAccept mask maskIndex buffers bytesInBuffers
       nextAction nextLength buffersFirstConsumed nextPayload] in Hs.
  destruct Hs as (<- & <- & <- & <- & Hc & <- & <- & <- & <- & <-).
  unfold socketReadOpen_body, header_length, unmask, QSslSocket.read.
  cbn [wsState webSocketAccept mask maskIndex buffers bytesInBuffers
       nextAction nextLength buffersFirstConsumed nextPayload].
  destruct na1; [| | | |destruct np1];
    repeat case_if;
    cbn [wsState webSocketAccept mask maskIndex buffers bytesInBuffers
         nextAction nextLength buffersFirstConsumed nextPayload
         set_wsState set_nextAction set_nextLength set_nextPayload
         set_mask set_maskIndex set_buffers set_bytesInBuffers];
    try match goal with
        | |- context [unmask_loop ?k ?n ?d ?i] =>
            destruct (unmask_loop k n d i) as [data' index']
        end;
    cbn [flow_rel same_outcome fst snd]; unfold same_decoded;
    cbn [wsState webSocketAccept mask maskIndex buffers bytesInBuffers
         nextAction nextLength buffersFirstConsumed nextPayload
         set_wsState set_nextAction set_nextLength set_nextPayload
         set_mask set_maskIndex set_buffers set_bytesInBuffers];
    rewrite ?concat_app, ?Hc; repeat split.
Qed.

Lemma runs_same c1 r1 :
  runs socketReadOpen_body c1 r1 ->
  forall c2, same_outcome c1 c2 ->
  exists r2, runs socketReadOpen_body c2 r2 /\ same_outcome r1 r2.
Proof.
  induction 1 as [c1 r1 Hb | c1 c1' r1 Hb _ IH]; intros c2 Hs;
    pose proof (socketReadOpen_body_same Hs) as Hrel; rewrite Hb in Hrel;
    destruct (socketReadOpen_body c2) as [c2'|c2'] eqn:Hb2;
    cbn [flow_rel] in Hrel; try contradiction.
  - exists c2'. split; [apply runs_return; exact Hb2|exact Hrel].
  - destruct (IH c2' Hrel) as (r2 & Hr2 & Hs2).
    exists r2. split; [eapply runs_continue; eauto|exact Hs2].
Qed.

Lemma with_arrival_nil c : with_arrival [] c = c.
Proof.
  destruct c as [w sock]. unfold with_arrival. cbn [fst snd].
  rewrite arrive_nil. reflexivity.
Qed.

(** Resuming: when the decoder has returned and more octets arrive, the
    next invocation ends where a single invocation on all the octets ends.
    When the connection has ended, the octets that arrive are not looked
    at. *)
Lemma socketReadOpen_resume c r :
  runs socketReadOpen_body c r ->
  wsState (fst c) = Open -> nextLength_fits (fst c) ->
  forall m,
    (wsState (fst r) = Open ->
     forall r', runs socketReadOpen_body (with_arrival m r) r' ->
     exists r'', runs socketReadOpen_body (with_arrival m c) r''
                 /\ same_outcome r' r'')
    /\ (wsState (fst r) <> Open ->
        runs socketReadOpen_body (with_arrival m c) (with_arrival m r)).
Proof.
  induction 1 as [c r Hb | c c1 r Hb Hruns IH]; intros Hopen Hfits m;
    destruct c as [w sock].
  - cbn [fst] in *.
    destruct (socketReadOpen_body_Return _ _ Hb) as [[-> _]|[Hc Hend]].
    + split.
      * intros _ r' Hr'. exists r'. split; [exact Hr'|apply same_outcome_refl].
      * cbn [fst]. congruence.
    + assert (Hb' : socketReadOpen_body (with_arrival m (w, sock))
                    = Return (with_arrival m r)).
      { unfold with_arrival at 1. cbn [fst snd].
        rewrite socketReadOpen_body_arrive, Hb by assumption. reflexivity. }
      split.
      * intros Ho. destruct Hend; congruence.
      * intros _. apply runs_return. exact Hb'.
  - cbn [fst] in *.
    destruct (socketReadOpen_body_Continue _ _ Hb) as (Hst & Hf & Hcase).
    destruct c1 as [w1 sock1]. cbn [fst] in *.
    specialize (IH ltac:(congruence) (Hf Hfits) m).
    destruct Hcase as [Hc|Hpart].
    + assert (Hb' : socketReadOpen_body (with_arrival m (w, sock))
                    = Continue (with_arrival m (w1, sock1))).
      { unfold with_arrival at 1. cbn [fst snd].
        rewrite socketReadOpen_body_arrive, Hb by assumption. reflexivity. }
      destruct IH as [IH1 IH2]. split.
      * intros Ho r' Hr'. destruct (IH1 Ho r' Hr') as (r'' & Hr'' & Hs).
        exists r''. split; [eapply runs_continue; eauto|exact Hs].
      * intros Hne. eapply runs_continue; eauto.
    + destruct sock as [rx tx].
      destruct (socketReadOpen_body_partial Hfits Hpart)
        as (w1' & Hstep & Hwait & Hmore).
      rewrite Hb in Hstep. injection Hstep as <- ->.
      assert (Hr : r = (w1, QSslSocket.mk [] tx)).
      { eapply runs_deterministic; [exact Hruns|].
        apply runs_return. exact Hwait. }
      subst r. cbn [fst]. split; [|congruence].
      intros _ r' Hr'. destruct m as [|b m].
      * rewrite with_arrival_nil in *. exists (w1, QSslSocket.mk [] tx).
        split; [eapply runs_continue; eauto|].
        replace r' with (w1, QSslSocket.mk [] tx)
          by (eapply runs_deterministic; eauto).
        apply same_outcome_refl.
      * destruct (Hmore (b :: m) ltac:(discriminate))
          as (c2 & c2' & H1 & H2 & Hs).
        unfold with_arrival, QSslSocket.arrive in *.
        cbn [fst snd QSslSocket.rx QSslSocket.tx app] in *.
        inversion Hr' as [? ? Hret | ? ? ? Hcont Hrest]; subst;
          [congruence|].
        rewrite H1 in Hcont. injection Hcont as <-.
        destruct (runs_same Hrest Hs) as (r'' & Hr'' & Hs'').
        exists r''. split; [eapply runs_continue; eauto|exact Hs''].
Qed.

(** ** The handshake scanner: termination and octets that arrive later *)

Lemma readLine_in_shorter bs :
  canReadLine_in bs = true ->
  (length (snd (readLine_in bs)) < length bs)%nat.
Proof.
  induction bs as [|b rest IH]; cbn [canReadLine_in readLine_in];
    [discriminate|].
  destruct (Byte.eqb b LF); intros H.
  - cbn [snd length]. lia.
  - specialize (IH H). destruct (readLine_in rest). cbn [snd length] in *. lia.
Qed.

Lemma readLine_in_app bs m :
  canReadLine_in bs = true ->
  canReadLine_in (bs ++ m) = true
  /\ readLine_in (bs ++ m)
     = (fst (readLine_in bs), snd (readLine_in bs) ++ m).
Proof.
  induction bs as [|b rest IH]; cbn [canReadLine_in readLine_in app];
    [discriminate|].
  destruct (Byte.eqb b LF); intros H; [split; reflexivity|].
  destruct (IH H) as [H1 H2]. split; [exact H1|].
  rewrite H2. destruct (readLine_in rest). reflexivity.
Qed.

Lemma socketReadHandshake_body_Continue w sock st' :
  socketReadHandshake_body (w, sock) = Continue st' ->
  canReadLine sock = true
  /\ wsState (fst st') = wsState w
  /\ nextLength (fst st') = nextLength w
  /\ QSslSocket.tx (snd st') = QSslSocket.tx sock
  /\ (length (QSslSocket.rx (snd st')) < length (QSslSocket.rx sock))%nat.
Proof.
  unfold socketReadHandshake_body, readLine.
  destruct (canReadLine sock) eqn:Hc; cbn [negb]; [|discriminate].
  pose proof (readLine_in_shorter _ Hc) as Hlen.
  destruct (readLine_in (QSslSocket.rx sock)) as [line rest].
  cbn [snd] in Hlen.
  repeat case_if; try discriminate;
    try (destruct (webSocketAccept w); discriminate);
    intros [= <-]; cbn; auto.
Qed.

Lemma socketReadHandshake_body_Return w sock r :
  socketReadHandshake_body (w, sock) = Return r ->
  (r = (w, sock) /\ canReadLine sock = false)
  \/ (canReadLine sock = true
      /\ nextLength (fst r) = nextLength w
      /\ (wsState (fst r) = Open \/ wsState (fst r) = Error)).
Proof.
  unfold socketReadHandshake_body, readLine.
  destruct (canReadLine sock) eqn:Hc; cbn [negb];
    [|intros [= <-]; left; auto].
  destruct (readLine_in (QSslSocket.rx sock)) as [line rest].
  repeat case_if; try discriminate;
    try (destruct (webSocketAccept w));
    try discriminate; intros [= <-]; right; cbn; auto.
Qed.

Lemma socketReadHandshake_body_arrive w sock m :
  canReadLine sock = true ->
  socketReadHandshake_body (w, QSslSocket.arrive sock m)
  = flow_map (with_arrival m) (socketReadHandshake_body (w, sock)).
Proof.
  intros Hc. unfold socketReadHandshake_body, readLine, canReadLine in *.
  unfold QSslSocket.arrive. cbn [QSslSocket.rx QSslSocket.tx].
  destruct (readLine_in_app _ m Hc) as [Hc' Hr]. rewrite Hc', Hr, Hc.
  cbn [negb]. destruct (readLine_in (QSslSocket.rx sock)) as [line rest].
  cbn [fst snd].
  repeat case_if; try reflexivity.
  destruct (webSocketAccept w); reflexivity.
Qed.

Lemma socketReadHandshake_body_decreases st st' :
  socketReadHandshake_body st = Continue st' ->
  (handshake_measure st' < handshake_measure st)%nat.
Proof.
  destruct st as [w sock]. intros H.
  apply socketReadHandshake_body_Continue in H. unfold handshake_measure.
  cbn [snd]. tauto.
Qed.

(** The scanner always returns. *)
Lemma socketReadHandshake_returns w sock :
  exists r, socketReadHandshake w sock = Some r.
Proof.
  unfold socketReadHandshake.
  apply while_loop_returns with (measure := handshake_measure).
  - apply socketReadHandshake_body_decreases.
  - unfold handshake_measure, socketReadHandshake_fuel. cbn [snd]. lia.
Qed.

Lemma socketReadHandshake_runs w sock r :
  socketReadHandshake w sock = Some r
  <-> runs socketReadHandshake_body (w, sock) r.
Proof.
  split; [apply while_loop_runs|]. unfold socketReadHandshake.
  apply runs_while_loop with (measure := handshake_measure).
  - apply socketReadHandshake_body_decreases.
  - unfold handshake_measure, socketReadHandshake_fuel. cbn [snd]. lia.
Qed.

Lemma socketReadHandshake_resume c r :
  runs socketReadHandshake_body c r ->
  wsState (fst c) = Handshake ->
  forall m,
    (wsState (fst r) = Handshake ->
     forall r', runs socketReadHandshake_body (with_arrival m r) r' ->
     runs socketReadHandshake_body (with_arrival m c) r')
    /\ (wsState (fst r) <> Handshake ->
        runs socketReadHandshake_body (with_arrival m c) (with_arrival m r))
    /\ nextLength (fst r) = nextLength (fst c)
    /\ (wsState (fst r) = Handshake \/ wsState (fst r) = Open
        \/ wsState (fst r) = Error).
Proof.
  induction 1 as [c r Hb | c c1 r Hb Hruns IH]; intros Hhs m;
    destruct c as [w sock]; cbn [fst] in *.
  - destruct (socketReadHandshake_body_Return _ _ Hb)
      as [[-> _]|(Hc & Hl & Hend)]; cbn [fst].
    + repeat split; auto. congruence.
    + assert (Hb' : socketReadHandshake_body (with_arrival m (w, sock))
                    = Return (with_arrival m r)).
      { unfold with_arrival at 1. cbn [fst snd].
        rewrite socketReadHandshake_body_arrive, Hb by assumption.
        reflexivity. }
      repeat split; try tauto.
      * intros Ho. destruct Hend; congruence.
      * intros _. apply runs_return. exact Hb'.
  - destruct (socketReadHandshake_body_Continue _ _ Hb)
      as (Hc & Hst & Hl & _ & _).
    assert (Hb' : socketReadHandshake_body (with_arrival m (w, sock))
                  = Continue (with_arrival m c1)).
    { unfold with_arrival at 1. cbn [fst snd].
      rewrite socketReadHandshake_body_arrive, Hb by assumption.
      reflexivity. }
    destruct (IH ltac:(congruence) m) as (IH1 & IH2 & IH3 & IH4).
    repeat split; try tauto; try congruence.
    + intros Ho r' Hr'. eapply runs_continue; eauto.
    + intros Hne. eapply runs_continue; eauto.
Qed.

Lemma socketReadOpen_body_Return_length w sock r :
  socketReadOpen_body (w, sock) = Return r ->
  nextLength (fst r) = nextLength w.
Proof.
  unfold socketReadOpen_body, header_length, QSslSocket.read, unmask.
  destruct (nextAction w); [| | | |destruct (nextPayload w)];
    repeat case_if;
    try match goal with
        | |- context [unmask_loop ?k ?n ?d ?i] =>
            destruct (unmask_loop k n d i) as [data' index']
        end;
    try discriminate; intros [= <-]; reflexivity.
Qed.

Lemma socketReadOpen_runs_fits c r :
  runs socketReadOpen_body c r ->
  nextLength_fits (fst c) -> nextLength_fits (fst r).
Proof.
  induction 1 as [[w sock] r Hb | [w sock] c1 r Hb _ IH]; intros Hf.
  - apply socketReadOpen_body_Return_length in Hb.
    unfold nextLength_fits in *. cbn [fst] in *. rewrite Hb. exact Hf.
  - apply IH. apply socketReadOpen_body_Continue in Hb. cbn [fst] in *. tauto.
Qed.

Lemma socketReadOpen_runs_state c r :
  runs socketReadOpen_body c r ->
  wsState (fst c) = Open ->
  wsState (fst r) = Open \/ wsState (fst r) = Closed
  \/ wsState (fst r) = Error.
Proof.
  induction 1 as [[w sock] r Hb | [w sock] c1 r Hb _ IH]; intros Ho.
  - destruct (socketReadOpen_body_Return _ _ Hb) as [[-> _]|[_ Hend]];
      cbn [fst] in *; tauto.
  - apply IH. apply socketReadOpen_body_Continue in Hb. cbn [fst] in *.
    destruct Hb as [-> _]. exact Ho.
Qed.

(** The state in which [socketRead] starts its work. *)
Lemma socketRead_unfold w sock :
  socketRead w sock
  = match wsState w with
    | None_ | Handshake => handshake_phase (set_wsState Handshake w) sock
    | Open => socketReadOpen w sock
    | _ => Some (w, sock)
    end.
Proof.
  unfold socketRead, handshake_phase.
  destruct w as [st ac mk mi bf bb na nl fc np].
  destruct st; reflexivity.
Qed.

Lemma handshake_phase_returns w sock :
  exists r, handshake_phase w sock = Some r.
Proof.
  unfold handshake_phase.
  destruct (socketReadHandshake_returns w sock) as [[w' sock'] ->].
  destruct (wsState w'); eauto using socketReadOpen_returns.
Qed.

(** [socketRead] always returns. *)
Lemma socketRead_returns w sock : exists r, socketRead w sock = Some r.
Proof.
  rewrite socketRead_unfold.
  destruct (wsState w);
    eauto using socketReadOpen_returns, handshake_phase_returns.
Qed.

Lemma set_wsState_same w : set_wsState (wsState w) w = w.
Proof. destruct w; reflexivity. Qed.

Lemma open_phase_resume w sock r :
  wsState w = Open -> nextLength_fits w ->
  socketReadOpen w sock = Some r ->
  forall m, exists a b,
    socketRead (fst r) (QSslSocket.arrive (snd r) m) = Some a
    /\ socketReadOpen w (QSslSocket.arrive sock m) = Some b
    /\ same_outcome a b.
Proof.
  intros Ho Hf Hr m. apply socketReadOpen_runs in Hr.
  destruct (socketReadOpen_resume Hr Ho Hf m) as [H1 H2].
  pose proof (socketReadOpen_runs_state Hr Ho) as Hst.
  rewrite socketRead_unfold.
  destruct Hst as [Hst|Hst].
  - rewrite Hst.
    destruct (socketReadOpen_returns (fst r) (QSslSocket.arrive (snd r) m))
      as [a Ha].
    pose proof Ha as Ha'. apply socketReadOpen_runs in Ha'.
    destruct (H1 Hst a Ha') as (b & Hb & Hs).
    exists a, b. repeat split; try assumption; try apply Hs.
    apply socketReadOpen_runs. exact Hb.
  - assert (Hne : wsState (fst r) <> Open) by (destruct Hst; congruence).
    specialize (H2 Hne). apply socketReadOpen_runs in H2.
    exists (with_arrival m r), (with_arrival m r).
    split; [destruct Hst as [-> | ->]; reflexivity|].
    split; [exact H2|apply same_outcome_refl].
Qed.

Lemma handshake_phase_resume w sock r :
  wsState w = Handshake -> nextLength_fits w ->
  handshake_phase w sock = Some r ->
  forall m, exists a b,
    socketRead (fst r) (QSslSocket.arrive (snd r) m) = Some a
    /\ handshake_phase w (QSslSocket.arrive sock m) = Some b
    /\ same_outcome a b.
Proof.
  intros Hw Hf Hr m. unfold handshake_phase in Hr.
  destruct (socketReadHandshake w sock) as [[w1 sock1]|] eqn:Hh;
    [|discriminate].
  apply socketReadHandshake_runs in Hh.
  destruct (socketReadHandshake_resume Hh Hw m) as (H1 & H2 & Hl & Hst).
  cbn [fst snd] in *.
  destruct Hst as [Hst|[Hst|Hst]]; rewrite Hst in Hr.
  - (* still scanning *)
    injection Hr as <-. cbn [fst snd].
    rewrite socketRead_unfold, Hst.
    replace (set_wsState Handshake w1) with w1
      by (rewrite <- Hst; symmetry; apply set_wsState_same).
    destruct (handshake_phase_returns w1 (QSslSocket.arrive sock1 m))
      as [a Ha].
    exists a, a. split; [exact Ha|]. split; [|apply same_outcome_refl].
    unfold handshake_phase in *.
    destruct (socketReadHandshake w1 (QSslSocket.arrive sock1 m))
      as [r'|] eqn:Hh2; [|discriminate].
    apply socketReadHandshake_runs in Hh2.
    apply (H1 Hst) in Hh2. apply socketReadHandshake_runs in Hh2.
    unfold with_arrival in Hh2. cbn [fst snd] in Hh2. rewrite Hh2. exact Ha.
  - (* the handshake is complete *)
    assert (Hne : wsState w1 <> Handshake) by congruence.
    specialize (H2 Hne). apply socketReadHandshake_runs in H2.
    unfold with_arrival in H2. cbn [fst snd] in H2.
    unfold handshake_phase. rewrite H2, Hst.
    apply open_phase_resume; [exact Hst| |exact Hr].
    unfold nextLength_fits in *. rewrite Hl. exact Hf.
  - (* the handshake has failed *)
    injection Hr as <-. cbn [fst snd].
    assert (Hne : wsState w1 <> Handshake) by congruence.
    specialize (H2 Hne). apply socketReadHandshake_runs in H2.
    unfold with_arrival in H2. cbn [fst snd] in H2.
    unfold handshake_phase. rewrite H2, Hst.
    rewrite socketRead_unfold, Hst.
    eexists; eexists. split; [reflexivity|].
    split; [reflexivity|apply same_outcome_refl].
Qed.

(** Resuming, for the whole engine: feeding octets to the state that an
    invocation returned ends where one invocation on the old and the new
    octets together ends. *)
Lemma socketRead_resume w sock r :
  nextLength_fits w ->
  socketRead w sock = Some r ->
  forall m, exists a b,
    feed r m = Some a
    /\ socketRead w (QSslSocket.arrive sock m) = Some b
    /\ same_outcome a b.
Proof.
  intros Hf Hr m. unfold feed.
  rewrite socketRead_unfold in Hr.
  rewrite (socketRead_unfold w (QSslSocket.arrive sock m)).
  destruct (wsState w) eqn:Hw.
  - apply handshake_phase_resume; [reflexivity|exact Hf|exact Hr].
  - apply handshake_phase_resume; [reflexivity|exact Hf|exact Hr].
  - apply open_phase_resume; assumption.
  - injection Hr as <-. cbn [fst snd]. rewrite socketRead_unfold, Hw.
    eexists; eexists. split; [reflexivity|].
    split; [reflexivity|apply same_outcome_refl].
  - injection Hr as <-. cbn [fst snd]. rewrite socketRead_unfold, Hw.
    eexists; eexists. split; [reflexivity|].
    split; [reflexivity|apply same_outcome_refl].
Qed.

Lemma handshake_phase_fits w sock r :
  wsState w = Handshake -> nextLength_fits w ->
  handshake_phase w sock = Some r -> nextLength_fits (fst r).
Proof.
  intros Hw Hf. unfold handshake_phase.
  destruct (socketReadHandshake w sock) as [[w1 sock1]|] eqn:Hh;
    [|discriminate].
  apply socketReadHandshake_runs in Hh.
  destruct (socketReadHandshake_resume Hh Hw []) as (_ & _ & Hl & _).
  cbn [fst] in Hl.
  assert (Hf1 : nextLength_fits w1)
    by (unfold nextLength_fits in *; rewrite Hl; exact Hf).
  destruct (wsState w1); try (intros [= <-]; exact Hf1).
  intros Hr. apply socketReadOpen_runs in Hr.
  exact (socketReadOpen_runs_fits Hr Hf1).
Qed.

Lemma socketRead_fits w sock r :
  nextLength_fits w -> socketRead w sock = Some r -> nextLength_fits (fst r).
Proof.
  intros Hf. rewrite socketRead_unfold.
  destruct (wsState w) eqn:Hw.
  - apply handshake_phase_fits; [reflexivity|exact Hf].
  - apply handshake_phase_fits; [reflexivity|exact Hf].
  - intros Hr. apply socketReadOpen_runs in Hr.
    exact (socketReadOpen_runs_fits Hr Hf).
  - intros [= <-]; exact Hf.
  - intros [= <-]; exact Hf.
Qed.

Lemma feed_all_chunking chunks : forall c chunk,
  nextLength_fits (fst c) ->
  exists r1 r2,
    feed_all c (chunk :: chunks) = Some r1
    /\ feed c (concat (chunk :: chunks)) = Some r2
    /\ same_outcome r1 r2.
Proof.
  induction chunks as [|m2 ms IH]; intros c m1 Hf.
  - destruct (socketRead_returns (fst c) (QSslSocket.arrive (snd c) m1))
      as [r Hr].
    exists r, r. cbn [feed_all concat]. rewrite app_nil_r. unfold feed.
    rewrite Hr. split; [reflexivity|].
    split; [reflexivity|apply same_outcome_refl].
  - destruct (socketRead_returns (fst c) (QSslSocket.arrive (snd c) m1))
      as [c1 Hc1].
    pose proof (socketRead_fits _ Hf Hc1) as Hf1.
    destruct (IH c1 m2 Hf1) as (r1 & r2' & Hall & Hone & Hs1).
    destruct (socketRead_resume _ Hf Hc1 (concat (m2 :: ms)))
      as (a & b & Ha & Hb & Hs2).
    rewrite Hone in Ha. injection Ha as <-.
    exists r1, b. split; [|split].
    + change (feed_all c (m1 :: m2 :: ms))
        with (match feed c m1 with
              | Some st' => feed_all st' (m2 :: ms)
              | None => None
              end).
      unfold feed at 1. rewrite Hc1. exact Hall.
    + unfold feed. rewrite concat_cons, <- arrive_arrive. exact Hb.
    + eapply same_outcome_trans; eauto.
Qed.

(** An invocation ends in whatever the round ends in that it reaches. *)
Lemma socketRead_reaches w sock c r :
  reaches w sock c ->
  socketReadOpen_body c = Return r ->
  socketRead w sock = Some r.
Proof.
  intros (w1 & sock1 & Henter & Hsteps) Hb.
  assert (Hrun : socketReadOpen w1 sock1 = Some r).
  { apply socketReadOpen_runs. eapply steps_runs; [exact Hsteps|].
    apply runs_return. exact Hb. }
  rewrite socketRead_unfold.
  destruct Henter as [[Ho [= -> ->]]|(Hw & Hh & Ho)].
  - rewrite Ho. exact Hrun.
  - unfold handshake_phase. destruct Hw as [-> | ->]; rewrite Hh, Ho;
      exact Hrun.
Qed.

Lemma reaches_open w sock c :
  wsState w = Open -> steps socketReadOpen_body (w, sock) c ->
  reaches w sock c.
Proof.
  intros Ho Hsteps. exists w, sock. split; [left; auto|exact Hsteps].
Qed.

(** C1.  Chunking does not matter: whatever octets arrive and however
    they are divided into chunks, feeding the chunks through successive
    invocations of [socketRead] ends with an engine that holds the same
    decoded octets and the same total (and agrees on every other field and
    on the socket) as one invocation on all the octets.  And when an
    invocation gets to a step that finds fewer octets than it needs, the
    invocation returns the engine and the socket as they are at that
    step: the step has taken no octet, and the next invocation starts at
    the same step. *)
Theorem socketRead_chunking :
  forall (w : WebSocket) (sock : QSslSocket)
         (chunk : list byte) (chunks : list (list byte)),
    nextLength_fits w ->
    (exists r1 r2,
        feed_all (w, sock) (chunk :: chunks) = Some r1
        /\ feed (w, sock) (concat (chunk :: chunks)) = Some r2
        /\ same_outcome r1 r2)
    /\ (forall (w' : WebSocket) (sock' : QSslSocket),
           reaches w sock (w', sock') ->
           QSslSocket.bytesAvailable sock' < needed w' ->
           socketRead w sock = Some (w', sock')).
Proof.
  intros w sock chunk chunks Hf. split.
  - apply feed_all_chunking. exact Hf.
  - intros w' sock' Hreach Hb.
    eapply socketRead_reaches; [exact Hreach|].
    apply socketReadOpen_body_blocked. exact Hb.
Qed.

Lemma socketRead_chunking_witness :
  nextLength_fits opened
  /\ (exists r1 r2,
         feed_all (opened, idle)
           [[x81]; [x85; x37]; [xfa; x21; x3d; x7f]; [x9f; x4d; x51; x58]]
         = Some r1
         /\ feed (opened, idle)
              (concat [[x81]; [x85; x37]; [xfa; x21; x3d; x7f];
                       [x9f; x4d; x51; x58]])
            = Some r2
         /\ same_outcome r1 r2)
  /\ reaches opened (QSslSocket.mk (hello_frame ++ [x81]) [])
       (after_hello, QSslSocket.mk [x81] [])
  /\ QSslSocket.bytesAvailable (QSslSocket.mk [x81] []) < needed after_hello
  /\ socketRead opened (QSslSocket.mk (hello_frame ++ [x81]) [])
     = Some (after_hello, QSslSocket.mk [x81] []).
Proof.
  assert (Hf : nextLength_fits opened)
    by (unfold nextLength_fits; cbn; lia).
  assert (Hr : reaches opened (QSslSocket.mk (hello_frame ++ [x81]) [])
                 (after_hello, QSslSocket.mk [x81] []))
    by (apply reaches_open; [reflexivity|unfold after_hello; go_round]).
  assert (Hb : QSslSocket.bytesAvailable (QSslSocket.mk [x81] [])
               < needed after_hello) by reflexivity.
  split; [exact Hf|].
  destruct (@socketRead_chunking opened
              (QSslSocket.mk (hello_frame ++ [x81]) []) [x81]
              [[x85; x37]; [xfa; x21; x3d; x7f]; [x9f; x4d; x51; x58]] Hf)
    as [_ H2].
  destruct (@socketRead_chunking opened idle [x81]
              [[x85; x37]; [xfa; x21; x3d; x7f]; [x9f; x4d; x51; x58]] Hf)
    as [H1 _].
  split; [exact H1|]. split; [exact Hr|]. split; [exact Hb|].
  exact (H2 _ _ Hr Hb).
Defined.

(** The masked frame 81 85 37 FA 21 3D 7F 9F 4D 51 58 is decoded to the
    text [Hello], in one chunk when it arrives at once. *)
Example hello_decoded :
  feed (opened, idle) hello_frame = Some (after_hello, idle)
  /\ pending after_hello = bytes_of_string "Hello".
Proof. split; vm_compute; reflexivity. Qed.

(** ** The frame decoder: control frames and errors *)

(** Once the connection has ended, an invocation does nothing. *)
Lemma socketRead_ended w sock :
  wsState w = Closed \/ wsState w = Error ->
  socketRead w sock = Some (w, sock).
Proof.
  intros [H|H]; rewrite socketRead_unfold, H; reflexivity.
Qed.

Lemma feed_all_ended chunks : forall w rx tx,
  wsState w = Closed \/ wsState w = Error ->
  feed_all (w, QSslSocket.mk rx tx) chunks
  = Some (w, QSslSocket.mk (rx ++ concat chunks) tx).
Proof.
  induction chunks as [|m ms IH]; intros w rx tx Hw.
  - cbn [feed_all concat]. rewrite app_nil_r. reflexivity.
  - cbn [feed_all concat]. unfold feed. cbn [fst snd].
    rewrite socketRead_ended by exact Hw.
    unfold QSslSocket.arrive. cbn [QSslSocket.rx QSslSocket.tx].
    rewrite IH by exact Hw. rewrite app_assoc. reflexivity.
Qed.

(** The first round on a frame header. *)
Lemma socketReadOpen_body_header w b0 b1 rest tx :
  nextAction w = ReadOpcodeAnd1ByteLength ->
  socketReadOpen_body (w, QSslSocket.mk (b0 :: b1 :: rest) tx)
  = let sock := QSslSocket.mk rest tx in
    if opcode b0 <=? 2 then
      header_length (set_nextPayload Data w) sock (to_Z b1)
    else if opcode b0 =? 8 then
      Return (set_wsState Closed w,
              QSslSocket.write sock [of_Z (Z.lor (opcode b0) 128); of_Z 0])
    else if opcode b0 =? 9 then
      header_length (set_nextPayload Ping w) sock (to_Z b1)
    else if opcode b0 =? 10 then
      header_length (set_nextPayload Pong w) sock (to_Z b1)
    else Return (set_wsState Error w, sock).
Proof.
  intros Hn. unfold socketReadOpen_body. rewrite Hn.
  unfold QSslSocket.bytesAvailable, QSslSocket.read.
  cbn [QSslSocket.rx QSslSocket.tx length].
  destruct (Z.ltb_spec (Z.of_nat (Datatypes.S (Datatypes.S (length rest)))) 2);
    [lia|].
  change (Z.to_nat 2) with 2%nat.
  change (firstn 2 (b0 :: b1 :: rest)) with [b0; b1].
  change (skipn 2 (b0 :: b1 :: rest)) with rest.
  reflexivity.
Qed.

(** C3.  When the decoder, in any round of an invocation of [socketRead],
    decodes a frame header with opcode 8, it writes the two
    octets 0x88 0x00 (FIN set, opcode 8, length 0) and nothing else, the
    state becomes Closed, the invocation returns without looking at the
    octets behind the header, and no later invocation reads or writes
    anything, whatever arrives. *)
Theorem close_frame_closes :
  forall (w w' : WebSocket) (sock : QSslSocket) (b0 b1 : byte)
         (rest tx : list byte) (chunks : list (list byte)),
    reaches w sock (w', QSslSocket.mk (b0 :: b1 :: rest) tx) ->
    nextAction w' = ReadOpcodeAnd1ByteLength ->
    opcode b0 = 8 ->
    socketRead w sock
    = Some (set_wsState Closed w', QSslSocket.mk rest (tx ++ [x88; x00]))
    /\ feed_all
         (set_wsState Closed w', QSslSocket.mk rest (tx ++ [x88; x00]))
         chunks
       = Some (set_wsState Closed w',
               QSslSocket.mk (rest ++ concat chunks) (tx ++ [x88; x00])).
Proof.
  intros w w' sock b0 b1 rest tx chunks Hreach Hn Hop. split.
  - eapply socketRead_reaches; [exact Hreach|].
    rewrite socketReadOpen_body_header by exact Hn. rewrite Hop. reflexivity.
  - apply feed_all_ended. left. reflexivity.
Qed.

#[local] Transparent firstn skipn Z.to_nat.

Lemma close_frame_closes_witness :
  reaches opened
    (QSslSocket.mk (hello_frame ++ [x88; x80; x01; x02]) [])
    (after_hello, QSslSocket.mk [x88; x80; x01; x02] [])
  /\ nextAction after_hello = ReadOpcodeAnd1ByteLength
  /\ opcode x88 = 8
  /\ socketRead opened
       (QSslSocket.mk (hello_frame ++ [x88; x80; x01; x02]) [])
     = Some (set_wsState Closed after_hello,
             QSslSocket.mk [x01; x02] ([] ++ [x88; x00]))
  /\ feed_all
       (set_wsState Closed after_hello,
        QSslSocket.mk [x01; x02] ([] ++ [x88; x00]))
       [[x03]; [x81; x80]]
     = Some (set_wsState Closed after_hello,
             QSslSocket.mk ([x01; x02] ++ concat [[x03]; [x81; x80]])
               ([] ++ [x88; x00])).
Proof.
  assert (Hr : reaches opened
                 (QSslSocket.mk (hello_frame ++ [x88; x80; x01; x02]) [])
                 (after_hello, QSslSocket.mk [x88; x80; x01; x02] []))
    by (apply reaches_open; [reflexivity|unfold after_hello; go_round]).
  split; [exact Hr|]. split; [reflexivity|]. split; [reflexivity|].
  exact (@close_frame_closes opened after_hello
           (QSslSocket.mk (hello_frame ++ [x88; x80; x01; x02]) [])
           x88 x80 [x01; x02] [] [[x03]; [x81; x80]]
           Hr eq_refl eq_refl).
Defined.

Lemma land_127 (x : Z) : 0 <= Z.land x 127 <= 127.
Proof.
  assert (E : Z.land x 127 = x mod 128)
    by (change 127 with (Z.ones 7); rewrite Z.land_ones by lia; reflexivity).
  rewrite E. pose proof (Z.mod_pos_bound x 128 ltac:(lia)). lia.
Qed.

Lemma header_length_state w sock h1 :
  wsState (fst (outcome (header_length w sock h1)))
  = if Z.land h1 128 =? 0 then Error else wsState w.
Proof.
  unfold header_length. pose proof (land_127 h1).
  destruct (Z.land h1 128 =? 0); cbn [negb]; [reflexivity|].
  repeat case_if; to_lia; try reflexivity. lia.
Qed.

(** Past the frame header a round that returns has changed nothing. *)
Lemma socketReadOpen_body_Return_later w sock r :
  nextAction w <> ReadOpcodeAnd1ByteLength ->
  socketReadOpen_body (w, sock) = Return r -> r = (w, sock).
Proof.
  unfold socketReadOpen_body, QSslSocket.read, unmask.
  destruct (nextAction w); [contradiction| | | |destruct (nextPayload w)];
    intros _; repeat case_if;
    try match goal with
        | |- context [unmask_loop ?k ?n ?d ?i] =>
            destruct (unmask_loop k n d i) as [data' index']
        end;
    try discriminate; intros [= <-]; reflexivity.
Qed.

Lemma socketReadOpen_body_state_later w sock :
  nextAction w <> ReadOpcodeAnd1ByteLength ->
  wsState (fst (outcome (socketReadOpen_body (w, sock)))) = wsState w.
Proof.
  intros Hn.
  destruct (socketReadOpen_body (w, sock)) as [st'|r] eqn:Hb; cbn [outcome].
  - apply socketReadOpen_body_Continue in Hb. tauto.
  - apply socketReadOpen_body_Return_later in Hb; [|exact Hn]. subst r.
    reflexivity.
Qed.

(** Where a round on an open connection leaves the connection state. *)
Lemma socketReadOpen_body_state w sock :
  wsState w = Open ->
  wsState (fst (outcome (socketReadOpen_body (w, sock))))
  = match nextAction w, QSslSocket.rx sock with
    | ReadOpcodeAnd1ByteLength, b0 :: b1 :: _ =>
        if opcode b0 =? 8 then Closed
        else if header_error b0 b1 then Error else Open
    | _, _ => Open
    end.
Proof.
  intros Ho. destruct (nextAction w) eqn:Hn.
  - destruct sock as [[|b0 [|b1 rest]] tx]; cbn [QSslSocket.rx].
    + rewrite socketReadOpen_body_blocked; [exact Ho|].
      unfold needed. rewrite Hn. cbn. lia.
    + rewrite socketReadOpen_body_blocked; [exact Ho|].
      unfold needed. rewrite Hn. cbn. lia.
    + rewrite socketReadOpen_body_header by exact Hn. cbn zeta.
      unfold header_error, valid_opcode, mask_bit.
      destruct (Z.leb_spec (opcode b0) 2) as [H2|H2].
      { rewrite header_length_state. cbn [wsState set_nextPayload orb negb].
        destruct (Z.eqb_spec (opcode b0) 8); [lia|]. cbn [negb andb].
        destruct (Z.land (to_Z b1) 128 =? 0); cbn [negb]; auto. }
      destruct (Z.eqb_spec (opcode b0) 8) as [H8|H8]; [reflexivity|].
      destruct (Z.eqb_spec (opcode b0) 9) as [H9|H9].
      { rewrite header_length_state. cbn [wsState set_nextPayload orb negb andb].
        destruct (Z.land (to_Z b1) 128 =? 0); cbn [negb]; auto. }
      destruct (Z.eqb_spec (opcode b0) 10) as [H10|H10].
      { rewrite header_length_state.
        cbn [wsState set_nextPayload orb negb andb].
        destruct (Z.land (to_Z b1) 128 =? 0); cbn [negb]; auto. }
      reflexivity.
  - rewrite socketReadOpen_body_state_later; [exact Ho|congruence].
  - rewrite socketReadOpen_body_state_later; [exact Ho|congruence].
  - rewrite socketReadOpen_body_state_later; [exact Ho|congruence].
  - rewrite socketReadOpen_body_state_later; [exact Ho|congruence].
Qed.

Lemma header_length_unmasked w sock b1 :
  mask_bit b1 = false ->
  header_length w sock (to_Z b1) = Return (set_wsState Error w, sock).
Proof.
  unfold mask_bit, header_length. intros H. rewrite H. reflexivity.
Qed.

Lemma socketReadOpen_body_unmasked w b0 b1 rest tx :
  nextAction w = ReadOpcodeAnd1ByteLength ->
  opcode b0 <> 8 -> mask_bit b1 = false ->
  exists w'',
    socketReadOpen_body (w, QSslSocket.mk (b0 :: b1 :: rest) tx)
    = Return (w'', QSslSocket.mk rest tx)
    /\ wsState w'' = Error
    /\ buffers w'' = buffers w
    /\ bytesInBuffers w'' = bytesInBuffers w
    /\ buffersFirstConsumed w'' = buffersFirstConsumed w.
Proof.
  intros Hn H8 Hm. rewrite socketReadOpen_body_header by exact Hn. cbn zeta.
  destruct (Z.eqb_spec (opcode b0) 8); [contradiction|].
  repeat case_if; rewrite ?header_length_unmasked by exact Hm;
    eexists; (split; [reflexivity|]); repeat split.
Qed.

(** C2, as the code has it.  On an open connection a round of the decoder
    leaves the state Error precisely when it decodes a frame header whose
    opcode is invalid or whose opcode is not Close and whose mask bit is
    clear.  And when the decoder, in any round of an invocation, decodes the
    header of a frame other than Close with the mask bit clear, the
    invocation ends in Error with the queue of decoded chunks, its total
    and its offset as they were, nothing written, and no later invocation
    changes anything. *)
Theorem error_precisely :
  (forall (w : WebSocket) (sock : QSslSocket),
      wsState w = Open ->
      wsState (fst (outcome (socketReadOpen_body (w, sock)))) = Error
      <-> nextAction w = ReadOpcodeAnd1ByteLength
          /\ exists b0 b1 rest,
               QSslSocket.rx sock = b0 :: b1 :: rest
               /\ header_error b0 b1 = true)
  /\ (forall (w w' : WebSocket) (sock : QSslSocket) (b0 b1 : byte)
             (rest tx : list byte) (chunks : list (list byte)),
         reaches w sock (w', QSslSocket.mk (b0 :: b1 :: rest) tx) ->
         nextAction w' = ReadOpcodeAnd1ByteLength ->
         opcode b0 <> 8 -> mask_bit b1 = false ->
         exists w'',
           socketRead w sock = Some (w'', QSslSocket.mk rest tx)
           /\ wsState w'' = Error
           /\ buffers w'' = buffers w'
           /\ bytesInBuffers w'' = bytesInBuffers w'
           /\ buffersFirstConsumed w'' = buffersFirstConsumed w'
           /\ feed_all (w'', QSslSocket.mk rest tx) chunks
              = Some (w'', QSslSocket.mk (rest ++ concat chunks) tx)).
Proof.
  split.
  - intros w sock Ho. rewrite socketReadOpen_body_state by exact Ho. split.
    + destruct (nextAction w); try discriminate.
      destruct (QSslSocket.rx sock) as [|b0 [|b1 rest]]; try discriminate.
      destruct (opcode b0 =? 8); [discriminate|].
      destruct (header_error b0 b1) eqn:He; [|discriminate].
      intros _. split; [reflexivity|]. exists b0, b1, rest. auto.
    + intros (-> & b0 & b1 & rest & -> & He).
      unfold header_error, valid_opcode in *.
      destruct (Z.eqb_spec (opcode b0) 8) as [E|E].
      * rewrite E in He. cbn in He. discriminate.
      * fold (valid_opcode (opcode b0)) in He.
        unfold header_error, valid_opcode. rewrite He. reflexivity.
  - intros w w' sock b0 b1 rest tx chunks Hreach Hn H8 Hm.
    destruct (@socketReadOpen_body_unmasked w' b0 b1 rest tx Hn H8 Hm)
      as (w'' & Hb & He & Hbuf & Hbytes & Hoff).
    exists w''. repeat (split; [assumption|]). split.
    + eapply socketRead_reaches; eauto.
    + repeat (split; [assumption|]). apply feed_all_ended. right. exact He.
Qed.

Lemma error_precisely_witness :
  wsState opened = Open
  /\ (wsState (fst (outcome (socketReadOpen_body
                               (opened, QSslSocket.mk [x83; x85] []))))
      = Error
      <-> nextAction opened = ReadOpcodeAnd1ByteLength
          /\ exists b0 b1 rest,
               QSslSocket.rx (QSslSocket.mk [x83; x85] []) = b0 :: b1 :: rest
               /\ header_error b0 b1 = true)
  /\ reaches opened (QSslSocket.mk (hello_frame ++ [x81; x05; x48]) [])
       (after_hello, QSslSocket.mk [x81; x05; x48] [])
  /\ nextAction after_hello = ReadOpcodeAnd1ByteLength
  /\ opcode x81 <> 8 /\ mask_bit x05 = false
  /\ exists w'',
       socketRead opened
         (QSslSocket.mk (hello_frame ++ [x81; x05; x48]) [])
       = Some (w'', QSslSocket.mk [x48] [])
       /\ wsState w'' = Error
       /\ buffers w'' = buffers after_hello
       /\ bytesInBuffers w'' = bytesInBuffers after_hello
       /\ buffersFirstConsumed w'' = buffersFirstConsumed after_hello
       /\ feed_all (w'', QSslSocket.mk [x48] []) [[x65]; [x6c]]
          = Some (w'', QSslSocket.mk ([x48] ++ concat [[x65]; [x6c]]) []).
Proof.
  destruct error_precisely as [HA HB].
  assert (Hr : reaches opened
                 (QSslSocket.mk (hello_frame ++ [x81; x05; x48]) [])
                 (after_hello, QSslSocket.mk [x81; x05; x48] []))
    by (apply reaches_open; [reflexivity|unfold after_hello; go_round]).
  assert (H8 : opcode x81 <> 8) by (vm_compute; discriminate).
  split; [reflexivity|].
  split; [exact (HA opened (QSslSocket.mk [x83; x85] []) eq_refl)|].
  split; [exact Hr|]. split; [reflexivity|]. split; [exact H8|].
  split; [reflexivity|].
  exact (HB opened after_hello _ x81 x05 [x48] [] [[x65]; [x6c]]
           Hr eq_refl H8 eq_refl).
Defined.

(** C2 as stated fails for a Close frame: with its mask bit clear the
    frame is answered and the connection ends Closed, not in Error. *)
Lemma close_frame_unmasked_not_error :
  opcode x88 = 8 /\ mask_bit x00 = false
  /\ feed (opened, idle) [x88; x00]
     = Some (set_wsState Closed opened, QSslSocket.mk [] [x88; x00])
  /\ wsState (set_wsState Closed opened) <> Error.
Proof.
  split; [reflexivity|]. split; [reflexivity|].
  split; [vm_compute; reflexivity|]. discriminate.
Qed.

(** ** The frame decoder: the rounds on a frame *)

Lemma firstn_exact (hd rest : list byte) n :
  n = Z.of_nat (length hd) -> firstn (Z.to_nat n) (hd ++ rest) = hd.
Proof.
  intros ->. rewrite Nat2Z.id, firstn_app, firstn_all, Nat.sub_diag.
  cbn [firstn]. apply app_nil_r.
Qed.

Lemma skipn_exact (hd rest : list byte) n :
  n = Z.of_nat (length hd) -> skipn (Z.to_nat n) (hd ++ rest) = rest.
Proof.
  intros ->. rewrite Nat2Z.id, skipn_app, skipn_all, Nat.sub_diag.
  reflexivity.
Qed.

Lemma socketReadOpen_body_length2 w ext rest tx :
  nextAction w = Read2ByteLength -> length ext = 2%nat ->
  socketReadOpen_body (w, QSslSocket.mk (ext ++ rest) tx)
  = Continue (set_nextAction ReadMask (set_nextLength (qFromBigEndian ext) w),
              QSslSocket.mk rest tx).
Proof.
  intros Hn Hl. unfold socketReadOpen_body. rewrite Hn.
  unfold QSslSocket.bytesAvailable, QSslSocket.read.
  cbn [QSslSocket.rx QSslSocket.tx].
  rewrite firstn_exact, skipn_exact by lia.
  destruct (Z.ltb_spec (Z.of_nat (length (ext ++ rest))) 2) as [H|H];
    [rewrite length_app in H; lia|reflexivity].
Qed.

Lemma socketReadOpen_body_length8 w ext rest tx :
  nextAction w = Read8ByteLength -> length ext = 8%nat ->
  socketReadOpen_body (w, QSslSocket.mk (ext ++ rest) tx)
  = Continue (set_nextAction ReadMask (set_nextLength (qFromBigEndian ext) w),
              QSslSocket.mk rest tx).
Proof.
  intros Hn Hl. unfold socketReadOpen_body. rewrite Hn.
  unfold QSslSocket.bytesAvailable, QSslSocket.read.
  cbn [QSslSocket.rx QSslSocket.tx].
  rewrite firstn_exact, skipn_exact by lia.
  destruct (Z.ltb_spec (Z.of_nat (length (ext ++ rest))) 8) as [H|H];
    [rewrite length_app in H; lia|reflexivity].
Qed.

Lemma socketReadOpen_body_mask w key rest tx :
  nextAction w = ReadMask -> length key = 4%nat ->
  socketReadOpen_body (w, QSslSocket.mk (key ++ rest) tx)
  = Continue (set_nextAction ReadPayload (set_maskIndex 0 (set_mask key w)),
              QSslSocket.mk rest tx).
Proof.
  intros Hn Hl. unfold socketReadOpen_body. rewrite Hn.
  unfold QSslSocket.bytesAvailable, QSslSocket.read.
  cbn [QSslSocket.rx QSslSocket.tx].
  rewrite firstn_exact, skipn_exact by lia.
  destruct (Z.ltb_spec (Z.of_nat (length (key ++ rest))) 4) as [H|H];
    [rewrite length_app in H; lia|reflexivity].
Qed.

(** The round that has the whole payload of a ping: it unmasks the
    payload and writes the pong header, the length header and the
    unmasked payload. *)
Lemma socketReadOpen_body_ping w payload rest tx :
  nextAction w = ReadPayload -> nextPayload w = Ping ->
  nextLength w = qlength payload ->
  let um := unmask_loop (mask w) (length payload) payload (maskIndex w) in
  socketReadOpen_body (w, QSslSocket.mk (payload ++ rest) tx)
  = Continue
      (set_nextAction ReadOpcodeAnd1ByteLength (set_maskIndex (snd um) w),
       QSslSocket.write
         (writeLength (QSslSocket.write (QSslSocket.mk rest tx) [pongHeader])
            (qlength payload))
         (fst um)).
Proof.
  intros Hn Hp Hl um. unfold socketReadOpen_body. rewrite Hn, Hp.
  unfold QSslSocket.bytesAvailable, QSslSocket.read, unmask.
  cbn [QSslSocket.rx QSslSocket.tx]. unfold qlength in Hl.
  rewrite firstn_exact, skipn_exact by lia.
  destruct (Z.leb_spec (nextLength w) (Z.of_nat (length (payload ++ rest))))
    as [H|H]; [|rewrite length_app in H; lia].
  rewrite Hl, Nat2Z.id. fold um.
  pose proof (unmask_loop_length (mask w) (length payload) payload
                (maskIndex w)) as Hlen.
  fold um in Hlen. destruct um as [data' index']. cbn [fst snd] in *.
  unfold qlength. rewrite Hlen. reflexivity.
Qed.

Lemma header_length_masked w sock b1 :
  mask_bit b1 = true ->
  header_length w sock (to_Z b1)
  = if length_code b1 <=? 125 then
      Continue (set_nextAction ReadMask (set_nextLength (length_code b1) w),
                sock)
    else if length_code b1 =? 126 then
      Continue (set_nextAction Read2ByteLength w, sock)
    else Continue (set_nextAction Read8ByteLength w, sock).
Proof.
  unfold mask_bit, header_length, length_code. intros H.
  pose proof (land_127 (to_Z b1)).
  destruct (Z.land (to_Z b1) 128 =? 0); [discriminate|]. cbn [negb].
  repeat case_if; to_lia; try reflexivity. lia.
Qed.

(** The rounds from the header of a masked frame to its payload. *)
Lemma frame_prologue w b0 b1 ext key rest tx :
  nextAction w = ReadOpcodeAnd1ByteLength ->
  valid_opcode (opcode b0) = true -> opcode b0 <> 8 ->
  mask_bit b1 = true ->
  length ext = extension_size b1 -> length key = 4%nat ->
  steps socketReadOpen_body
    (w, QSslSocket.mk (b0 :: b1 :: ext ++ key ++ rest) tx)
    (at_payload w b0 b1 ext key, QSslSocket.mk rest tx).
Proof.
  intros Hn Hv H8 Hm He Hk.
  assert (Hhead : socketReadOpen_body
                    (w, QSslSocket.mk (b0 :: b1 :: ext ++ key ++ rest) tx)
                  = header_length (set_nextPayload (payload_kind b0) w)
                      (QSslSocket.mk (ext ++ key ++ rest) tx) (to_Z b1)).
  { rewrite socketReadOpen_body_header by exact Hn. cbn zeta.
    unfold payload_kind, valid_opcode in *.
    destruct (opcode b0 <=? 2); [reflexivity|].
    destruct (Z.eqb_spec (opcode b0) 8); [contradiction|].
    destruct (opcode b0 =? 9); [reflexivity|].
    destruct (opcode b0 =? 10); [reflexivity|discriminate]. }
  rewrite header_length_masked in Hhead by exact Hm.
  unfold extension_size in He. unfold at_payload, frame_length.
  destruct (length_code b1 <=? 125).
  - destruct ext; [|discriminate]. cbn [app] in *.
    eapply steps_step; [exact Hhead|].
    eapply steps_step; [apply socketReadOpen_body_mask; [reflexivity|exact Hk]|].
    apply steps_refl.
  - destruct (length_code b1 =? 126).
    + eapply steps_step; [exact Hhead|].
      eapply steps_step;
        [apply socketReadOpen_body_length2; [reflexivity|exact He]|].
      eapply steps_step;
        [apply socketReadOpen_body_mask; [reflexivity|exact Hk]|].
      apply steps_refl.
    + eapply steps_step; [exact Hhead|].
      eapply steps_step;
        [apply socketReadOpen_body_length8; [reflexivity|exact He]|].
      eapply steps_step;
        [apply socketReadOpen_body_mask; [reflexivity|exact Hk]|].
      apply steps_refl.
Qed.

(** A whole ping frame: the decoder writes one pong, made of the pong
    header, the length header of [writeLength] and the unmasked payload,
    and is back at a frame boundary. *)
Lemma ping_pong w b0 b1 ext key payload rest tx :
  nextAction w = ReadOpcodeAnd1ByteLength ->
  opcode b0 = 9 -> mask_bit b1 = true ->
  length ext = extension_size b1 -> length key = 4%nat ->
  qlength payload = frame_length b1 ext ->
  let um := unmask_loop key (length payload) payload 0 in
  steps socketReadOpen_body
    (w, QSslSocket.mk (b0 :: b1 :: ext ++ key ++ payload ++ rest) tx)
    (set_nextAction ReadOpcodeAnd1ByteLength
       (set_maskIndex (snd um) (at_payload w b0 b1 ext key)),
     QSslSocket.mk rest
       (QSslSocket.tx
          (writeLength (QSslSocket.mk rest (tx ++ [x8a])) (qlength payload))
        ++ fst um)).
Proof.
  intros Hn H9 Hm He Hk Hl um.
  eapply steps_trans.
  - apply frame_prologue; try assumption.
    + unfold valid_opcode. rewrite H9. reflexivity.
    + rewrite H9. discriminate.
  - eapply steps_step; [|apply steps_refl].
    rewrite socketReadOpen_body_ping.
    + cbn [mask maskIndex at_payload]. fold um.
      unfold QSslSocket.write at 1. cbn [QSslSocket.rx QSslSocket.tx].
      rewrite writeLength_rx. reflexivity.
    + reflexivity.
    + unfold at_payload, payload_kind. cbn [nextPayload]. rewrite H9.
      reflexivity.
    + cbn [nextLength at_payload]. symmetry. exact Hl.
Qed.

(** C6.  For a ping frame with a payload of 65536 octets the decoder
    writes the pong header 0x8A, then the length header 7E 00 00, then the
    unmasked payload, where the minimal-size rule asks for the length
    header 7F 00 00 00 00 00 01 00 00. *)
Theorem ping_65536_pong :
  (exists w',
      feed (opened, idle) ping_65536
      = Some (w', QSslSocket.mk []
                    ([x8a] ++ [x7e; x00; x00] ++ ping_65536_unmasked)))
  /\ length ping_65536_unmasked = Z.to_nat 65536
  /\ minimal_length_header 65536
     = [x7f; x00; x00; x00; x00; x00; x01; x00; x00].
Proof.
  assert (Hlen : qlength ping_65536_payload = 65536).
  { unfold qlength, ping_65536_payload.
    rewrite repeat_length, Z2Nat.id by lia. reflexivity. }
  split; [|split; [|reflexivity]].
  - pose proof (@ping_pong opened x89 xff (qToBigEndian 8 65536)
                  ping_65536_key ping_65536_payload [] []
                  eq_refl eq_refl eq_refl eq_refl eq_refl Hlen) as Hsteps.
    cbn zeta in Hsteps. rewrite Hlen in Hsteps.
    assert (Htx : QSslSocket.tx
                    (writeLength (QSslSocket.mk [] ([] ++ [x8a])) 65536)
                  = [x8a; x7e; x00; x00]) by reflexivity.
    rewrite Htx in Hsteps. cbn [app] in Hsteps.
    unfold ping_65536_unmasked. cbn [app].
    eexists. unfold feed. cbn [fst snd].
    eapply socketRead_reaches;
      [apply reaches_open; [reflexivity|exact Hsteps]|].
    apply socketReadOpen_body_blocked. reflexivity.
  - unfold ping_65536_unmasked. rewrite unmask_loop_length.
    unfold ping_65536_payload. apply repeat_length.
Qed.

(** ** The queue of decoded chunks: [read] *)

Lemma qint64_cancel (m : Z) : qint64 (m - quint64 m) = 0.
Proof.
  unfold qint64, quint64.
  replace (m - m mod 2 ^ 64 + 2 ^ 63)
    with (2 ^ 63 + (m / 2 ^ 64) * 2 ^ 64)
    by (pose proof (Z.div_mod m (2 ^ 64) ltac:(lia)); lia).
  rewrite Z.mod_add by lia. reflexivity.
Qed.

Lemma quint64_cancel (len c : Z) :
  quint64 (len - quint64 (c + quint64 (len - c))) = 0.
Proof.
  unfold quint64.
  rewrite Zminus_mod_idemp_r.
  replace (len - (c + (len - c) mod 2 ^ 64))
    with ((len - c) - (len - c) mod 2 ^ 64) by lia.
  rewrite Zminus_mod_idemp_r, Z.sub_diag. reflexivity.
Qed.

Lemma read_body_decreases st st' :
  read_body st = Continue st' -> (read_measure st' < read_measure st)%nat.
Proof.
  destruct st as [w maxLen len buf]. unfold read_body, read_measure.
  cbn [rl_ws rl_maxLen rl_len rl_buf].
  destruct (buffers w) as [|first others] eqn:Hb; [discriminate|].
  destruct (Z.eqb_spec (quint64 (qlength first - buffersFirstConsumed w)) 0)
    as [Hz|Hz].
  - intros [= <-]. cbn [rl_ws rl_maxLen buffers set_buffersFirstConsumed
      set_buffers buffersFirstConsumed].
    destruct others as [|second others']; [lia|].
    cbn [length]. repeat case_if; lia.
  - destruct (Z.eqb_spec maxLen 0) as [Hm|Hm]; [discriminate|].
    intros [= <-]. cbn [rl_ws rl_maxLen buffers set_buffersFirstConsumed
      set_bytesInBuffers buffersFirstConsumed].
    rewrite Hb.
    destruct (quint64 (qlength first - buffersFirstConsumed w)
              <? quint64 maxLen).
    + rewrite quint64_cancel. cbn [Z.eqb]. lia.
    + rewrite qint64_cancel. cbn [Z.eqb]. case_if; lia.
Qed.

(** [read] always returns. *)
Lemma read_returns w maxLen : exists r, read w maxLen = Some r.
Proof.
  unfold read.
  destruct (@while_loop_returns _ read_body read_measure read_body_decreases
              (read_fuel w) (mk_read_locals w maxLen 0 [])) as [r ->].
  - unfold read_measure, read_fuel. cbn [rl_ws rl_maxLen].
    destruct (buffers w); cbn [length]; repeat case_if; lia.
  - eauto.
Qed.

Lemma read_runs w maxLen st :
  runs read_body (mk_read_locals w maxLen 0 []) st ->
  read w maxLen = Some (rl_len st, rl_buf st, rl_ws st).
Proof.
  intros Hr. unfold read.
  rewrite (@runs_while_loop _ read_body read_measure read_body_decreases
             (read_fuel w) _ st); [reflexivity| |exact Hr].
  unfold read_measure, read_fuel. cbn [rl_ws rl_maxLen].
  destruct (buffers w); cbn [length]; repeat case_if; lia.
Qed.

Lemma skipn_app_le (l1 l2 : list byte) n :
  (n <= length l1)%nat -> skipn n (l1 ++ l2) = skipn n l1 ++ l2.
Proof.
  intros H. rewrite skipn_app. replace (n - length l1)%nat with O by lia.
  reflexivity.
Qed.

Lemma firstn_app_le (l1 l2 : list byte) n :
  (n <= length l1)%nat -> firstn n (l1 ++ l2) = firstn n l1.
Proof.
  intros H. rewrite firstn_app. replace (n - length l1)%nat with O by lia.
  cbn [firstn]. apply app_nil_r.
Qed.

Lemma firstn_add (l : list byte) a b :
  firstn (a + b) l = firstn a l ++ firstn b (skipn a l).
Proof.
  revert l; induction a as [|a IH]; intros l; [reflexivity|].
  destruct l as [|x l]; [cbn; rewrite firstn_nil; reflexivity|].
  cbn [Nat.add firstn skipn app]. rewrite IH. reflexivity.
Qed.

Lemma qint64_small z : 0 <= z < 2 ^ 63 -> qint64 z = z.
Proof.
  intros H. unfold qint64. rewrite Z.mod_small; lia.
Qed.

Lemma quint64_small z : 0 <= z < 2 ^ 64 -> quint64 z = z.
Proof. intros H. unfold quint64. apply Z.mod_small. exact H. Qed.

(** One round of [read] on a well-formed queue: it returns when nothing
    more can be taken, and otherwise takes [k] octets from the front of
    the pending octets. *)
Lemma read_body_step st :
  buffer_ok (rl_ws st) ->
  0 <= rl_maxLen st -> 0 <= rl_len st -> rl_len st + rl_maxLen st < 2 ^ 63 ->
  match read_body st with
  | Return r =>
      r = st /\ firstn (Z.to_nat (rl_maxLen st)) (pending (rl_ws st)) = []
  | Continue st' =>
      exists k : nat,
        Z.of_nat k <= rl_maxLen st
        /\ (k <= length (pending (rl_ws st)))%nat
        /\ rl_maxLen st' = rl_maxLen st - Z.of_nat k
        /\ rl_len st' = rl_len st + Z.of_nat k
        /\ rl_buf st' = rl_buf st ++ firstn k (pending (rl_ws st))
        /\ pending (rl_ws st') = skipn k (pending (rl_ws st))
        /\ bytesInBuffers (rl_ws st')
           = bytesInBuffers (rl_ws st) - Z.of_nat k
        /\ wsState (rl_ws st') = wsState (rl_ws st)
        /\ buffer_ok (rl_ws st')
  end.
Proof.
  destruct st as [w maxLen len buf]. cbn [rl_ws rl_maxLen rl_len rl_buf].
  unfold buffer_ok, pending, read_body, qlength.
  cbn [rl_ws rl_maxLen rl_len rl_buf].
  intros (Hoff & Hbytes & Hlt) Hm Hl Hsum.
  destruct (buffers w) as [|first others] eqn:Hb.
  { split; [reflexivity|]. cbn [concat]. rewrite skipn_nil, firstn_nil.
    reflexivity. }
  set (c := buffersFirstConsumed w) in *.
  cbn [concat] in *.
  rewrite skipn_app_le in * by lia.
  rewrite length_app in Hlt.
  rewrite quint64_small by lia.
  destruct (Z.eqb_spec (Z.of_nat (length first) - c) 0) as [Hz|Hz].
  - (* the head chunk is used up: it is removed *)
    exists O. cbn [rl_ws rl_maxLen rl_len rl_buf buffers bytesInBuffers
      wsState buffersFirstConsumed set_buffersFirstConsumed set_buffers].
    rewrite skipn_all2 by lia. cbn [app firstn skipn Z.to_nat].
    rewrite skipn_all2 in Hbytes by lia. cbn [app] in Hbytes.
    rewrite app_nil_r, Z.sub_0_r, Z.add_0_r.
    repeat split; try lia; try assumption.
    destruct others as [|second others']; [reflexivity|lia].
  - destruct (Z.eqb_spec maxLen 0) as [Hm0|Hm0].
    { split; [reflexivity|]. rewrite Hm0. reflexivity. }
    (* octets are copied out of the head chunk *)
    rewrite (@quint64_small maxLen) by lia.
    set (readStep := if Z.of_nat (length first) - c <? maxLen
                     then Z.of_nat (length first) - c else maxLen).
    assert (Hrs : 0 < readStep <= maxLen
                  /\ readStep <= Z.of_nat (length first) - c)
      by (subst readStep; case_if; to_lia; lia).
    exists (Z.to_nat readStep).
    cbn [rl_ws rl_maxLen rl_len rl_buf buffers bytesInBuffers wsState
      buffersFirstConsumed set_buffersFirstConsumed set_bytesInBuffers].
    rewrite Hb. cbn [concat].
    rewrite (@quint64_small (c + readStep)) by lia.
    rewrite skipn_app_le by lia.
    rewrite !qint64_small by lia.
    rewrite Z2Nat.id by lia.
    rewrite firstn_app_le by (rewrite length_skipn; lia).
    replace (Z.to_nat (c + readStep))
      with (Z.to_nat readStep + Z.to_nat c)%nat by lia.
    rewrite <- skipn_skipn.
    rewrite (@skipn_app_le _ (concat others) (Z.to_nat readStep))
      by (rewrite length_skipn; lia).
    rewrite length_app.
    assert (Hq : quint64 (bytesInBuffers w - readStep)
                 = bytesInBuffers w - readStep).
    { apply quint64_small. rewrite Hbytes, length_app, length_skipn. lia. }
    rewrite Hq.
    repeat split; try lia.
    + rewrite length_skipn. lia.
    + rewrite Hbytes, !length_app, !length_skipn. lia.
    + rewrite length_app. lia.
Qed.

Lemma firstn_nil_skipn (l : list byte) n : firstn n l = [] -> skipn n l = l.
Proof.
  destruct n, l; try reflexivity. discriminate.
Qed.

Lemma read_body_runs st r :
  runs read_body st r ->
  buffer_ok (rl_ws st) ->
  0 <= rl_maxLen st -> 0 <= rl_len st -> rl_len st + rl_maxLen st < 2 ^ 63 ->
  let taken := firstn (Z.to_nat (rl_maxLen st)) (pending (rl_ws st)) in
  rl_buf r = rl_buf st ++ taken
  /\ rl_len r = rl_len st + qlength taken
  /\ pending (rl_ws r) = skipn (Z.to_nat (rl_maxLen st)) (pending (rl_ws st))
  /\ bytesInBuffers (rl_ws r) = bytesInBuffers (rl_ws st) - qlength taken
  /\ wsState (rl_ws r) = wsState (rl_ws st)
  /\ buffer_ok (rl_ws r).
Proof.
  induction 1 as [st r Hb | st st' r Hb _ IH]; intros Hok Hm Hl Hsum;
    pose proof (read_body_step st Hok Hm Hl Hsum) as Hstep;
    rewrite Hb in Hstep; cbn zeta.
  - destruct Hstep as [-> Hnil]. rewrite Hnil, (firstn_nil_skipn _ _ Hnil).
    unfold qlength. cbn [length]. rewrite app_nil_r, Z.add_0_r, Z.sub_0_r.
    split; [reflexivity|]. split; [reflexivity|]. split; [reflexivity|].
    split; [reflexivity|]. split; [reflexivity|exact Hok].
  - destruct Hstep
      as (k & Hk & Hkp & Hm' & Hl' & Hbuf & Hpend & Hbytes & Hst & Hok').
    specialize (IH Hok' ltac:(lia) ltac:(lia) ltac:(lia)). cbn zeta in IH.
    destruct IH as (IHb & IHl & IHp & IHn & IHs & IHok).
    rewrite Hm', Hpend in *.
    replace (Z.to_nat (rl_maxLen st))
      with (k + Z.to_nat (rl_maxLen st - Z.of_nat k))%nat by lia.
    rewrite firstn_add, (Nat.add_comm k), <- skipn_skipn.
    rewrite IHb, IHl, IHp, IHn, IHs, Hbuf, Hl', Hbytes, Hst.
    unfold qlength.
    rewrite length_app, (length_firstn k), Nat.min_l, <- app_assoc
      by exact Hkp.
    split; [reflexivity|]. split; [lia|]. split; [reflexivity|].
    split; [lia|]. split; [reflexivity|exact IHok].
Qed.

(** What a call of [read] does on a well-formed queue. *)
Lemma read_spec w maxLen :
  buffer_ok w -> 0 <= maxLen < 2 ^ 63 ->
  let taken := firstn (Z.to_nat maxLen) (pending w) in
  exists w',
    read w maxLen = Some (qlength taken, taken, w')
    /\ pending w' = skipn (Z.to_nat maxLen) (pending w)
    /\ bytesInBuffers w' = bytesInBuffers w - qlength taken
    /\ wsState w' = wsState w
    /\ buffer_ok w'.
Proof.
  intros Hok Hm taken.
  destruct (read_returns w maxLen) as [r Hr]. pose proof Hr as Hr'.
  unfold read in Hr'.
  destruct (while_loop read_body (read_fuel w) (mk_read_locals w maxLen 0 []))
    as [st|] eqn:Hw; [|discriminate].
  apply while_loop_runs in Hw.
  destruct (read_body_runs Hw) as (Hb & Hl & Hp & Hn & Hs & Hok');
    cbn [rl_ws rl_maxLen rl_len rl_buf] in *; try assumption; try lia.
  exists (rl_ws st). rewrite (read_runs Hw).
  cbn [app] in Hb. fold taken in Hb, Hl, Hn. rewrite Hb, Hl.
  split; [reflexivity|]. split; [exact Hp|]. split; [exact Hn|].
  split; [exact Hs|exact Hok'].
Qed.

Lemma firstn_min_length (l : list byte) n :
  firstn (Nat.min n (length l)) l = firstn n l.
Proof.
  destruct (Nat.le_ge_cases n (length l)) as [H|H].
  - rewrite Nat.min_l by exact H. reflexivity.
  - rewrite Nat.min_r, firstn_all, firstn_all2 by exact H. reflexivity.
Qed.

Lemma skipn_min_length (l : list byte) n :
  skipn (Nat.min n (length l)) l = skipn n l.
Proof.
  destruct (Nat.le_ge_cases n (length l)) as [H|H].
  - rewrite Nat.min_l by exact H. reflexivity.
  - rewrite Nat.min_r, skipn_all, skipn_all2 by exact H. reflexivity.
Qed.

Lemma read_into_spec w maxLen :
  buffer_ok w -> 0 <= maxLen < 2 ^ 63 ->
  let taken := firstn (Z.to_nat maxLen) (pending w) in
  exists w',
    read_into w maxLen = Some (taken, w')
    /\ pending w' = skipn (Z.to_nat maxLen) (pending w)
    /\ bytesInBuffers w' = bytesInBuffers w - qlength taken
    /\ wsState w' = wsState w
    /\ buffer_ok w'.
Proof.
  intros Hok Hm taken.
  destruct (read_spec Hok Hm) as (w' & Hr & Hrest). fold taken in Hr, Hrest.
  exists w'. unfold read_into. rewrite Hr. split; [reflexivity|exact Hrest].
Qed.

(** The second overload returns the same octets: on a well-formed queue
    the array has the size of what the first overload stores into it. *)
Lemma read_array_spec w maxLen :
  buffer_ok w -> 0 <= maxLen < 2 ^ 63 ->
  let taken := firstn (Z.to_nat maxLen) (pending w) in
  exists w',
    read_array w maxLen = Some (taken, w')
    /\ pending w' = skipn (Z.to_nat maxLen) (pending w)
    /\ bytesInBuffers w' = bytesInBuffers w - qlength taken
    /\ wsState w' = wsState w
    /\ buffer_ok w'.
Proof.
  intros Hok Hm taken. pose proof Hok as (_ & Hbytes & Hlt).
  unfold read_array.
  rewrite (@quint64_small maxLen) by lia.
  set (target := if maxLen <? bytesInBuffers w then maxLen
                 else bytesInBuffers w).
  assert (Ht : Z.to_nat target
               = Nat.min (Z.to_nat maxLen) (length (pending w))).
  { subst target. unfold qlength in Hbytes. case_if; to_lia; lia. }
  assert (Htr : 0 <= target < 2 ^ 63).
  { subst target. unfold qlength in Hbytes. case_if; to_lia; lia. }
  rewrite qint64_small by exact Htr.
  destruct (read_spec Hok Htr) as (w' & Hr & Hp & Hn & Hs & Hok').
  cbn zeta in Hr, Hn. rewrite Ht, firstn_min_length in Hr, Hn.
  rewrite Ht, skipn_min_length in Hp. fold taken in Hr, Hn.
  rewrite Hr. exists w'.
  assert (Hpad : skipn (length taken) (repeat x00 (Z.to_nat target)) = []).
  { apply skipn_all2. rewrite repeat_length, Ht. subst taken.
    rewrite length_firstn. lia. }
  rewrite Hpad, app_nil_r.
  split; [reflexivity|]. split; [exact Hp|]. split; [exact Hn|].
  split; [exact Hs|exact Hok'].
Qed.

Lemma total_nonneg maxLens :
  Forall (fun m => 0 <= m) maxLens -> 0 <= total maxLens.
Proof.
  induction 1 as [|m rest Hm _ IH]; unfold total in *; cbn [fold_right];
    lia.
Qed.

Section ReadMany.

Variable reader : WebSocket -> Z -> option (QByteArray * WebSocket).

Hypothesis reader_spec :
  forall w maxLen,
    buffer_ok w -> 0 <= maxLen < 2 ^ 63 ->
    exists w',
      reader w maxLen = Some (firstn (Z.to_nat maxLen) (pending w), w')
      /\ pending w' = skipn (Z.to_nat maxLen) (pending w)
      /\ bytesInBuffers w'
         = bytesInBuffers w
           - qlength (firstn (Z.to_nat maxLen) (pending w))
      /\ wsState w' = wsState w
      /\ buffer_ok w'.

(** Successive reads return, one after the other, what one read of the
    total returns. *)
Lemma read_many_spec maxLens : forall w,
  buffer_ok w -> Forall (fun m => 0 <= m) maxLens ->
  total maxLens < 2 ^ 63 ->
  exists w',
    read_many reader w maxLens
    = Some (firstn (Z.to_nat (total maxLens)) (pending w), w')
    /\ pending w' = skipn (Z.to_nat (total maxLens)) (pending w)
    /\ bytesInBuffers w'
       = bytesInBuffers w
         - qlength (firstn (Z.to_nat (total maxLens)) (pending w))
    /\ buffer_ok w'.
Proof.
  induction maxLens as [|m rest IH]; intros w Hok Hall Hsum.
  - exists w. cbn [read_many total fold_right Z.to_nat firstn skipn].
    unfold qlength. cbn [length]. rewrite Z.sub_0_r. auto.
  - inversion Hall as [|? ? Hm Hrest]; subst.
    pose proof (total_nonneg Hrest) as Htot.
    cbn [total fold_right] in Hsum. fold (total rest) in Hsum.
    assert (Hmr : 0 <= m < 2 ^ 63) by (cbn beta in Hm; lia).
    destruct (reader_spec Hok Hmr) as (w1 & Hr & Hp & Hn & _ & Hok1).
    destruct (IH w1 Hok1 Hrest ltac:(lia)) as (w2 & Hr2 & Hp2 & Hn2 & Hok2).
    exists w2. cbn [read_many total fold_right]. fold (total rest).
    rewrite Hr, Hr2, Hp, Hn2, Hn, Hp2, Hp.
    replace (Z.to_nat (m + total rest))
      with (Z.to_nat m + Z.to_nat (total rest))%nat by lia.
    rewrite firstn_add, (Nat.add_comm (Z.to_nat m)), skipn_skipn.
    unfold qlength. rewrite length_app.
    split; [reflexivity|]. split; [reflexivity|]. split; [lia|exact Hok2].
Qed.

End ReadMany.

(** C9.  On a well-formed queue and for maximum lengths that are not
    negative: a call of either overload of [read] returns without error
    the first [maxLen] pending octets, or all of them when fewer are
    pending, and lowers the total by the number of octets it returns; and
    successive reads with any maximum lengths [maxLens] return, one after
    the other, exactly the octets that one read of their sum returns, and
    leave the same pending octets and the same total behind. *)
Theorem read_concatenates :
  forall (w : WebSocket) (maxLen : Z) (maxLens : list Z),
    buffer_ok w ->
    0 <= maxLen < 2 ^ 63 ->
    Forall (fun m => 0 <= m) maxLens ->
    total maxLens < 2 ^ 63 ->
    (exists bytes w1 w2,
        read w maxLen = Some (qlength bytes, bytes, w1)
        /\ read_array w maxLen = Some (bytes, w2)
        /\ bytes = firstn (Z.to_nat maxLen) (pending w)
        /\ qlength bytes = Z.min maxLen (bytesInBuffers w)
        /\ bytesInBuffers w1 = bytesInBuffers w - qlength bytes
        /\ bytesInBuffers w2 = bytesInBuffers w - qlength bytes
        /\ buffer_ok w1 /\ buffer_ok w2)
    /\ (exists bytes w1 w2 w3,
           read_many read_into w maxLens = Some (bytes, w1)
           /\ read_many read_array w maxLens = Some (bytes, w2)
           /\ read_into w (total maxLens) = Some (bytes, w3)
           /\ pending w1 = pending w3 /\ pending w2 = pending w3
           /\ bytesInBuffers w1 = bytesInBuffers w3
           /\ bytesInBuffers w2 = bytesInBuffers w3).
Proof.
  intros w maxLen maxLens Hok Hm Hall Hsum. split.
  - destruct (read_spec Hok Hm) as (w1 & Hr1 & _ & Hn1 & _ & Hok1).
    destruct (read_array_spec Hok Hm) as (w2 & Hr2 & _ & Hn2 & _ & Hok2).
    cbn zeta in *.
    exists (firstn (Z.to_nat maxLen) (pending w)), w1, w2.
    repeat (split; [assumption || reflexivity|]).
    split; [|repeat (split; [assumption|]); assumption].
    destruct Hok as (_ & Hbytes & _). rewrite Hbytes. unfold qlength.
    rewrite length_firstn. lia.
  - pose proof (total_nonneg Hall) as Htot.
    destruct (read_many_spec read_into read_into_spec Hok Hall Hsum)
      as (w1 & Hr1 & Hp1 & Hn1 & _).
    destruct (read_many_spec read_array read_array_spec Hok Hall Hsum)
      as (w2 & Hr2 & Hp2 & Hn2 & _).
    destruct (@read_into_spec w (total maxLens) Hok ltac:(lia))
      as (w3 & Hr3 & Hp3 & Hn3 & _).
    cbn zeta in *.
    exists (firstn (Z.to_nat (total maxLens)) (pending w)), w1, w2, w3.
    repeat (split; [assumption || congruence|]). congruence.
Qed.

Lemma two_chunks_ok : buffer_ok two_chunks.
Proof.
  unfold buffer_ok, two_chunks, pending, qlength.
  cbn [buffers buffersFirstConsumed bytesInBuffers].
  split; [vm_compute; split; discriminate|].
  split; [reflexivity|reflexivity].
Defined.

Lemma read_concatenates_witness :
  buffer_ok two_chunks
  /\ 0 <= 4 < 2 ^ 63
  /\ Forall (fun m => 0 <= m) [1; 1; 0; 2; 5]
  /\ total [1; 1; 0; 2; 5] < 2 ^ 63
  /\ (exists bytes w1 w2,
         read two_chunks 4 = Some (qlength bytes, bytes, w1)
         /\ read_array two_chunks 4 = Some (bytes, w2)
         /\ bytes = firstn (Z.to_nat 4) (pending two_chunks)
         /\ qlength bytes = Z.min 4 (bytesInBuffers two_chunks)
         /\ bytesInBuffers w1 = bytesInBuffers two_chunks - qlength bytes
         /\ bytesInBuffers w2 = bytesInBuffers two_chunks - qlength bytes
         /\ buffer_ok w1 /\ buffer_ok w2)
  /\ (exists bytes w1 w2 w3,
         read_many read_into two_chunks [1; 1; 0; 2; 5] = Some (bytes, w1)
         /\ read_many read_array two_chunks [1; 1; 0; 2; 5]
            = Some (bytes, w2)
         /\ read_into two_chunks (total [1; 1; 0; 2; 5]) = Some (bytes, w3)
         /\ pending w1 = pending w3 /\ pending w2 = pending w3
         /\ bytesInBuffers w1 = bytesInBuffers w3
         /\ bytesInBuffers w2 = bytesInBuffers w3).
Proof.
  assert (H1 : 0 <= 4 < 2 ^ 63) by (split; [discriminate|reflexivity]).
  assert (H2 : Forall (fun m => 0 <= m) [1; 1; 0; 2; 5])
    by (repeat constructor; discriminate).
  assert (H3 : total [1; 1; 0; 2; 5] < 2 ^ 63) by reflexivity.
  split; [exact two_chunks_ok|]. split; [exact H1|]. split; [exact H2|].
  split; [exact H3|].
  exact (@read_concatenates two_chunks 4 [1; 1; 0; 2; 5]
           two_chunks_ok H1 H2 H3).
Defined.

(** ** The connection state *)

Lemma forward_refl a : forward a a = true.
Proof. destruct a; reflexivity. Qed.

Lemma forward_trans a b c :
  forward a b = true -> forward b c = true -> forward a c = true.
Proof. destruct a, b, c; cbn; congruence. Qed.

Lemma read_body_outcome_wsState st :
  wsState (rl_ws (outcome (read_body st))) = wsState (rl_ws st).
Proof.
  unfold read_body. destruct (buffers (rl_ws st)); [reflexivity|].
  repeat case_if; reflexivity.
Qed.

Lemma read_body_wsState st r :
  runs read_body st r -> wsState (rl_ws r) = wsState (rl_ws st).
Proof.
  induction 1 as [st r Hb | st st' r Hb _ IH];
    pose proof (read_body_outcome_wsState st) as Ho; rewrite Hb in Ho;
    cbn [outcome] in Ho; congruence.
Qed.

Lemma read_wsState w maxLen len bytes w' :
  read w maxLen = Some (len, bytes, w') -> wsState w' = wsState w.
Proof.
  unfold read.
  destruct (while_loop read_body (read_fuel w) (mk_read_locals w maxLen 0 []))
    as [st|] eqn:Hw; [|discriminate].
  intros [= <- <- <-]. apply while_loop_runs in Hw.
  apply read_body_wsState in Hw. exact Hw.
Qed.

Lemma read_array_wsState w maxLen bytes w' :
  read_array w maxLen = Some (bytes, w') -> wsState w' = wsState w.
Proof.
  unfold read_array. destruct (read w _) as [[[len stored] w1]|] eqn:Hr;
    [|discriminate].
  intros [= <- <-]. eapply read_wsState; eauto.
Qed.

Lemma read_array_returns w maxLen : exists r, read_array w maxLen = Some r.
Proof.
  unfold read_array.
  match goal with
  | |- context [read w ?m] =>
      destruct (read_returns w m) as [[[len stored] w'] ->]
  end.
  eauto.
Qed.

Lemma handshake_phase_forward w sock r :
  wsState w = Handshake ->
  handshake_phase w sock = Some r -> forward Handshake (wsState (fst r)) = true.
Proof.
  intros Hw. unfold handshake_phase.
  destruct (socketReadHandshake w sock) as [[w1 sock1]|] eqn:Hh;
    [|discriminate].
  apply socketReadHandshake_runs in Hh.
  destruct (socketReadHandshake_resume Hh Hw []) as (_ & _ & _ & Hst).
  cbn [fst] in Hst.
  destruct Hst as [Hw1|[Hw1|Hw1]]; rewrite Hw1.
  - intros [= <-]. cbn [fst]. rewrite Hw1. reflexivity.
  - intros Hr. apply socketReadOpen_runs in Hr.
    destruct (socketReadOpen_runs_state Hr Hw1) as [-> | [-> | ->]];
      reflexivity.
  - intros [= <-]. cbn [fst]. rewrite Hw1. reflexivity.
Qed.

Lemma socketRead_forward w sock r :
  socketRead w sock = Some r ->
  forward (wsState w) (wsState (fst r)) = true.
Proof.
  rewrite socketRead_unfold. destruct (wsState w) eqn:Hw.
  - reflexivity.
  - apply handshake_phase_forward. reflexivity.
  - intros Hr. apply socketReadOpen_runs in Hr.
    destruct (socketReadOpen_runs_state Hr Hw) as [-> | [-> | ->]];
      reflexivity.
  - intros [= <-]. cbn [fst]. rewrite Hw. reflexivity.
  - intros [= <-]. cbn [fst]. rewrite Hw. reflexivity.
Qed.

Lemma perform_forward op st :
  exists st',
    perform op st = Some st'
    /\ forward (wsState (fst st)) (wsState (fst st')) = true.
Proof.
  destruct st as [w sock]. destruct op as [m|msg|maxLen|maxLen];
    cbn [perform fst snd].
  - unfold feed. cbn [fst snd].
    destruct (socketRead_returns w (QSslSocket.arrive sock m)) as [r Hr].
    exists r. split; [exact Hr|]. eapply socketRead_forward; eauto.
  - eexists. split; [reflexivity|]. apply forward_refl.
  - destruct (read_returns w maxLen) as [[[len bytes] w'] Hr]. rewrite Hr.
    eexists. split; [reflexivity|]. cbn [fst].
    rewrite (read_wsState _ _ Hr). apply forward_refl.
  - destruct (read_array_returns w maxLen) as [[bytes w'] Hr]. rewrite Hr.
    eexists. split; [reflexivity|]. cbn [fst].
    rewrite (read_array_wsState _ _ Hr). apply forward_refl.
Qed.

(** C8.  Whatever operations are performed on an engine, in whatever
    order, they all return and the connection state afterwards is the
    state before or lies after it in the order None, Handshake, Open,
    then Closed or Error; in particular Closed stays Closed and Error stays
    Error.  And in the states Closed and Error [socketRead] returns at once,
    with the engine and the socket (the octets waiting to be read and the
    octets written) unchanged. *)
Theorem state_only_moves_forward :
  (forall (ops : list operation) (st : WebSocket * QSslSocket),
      exists st',
        perform_all ops st = Some st'
        /\ forward (wsState (fst st)) (wsState (fst st')) = true)
  /\ (forall a b, forward a b = true ->
                  (a = Closed -> b = Closed) /\ (a = Error -> b = Error)
                  /\ (b = None_ -> a = None_)
                  /\ (b = Handshake -> a = None_ \/ a = Handshake))
  /\ (forall (w : WebSocket) (sock : QSslSocket),
         socketRead (set_wsState Closed w) sock
         = Some (set_wsState Closed w, sock)
         /\ socketRead (set_wsState Error w) sock
            = Some (set_wsState Error w, sock)).
Proof.
  split; [|split].
  - induction ops as [|op rest IH]; intros st.
    + exists st. split; [reflexivity|apply forward_refl].
    + destruct (perform_forward op st) as (st1 & Hp & Hf1).
      destruct (IH st1) as (st' & Hall & Hf2).
      exists st'. cbn [perform_all]. rewrite Hp.
      split; [exact Hall|eapply forward_trans; eauto].
  - intros a b. destruct a, b; cbn; intros H; try discriminate;
      repeat split; intros; try discriminate; auto.
  - intros w sock. split; apply socketRead_ended; cbn; auto.
Qed.

(** ** The handshake: the key line *)

Lemma socketReadHandshake_steps_tx c c' :
  steps socketReadHandshake_body c c' ->
  QSslSocket.tx (snd c') = QSslSocket.tx (snd c).
Proof.
  induction 1 as [c | [w sock] c1 c2 Hb _ IH]; [reflexivity|].
  rewrite IH. apply socketReadHandshake_body_Continue in Hb. cbn [snd]. tauto.
Qed.

Lemma socketReadHandshake_steps_state c c' :
  steps socketReadHandshake_body c c' ->
  wsState (fst c') = wsState (fst c).
Proof.
  induction 1 as [c | [w sock] c1 c2 Hb _ IH]; [reflexivity|].
  rewrite IH. apply socketReadHandshake_body_Continue in Hb. cbn [fst]. tauto.
Qed.

(** An invocation on an engine that is scanning ends in whatever the
    round ends in that it reaches, unless that round completes the
    handshake. *)
Lemma socketRead_scanning w sock c r :
  wsState w = None_ \/ wsState w = Handshake ->
  steps socketReadHandshake_body (set_wsState Handshake w, sock) c ->
  socketReadHandshake_body c = Return r ->
  wsState (fst r) <> Open ->
  socketRead w sock = Some r.
Proof.
  intros Hw Hsteps Hb Hno.
  assert (Hrun : socketReadHandshake (set_wsState Handshake w) sock = Some r).
  { apply socketReadHandshake_runs. eapply steps_runs; [exact Hsteps|].
    apply runs_return. exact Hb. }
  rewrite socketRead_unfold. unfold handshake_phase.
  destruct Hw as [-> | ->]; rewrite Hrun; destruct r as [w' sock'];
    cbn [fst] in Hno; destruct (wsState w'); congruence.
Qed.

(** The round of the scanner on a key line. *)
Lemma socketReadHandshake_body_key w sock :
  canReadLine sock = true ->
  is_key_line (fst (readLine sock)) = true ->
  socketReadHandshake_body (w, sock)
  = if rest_length (fst (readLine sock)) <? 26 then
      Return (set_wsState Error w, snd (readLine sock))
    else
      Continue
        (set_webSocketAccept
           (Some (accept_token (fst (readLine sock)))) w,
         snd (readLine sock)).
Proof.
  unfold socketReadHandshake_body, is_key_line, rest_length, accept_token,
    trimmed_key_bytes, trimmed_value, key_header, rest_length.
  intros -> Hk. cbn [negb].
  destruct (readLine sock) as [lineAscii sock']. cbn [fst snd] in *.
  rewrite Hk. reflexivity.
Qed.

(** C7, as the code has it.  When the scanner, in any round of an
    invocation, reads a Sec-WebSocket-Key line with fewer than 26
    characters after the header name (the value, the white space around it
    and the line end together), the invocation ends in Error, nothing has
    been written to the socket, and no later invocation changes
    anything. *)
Theorem short_key_line_is_error :
  forall (w w' : WebSocket) (sock sock' : QSslSocket)
         (chunks : list (list byte)),
    wsState w = None_ \/ wsState w = Handshake ->
    steps socketReadHandshake_body (set_wsState Handshake w, sock)
      (w', sock') ->
    canReadLine sock' = true ->
    is_key_line (fst (readLine sock')) = true ->
    rest_length (fst (readLine sock')) < 26 ->
    let sock'' := snd (readLine sock') in
    socketRead w sock = Some (set_wsState Error w', sock'')
    /\ QSslSocket.tx sock'' = QSslSocket.tx sock
    /\ feed_all (set_wsState Error w', sock'') chunks
       = Some (set_wsState Error w',
               QSslSocket.mk (QSslSocket.rx sock'' ++ concat chunks)
                 (QSslSocket.tx sock)).
Proof.
  intros w w' sock sock' chunks Hw Hsteps Hc Hk Hshort sock''.
  pose proof (socketReadHandshake_body_key w' sock' Hc Hk) as Hb.
  destruct (Z.ltb_spec (rest_length (fst (readLine sock'))) 26); [|lia].
  fold sock'' in Hb.
  assert (Htx : QSslSocket.tx sock'' = QSslSocket.tx sock).
  { pose proof (socketReadHandshake_steps_tx Hsteps) as Ht.
    cbn [snd] in Ht. rewrite <- Ht. subst sock''. unfold readLine.
    destruct (readLine_in (QSslSocket.rx sock')). reflexivity. }
  split; [|split; [exact Htx|]].
  - eapply socketRead_scanning; eauto. cbn. discriminate.
  - rewrite <- Htx. destruct sock'' as [rx tx]. apply feed_all_ended.
    right. reflexivity.
Qed.

Lemma short_key_line_is_error_witness :
  (wsState fresh = None_ \/ wsState fresh = Handshake)
  /\ steps socketReadHandshake_body (set_wsState Handshake fresh,
                                     short_key_request)
       (scanning, at_short_key_line)
  /\ canReadLine at_short_key_line = true
  /\ is_key_line (fst (readLine at_short_key_line)) = true
  /\ rest_length (fst (readLine at_short_key_line)) < 26
  /\ socketRead fresh short_key_request
     = Some (set_wsState Error scanning, snd (readLine at_short_key_line))
  /\ QSslSocket.tx (snd (readLine at_short_key_line))
     = QSslSocket.tx short_key_request
  /\ feed_all (set_wsState Error scanning, snd (readLine at_short_key_line))
       [crlf; hello_frame]
     = Some (set_wsState Error scanning,
             QSslSocket.mk
               (QSslSocket.rx (snd (readLine at_short_key_line))
                  ++ concat [crlf; hello_frame])
               (QSslSocket.tx short_key_request)).
Proof.
  assert (Hs : steps socketReadHandshake_body
                 (set_wsState Handshake fresh, short_key_request)
                 (scanning, at_short_key_line))
    by (unfold scanning, at_short_key_line, short_key_request; go_round).
  assert (Hw : wsState fresh = None_ \/ wsState fresh = Handshake)
    by (left; reflexivity).
  split; [exact Hw|]. split; [exact Hs|]. split; [reflexivity|].
  split; [reflexivity|]. split; [reflexivity|].
  exact (@short_key_line_is_error fresh scanning short_key_request
           at_short_key_line [crlf; hello_frame]
           Hw Hs eq_refl eq_refl eq_refl).
Defined.

(** C7 as stated fails in both directions: a key line whose trimmed value
    has 25 characters, and one whose trimmed value has 3 characters behind
    white space, are both accepted; the scanner stores a token for them,
    stays in Handshake, and on the blank line answers and opens the
    connection. *)
Lemma other_key_lengths_accepted :
  (is_key_line long_key_line = true
   /\ QString.length (trimmed_value long_key_line) = 25
   /\ exists w' sock',
        feed (fresh, idle) long_key_line = Some (w', sock')
        /\ wsState w' = Handshake
        /\ webSocketAccept w' = Some (accept_token long_key_line)
        /\ exists w'' sock'',
             feed (w', sock') crlf = Some (w'', sock'')
             /\ wsState w'' = Open
             /\ QSslSocket.tx sock''
                = serverHeader ++ accept_token long_key_line ++ crlf ++ crlf)
  /\ (is_key_line padded_key_line = true
      /\ QString.length (trimmed_value padded_key_line) = 3
      /\ exists w' sock',
           feed (fresh, idle) padded_key_line = Some (w', sock')
           /\ wsState w' = Handshake
           /\ webSocketAccept w' = Some (accept_token padded_key_line)).
Proof.
  split.
  - split; [reflexivity|]. split; [reflexivity|].
    eexists; eexists. split; [vm_compute; reflexivity|].
    split; [reflexivity|]. split; [vm_compute; reflexivity|].
    eexists; eexists. split; [vm_compute; reflexivity|].
    split; [reflexivity|]. vm_compute; reflexivity.
  - split; [reflexivity|]. split; [reflexivity|].
    eexists; eexists. split; [vm_compute; reflexivity|].
    split; [reflexivity|]. vm_compute; reflexivity.
Qed.

(** C5, as the code has it.  A round of the scanner on a
    Sec-WebSocket-Key line with at least 26 characters after the header
    name stores the token base64(SHA1(trimmed key octets followed by the
    magic sequence)) and goes on, and the invocation returns the engine
    with that token when no further line is complete.  The magic sequence
    is 258EAFA5-E914-47DA-95CA-C5AB0DC85B11, and for the key
    dGhlIHNhbXBsZSBub25jZQ== the token is s3pPLMBiTxaQ9kYGzzhZRbK+xOo=,
    which the response to the sample request carries. *)
Theorem accept_token_stored :
  forall (w w' : WebSocket) (sock sock' : QSslSocket),
    wsState w = None_ \/ wsState w = Handshake ->
    steps socketReadHandshake_body (set_wsState Handshake w, sock)
      (w', sock') ->
    canReadLine sock' = true ->
    is_key_line (fst (readLine sock')) = true ->
    26 <= rest_length (fst (readLine sock')) ->
    let token :=
      toBase64
        (Sha1.hash
           (trimmed_key_bytes (fst (readLine sock')) ++ magicSequence)) in
    let stored := set_webSocketAccept (Some token) w' in
    socketReadHandshake_body (w', sock')
    = Continue (stored, snd (readLine sock'))
    /\ (canReadLine (snd (readLine sock')) = false ->
        socketRead w sock = Some (stored, snd (readLine sock')))
    /\ magicSequence = bytes_of_string "258EAFA5-E914-47DA-95CA-C5AB0DC85B11"
    /\ trimmed_key_bytes sample_key_line
       = bytes_of_string "dGhlIHNhbXBsZSBub25jZQ=="
    /\ accept_token sample_key_line
       = bytes_of_string "s3pPLMBiTxaQ9kYGzzhZRbK+xOo="
    /\ feed (fresh, idle) sample_request
       = Some (set_wsState Open
                 (set_webSocketAccept
                    (Some (bytes_of_string "s3pPLMBiTxaQ9kYGzzhZRbK+xOo="))
                    fresh),
               QSslSocket.mk []
                 (serverHeader
                    ++ bytes_of_string "s3pPLMBiTxaQ9kYGzzhZRbK+xOo="
                    ++ crlf ++ crlf)).
Proof.
  intros w w' sock sock' Hw Hsteps Hc Hk Hlong token stored.
  pose proof (socketReadHandshake_body_key w' sock' Hc Hk) as Hb.
  destruct (Z.ltb_spec (rest_length (fst (readLine sock'))) 26); [lia|].
  split; [exact Hb|]. split.
  - intros Hno.
    eapply socketRead_scanning; [exact Hw| | |].
    + eapply steps_trans; [exact Hsteps|].
      eapply steps_step; [exact Hb|apply steps_refl].
    + unfold socketReadHandshake_body. rewrite Hno. reflexivity.
    + subst stored. cbn [fst wsState set_webSocketAccept].
      pose proof (socketReadHandshake_steps_state Hsteps) as Hst.
      cbn [fst wsState set_wsState] in Hst.
      rewrite Hst. discriminate.
  - split; [reflexivity|]. split; [vm_compute; reflexivity|].
    split; vm_compute; reflexivity.
Qed.

Lemma accept_token_stored_witness :
  (wsState fresh = None_ \/ wsState fresh = Handshake)
  /\ steps socketReadHandshake_body (set_wsState Handshake fresh,
                                     sample_key_request)
       (scanning, at_sample_key_line)
  /\ canReadLine at_sample_key_line = true
  /\ is_key_line (fst (readLine at_sample_key_line)) = true
  /\ 26 <= rest_length (fst (readLine at_sample_key_line))
  /\ socketReadHandshake_body (scanning, at_sample_key_line)
     = Continue
         (set_webSocketAccept
            (Some (toBase64
                     (Sha1.hash
                        (trimmed_key_bytes (fst (readLine at_sample_key_line))
                           ++ magicSequence))))
            scanning,
          snd (readLine at_sample_key_line))
  /\ socketRead fresh sample_key_request
     = Some (set_webSocketAccept
               (Some (toBase64
                        (Sha1.hash
                           (trimmed_key_bytes
                              (fst (readLine at_sample_key_line))
                              ++ magicSequence))))
               scanning,
             snd (readLine at_sample_key_line)).
Proof.
  assert (Hs : steps socketReadHandshake_body
                 (set_wsState Handshake fresh, sample_key_request)
                 (scanning, at_sample_key_line))
    by (unfold scanning, at_sample_key_line, sample_key_request;
        go_round_once).
  assert (Hw : wsState fresh = None_ \/ wsState fresh = Handshake)
    by (left; reflexivity).
  assert (Hl : 26 <= rest_length (fst (readLine at_sample_key_line)))
    by (vm_compute; discriminate).
  split; [exact Hw|]. split; [exact Hs|]. split; [reflexivity|].
  split; [reflexivity|]. split; [exact Hl|].
  destruct (@accept_token_stored fresh scanning sample_key_request
              at_sample_key_line Hw Hs eq_refl eq_refl Hl)
    as (Hb & Hr & _).
  split; [exact Hb|]. apply Hr. vm_compute. reflexivity.
Defined.

(** C5 as stated fails for a key line that is too short: no token is
    stored for it, the connection is put in Error instead. *)
Lemma short_key_line_stores_nothing :
  is_key_line short_key_line = true
  /\ exists w' sock',
       feed (fresh, idle) short_key_line = Some (w', sock')
       /\ wsState w' = Error
       /\ webSocketAccept w' = None
       /\ webSocketAccept w' <> Some (accept_token short_key_line).
Proof.
  split; [reflexivity|].
  eexists; eexists. split; [vm_compute; reflexivity|].
  split; [reflexivity|]. split; [reflexivity|discriminate].
Qed.

(** ** The queue invariant is kept by the engine *)

Lemma buffer_ok_fresh : buffer_ok fresh.
Proof.
  unfold buffer_ok, fresh, pending, qlength. cbn. repeat split; lia.
Qed.

Lemma header_length_queue w sock h1 :
  let w' := fst (outcome (header_length w sock h1)) in
  buffers w' = buffers w /\ bytesInBuffers w' = bytesInBuffers w
  /\ buffersFirstConsumed w' = buffersFirstConsumed w
  /\ snd (outcome (header_length w sock h1)) = sock.
Proof.
  unfold header_length. repeat case_if; cbn; auto.
Qed.

Lemma buffer_ok_same_queue w w' :
  buffers w' = buffers w -> bytesInBuffers w' = bytesInBuffers w ->
  buffersFirstConsumed w' = buffersFirstConsumed w ->
  buffer_ok w -> buffer_ok w'.
Proof.
  unfold buffer_ok, pending. intros -> -> ->. auto.
Qed.

Lemma decoder_ok_data w rx tx :
  nextAction w = ReadPayload -> nextPayload w = Data ->
  nextLength w <> 0 -> rx <> [] ->
  decoder_ok (w, QSslSocket.mk rx tx) ->
  decoder_ok (outcome (socketReadOpen_body (w, QSslSocket.mk rx tx))).
Proof.
  intros Hn Hp Hz Hrx ((Hlo & Hhi) & (Hoff & Hbytes & _) & Hroom).
  cbn [fst snd] in *. unfold QSslSocket.bytesAvailable in Hroom.
  cbn [QSslSocket.rx] in Hroom.
  rewrite socketReadOpen_body_data by assumption. cbn zeta. cbn [outcome].
  set (read := if nextLength w <? Z.of_nat (length rx)
               then nextLength w else Z.of_nat (length rx)).
  assert (Hpos : 0 < Z.of_nat (length rx))
    by (destruct rx; [contradiction|cbn [length]; lia]).
  assert (Hread : 0 < read <= Z.of_nat (length rx) /\ read <= nextLength w)
    by (subst read; case_if; to_lia; lia).
  pose proof (unmask_loop_length (mask w) (Z.to_nat read)
                (firstn (Z.to_nat read) rx) (maskIndex w)) as Hlen.
  rewrite length_firstn in Hlen.
  destruct (unmask_loop (mask w) (Z.to_nat read)
              (firstn (Z.to_nat read) rx) (maskIndex w)) as [d i'].
  cbn [fst snd] in *.
  assert (Hd : Z.of_nat (length d) = read) by lia.
  unfold decoder_ok, nextLength_fits, buffer_ok, pending, qlength,
    QSslSocket.bytesAvailable in *.
  cbn [fst snd buffers bytesInBuffers buffersFirstConsumed nextLength
       set_bytesInBuffers set_buffers set_maskIndex set_nextLength
       QSslSocket.rx].
  rewrite concat_app. cbn [concat]. rewrite app_nil_r.
  assert (Hc : (Z.to_nat (buffersFirstConsumed w)
                <= length (concat (buffers w)))%nat).
  { destruct (buffers w) as [|first others]; [rewrite Hoff; cbn; lia|].
    cbn [concat]. rewrite length_app. lia. }
  rewrite skipn_app_le by exact Hc.
  rewrite !length_app, !length_skipn. rewrite length_skipn in Hbytes.
  rewrite !quint64_small by lia.
  split; [lia|]. split; [|lia]. split; [|split; lia].
  destruct (buffers w) as [|first others]; cbn [app]; lia.
Qed.

Lemma socketReadOpen_body_fits w sock :
  nextLength_fits w ->
  nextLength_fits (fst (outcome (socketReadOpen_body (w, sock)))).
Proof.
  intros Hf.
  destruct (socketReadOpen_body (w, sock)) as [st'|r] eqn:Hb; cbn [outcome].
  - apply socketReadOpen_body_Continue in Hb. tauto.
  - apply socketReadOpen_body_Return_length in Hb.
    unfold nextLength_fits in *. rewrite Hb. exact Hf.
Qed.

(** Outside the data step a round leaves the queue alone and takes
    octets from the socket, if anything. *)
Lemma socketReadOpen_body_queue w sock :
  (nextAction w = ReadPayload -> nextPayload w <> Data) ->
  let r := outcome (socketReadOpen_body (w, sock)) in
  buffers (fst r) = buffers w
  /\ bytesInBuffers (fst r) = bytesInBuffers w
  /\ buffersFirstConsumed (fst r) = buffersFirstConsumed w
  /\ QSslSocket.bytesAvailable (snd r) <= QSslSocket.bytesAvailable sock.
Proof.
  intros Hnd.
  assert (Hsk : forall n,
             Z.of_nat (length (skipn n (QSslSocket.rx sock)))
             <= Z.of_nat (length (QSslSocket.rx sock)))
    by (intros n; rewrite length_skipn; lia).
  unfold socketReadOpen_body, QSslSocket.read, QSslSocket.skip, unmask.
  destruct (nextAction w) eqn:Hn.
  - case_if; [cbn; repeat split; lia|].
    repeat case_if;
      try (cbn [outcome fst snd buffers bytesInBuffers buffersFirstConsumed
                set_wsState QSslSocket.write];
           unfold QSslSocket.bytesAvailable;
           cbn [QSslSocket.rx QSslSocket.tx]; repeat split; apply Hsk).
    all: match goal with
         | |- context [header_length ?a ?b ?c] =>
             destruct (header_length_queue a b c) as (H1 & H2 & H3 & H4)
         end; cbn zeta; rewrite H1, H2, H3, H4;
         unfold QSslSocket.bytesAvailable; cbn [QSslSocket.rx];
         repeat split; apply Hsk.
  - case_if; cbn [outcome fst snd buffers bytesInBuffers buffersFirstConsumed
                  set_nextAction set_nextLength];
      unfold QSslSocket.bytesAvailable; cbn [QSslSocket.rx];
      repeat split; try lia; apply Hsk.
  - case_if; cbn [outcome fst snd buffers bytesInBuffers buffersFirstConsumed
                  set_nextAction set_nextLength];
      unfold QSslSocket.bytesAvailable; cbn [QSslSocket.rx];
      repeat split; try lia; apply Hsk.
  - case_if; cbn [outcome fst snd buffers bytesInBuffers buffersFirstConsumed
                  set_nextAction set_maskIndex set_mask];
      unfold QSslSocket.bytesAvailable; cbn [QSslSocket.rx];
      repeat split; try lia; apply Hsk.
  - destruct (nextPayload w) eqn:Hp; [exfalso; apply Hnd; reflexivity| |].
    + case_if; [|cbn; repeat split; lia].
      destruct (unmask_loop _ _ _ _) as [d i'].
      cbn [outcome fst snd buffers bytesInBuffers buffersFirstConsumed
           set_nextAction set_maskIndex QSslSocket.write].
      unfold QSslSocket.bytesAvailable, QSslSocket.write at 1.
      cbn [QSslSocket.rx]. rewrite writeLength_rx. cbn [QSslSocket.rx].
      repeat split; apply Hsk.
    + case_if; [|cbn; repeat split; lia].
      cbn [outcome fst snd buffers bytesInBuffers buffersFirstConsumed
           set_nextAction].
      unfold QSslSocket.bytesAvailable. cbn [QSslSocket.rx].
      repeat split; apply Hsk.
Qed.

(** A round of the decoder keeps [decoder_ok]. *)
Lemma decoder_ok_step st :
  decoder_ok st -> decoder_ok (outcome (socketReadOpen_body st)).
Proof.
  destruct st as [w [rx tx]]. intros Hok.
  destruct (nextAction w) eqn:Hn.
  5: destruct (nextPayload w) eqn:Hp.
  5: { destruct (Z.eq_dec (nextLength w) 0) as [Hz|Hz].
       - unfold socketReadOpen_body. rewrite Hn, Hp, Hz. exact Hok.
       - destruct rx as [|b rx].
         + rewrite socketReadOpen_body_blocked; [exact Hok|].
           unfold needed. rewrite Hn, Hp.
           destruct (Z.eqb_spec (nextLength w) 0); [contradiction|].
           reflexivity.
         + apply decoder_ok_data; try assumption. discriminate. }
  all: destruct Hok as (Hf & Hq & Hroom); cbn [fst snd] in *;
    destruct (@socketReadOpen_body_queue w (QSslSocket.mk rx tx)
                ltac:(congruence)) as (H1 & H2 & H3 & H4);
    split; [apply socketReadOpen_body_fits; exact Hf|];
    split; [eapply buffer_ok_same_queue; eauto|];
    rewrite H1; lia.
Qed.

Lemma decoder_ok_runs st r :
  runs socketReadOpen_body st r -> decoder_ok st -> decoder_ok r.
Proof.
  induction 1 as [st r Hb | st st' r Hb _ IH]; intros Hok;
    pose proof (decoder_ok_step Hok) as Hstep; rewrite Hb in Hstep;
    cbn [outcome] in Hstep; auto.
Qed.

Lemma socketReadHandshake_body_queue w sock :
  let r := outcome (socketReadHandshake_body (w, sock)) in
  buffers (fst r) = buffers w
  /\ bytesInBuffers (fst r) = bytesInBuffers w
  /\ buffersFirstConsumed (fst r) = buffersFirstConsumed w
  /\ nextLength (fst r) = nextLength w
  /\ QSslSocket.bytesAvailable (snd r) <= QSslSocket.bytesAvailable sock.
Proof.
  unfold socketReadHandshake_body, readLine, canReadLine.
  destruct (canReadLine_in (QSslSocket.rx sock)) eqn:Hc; cbn [negb];
    [|cbn; repeat split; lia].
  pose proof (readLine_in_shorter _ Hc) as Hlen.
  destruct (readLine_in (QSslSocket.rx sock)) as [line rest].
  cbn [snd] in Hlen. unfold QSslSocket.bytesAvailable.
  repeat case_if; try (destruct (webSocketAccept w)); cbn; repeat split; lia.
Qed.

Lemma socketReadHandshake_runs_ok st r :
  runs socketReadHandshake_body st r -> decoder_ok st -> decoder_ok r.
Proof.
  assert (Hstep : forall st,
             decoder_ok st ->
             decoder_ok (outcome (socketReadHandshake_body st))).
  { intros [w sock] (Hf & Hq & Hroom). cbn [fst snd] in *.
    destruct (socketReadHandshake_body_queue w sock)
      as (H1 & H2 & H3 & H4 & H5).
    split; [unfold nextLength_fits in *; rewrite H4; exact Hf|].
    split; [eapply buffer_ok_same_queue; eauto|]. rewrite H1. lia. }
  induction 1 as [st r Hb | st st' r Hb _ IH]; intros Hok;
    pose proof (Hstep st Hok) as Hs; rewrite Hb in Hs; cbn [outcome] in Hs;
    auto.
Qed.

(** The queue invariant holds for a fresh engine and is kept by
    [socketRead], as long as the octets queued and the octets waiting in
    the socket are few enough for the counters; [read] keeps it too (see
    [read_spec]). *)
Lemma socketRead_keeps_ok w sock r :
  decoder_ok (w, sock) -> socketRead w sock = Some r -> decoder_ok r.
Proof.
  intros Hok. rewrite socketRead_unfold.
  assert (Hphase : forall w0, decoder_ok (w0, sock) ->
                     handshake_phase w0 sock = Some r -> decoder_ok r).
  { intros w0 Hok0. unfold handshake_phase.
    destruct (socketReadHandshake w0 sock) as [[w1 sock1]|] eqn:Hh;
      [|discriminate].
    apply socketReadHandshake_runs in Hh.
    pose proof (socketReadHandshake_runs_ok Hh Hok0) as Hok1.
    destruct (wsState w1); try (intros [= <-]; exact Hok1).
    intros Hr. apply socketReadOpen_runs in Hr.
    exact (decoder_ok_runs Hr Hok1). }
  destruct (wsState w) eqn:Hw.
  - apply Hphase. exact Hok.
  - apply Hphase. exact Hok.
  - intros Hr. apply socketReadOpen_runs in Hr.
    exact (decoder_ok_runs Hr Hok).
  - intros [= <-]. exact Hok.
  - intros [= <-]. exact Hok.
Qed.

(** ** The frame writer: [write] *)

Lemma land_128_small (x : Z) : 0 <= x < 128 -> Z.land x 128 = 0.
Proof.
  intros H. apply Z.bits_inj'. intros k Hk.
  rewrite Z.land_spec, Z.bits_0. change 128 with (2 ^ 7).
  rewrite Z.pow2_bits_eqb by lia.
  destruct (Z.eqb_spec 7 k) as [<-|_]; [|apply andb_false_r].
  rewrite andb_true_r. apply Z.testbit_false; [lia|].
  rewrite Z.div_small by lia. reflexivity.
Qed.

(** The length header starts with an octet whose high bit is clear. *)
Lemma writeLength_first sock L :
  0 <= L ->
  exists h0 hs,
    QSslSocket.tx (writeLength sock L) = QSslSocket.tx sock ++ h0 :: hs
    /\ mask_bit h0 = false.
Proof.
  intros HL. unfold writeLength.
  destruct (Z.leb_spec L 125) as [H|H].
  - exists (of_Z L), []. split; [reflexivity|].
    unfold mask_bit. rewrite to_Z_of_Z, Z.mod_small by lia.
    rewrite land_128_small by lia. reflexivity.
  - destruct (L <=? 65536).
    + exists (of_Z 126), (qToBigEndian 2 (quint16 L)).
      cbn [QSslSocket.write QSslSocket.tx QSslSocket.rx].
      rewrite <- app_assoc. split; reflexivity.
    + exists (of_Z 127), (qToBigEndian 8 L).
      cbn [QSslSocket.write QSslSocket.tx QSslSocket.rx].
      rewrite <- app_assoc. split; reflexivity.
Qed.

(** X1.  On an open connection [write] appends exactly one frame to what
    has been written: the octet 0x82 (FIN set, opcode binary), the length
    header of the minimal-size rule and the message as it is, unmasked; it
    takes nothing from the socket.  In every other state it does nothing.
    (A message of 65536 octets is left out: for that length the header
    that [writeLength] writes is not the one of the rule.) *)
Theorem write_frame :
  forall (w : WebSocket) (sock : QSslSocket) (qbaMsg : QByteArray),
    qlength qbaMsg <> 65536 ->
    write w sock qbaMsg
    = match wsState w with
      | Open =>
          QSslSocket.mk (QSslSocket.rx sock)
            (QSslSocket.tx sock ++ [x82]
               ++ minimal_length_header (qlength qbaMsg) ++ qbaMsg)
      | _ => sock
      end.
Proof.
  intros w sock qbaMsg HL. unfold write. destruct (wsState w); try reflexivity.
  pose proof (writeLength_rx (QSslSocket.write sock [msgHeader])
                (qlength qbaMsg)) as Hrx.
  pose proof (@writeLength_minimal (QSslSocket.write sock [msgHeader])
                (qlength qbaMsg) HL) as Htx.
  destruct (writeLength (QSslSocket.write sock [msgHeader]) (qlength qbaMsg))
    as [rx' tx'].
  cbn [QSslSocket.rx QSslSocket.tx QSslSocket.write] in *. subst rx' tx'.
  unfold QSslSocket.write. cbn [QSslSocket.rx QSslSocket.tx].
  rewrite <- !app_assoc. reflexivity.
Qed.

Lemma write_frame_witness :
  qlength (bytes_of_string "Hi") <> 65536
  /\ write opened idle (bytes_of_string "Hi")
     = match wsState opened with
       | Open =>
           QSslSocket.mk (QSslSocket.rx idle)
             (QSslSocket.tx idle ++ [x82]
                ++ minimal_length_header (qlength (bytes_of_string "Hi"))
                ++ bytes_of_string "Hi")
       | _ => idle
       end.
Proof.
  assert (H : qlength (bytes_of_string "Hi") <> 65536)
    by (vm_compute; discriminate).
  split; [exact H|].
  exact (@write_frame opened idle (bytes_of_string "Hi") H).
Defined.

(** X2.  The frames of [write] carry no mask, so the engine does not take
    them back: an open engine at a frame boundary that is given the frame
    that [write] produces for any message ends in Error, with its queue of
    decoded octets as it was and nothing written. *)
Theorem written_frame_rejected :
  forall (w peer : WebSocket) (qbaMsg : QByteArray) (tx : list byte),
    wsState w = Open -> wsState peer = Open ->
    nextAction peer = ReadOpcodeAnd1ByteLength ->
    exists peer' rest,
      socketRead peer
        (QSslSocket.mk (QSslSocket.tx (write w idle qbaMsg)) tx)
      = Some (peer', QSslSocket.mk rest tx)
      /\ wsState peer' = Error
      /\ buffers peer' = buffers peer
      /\ bytesInBuffers peer' = bytesInBuffers peer.
Proof.
  intros w peer qbaMsg tx Hw Hp Hn. unfold write. rewrite Hw.
  destruct (@writeLength_first (QSslSocket.write idle [msgHeader])
              (qlength qbaMsg) ltac:(unfold qlength; lia))
    as (h0 & hs & Htx & Hm).
  unfold QSslSocket.write at 1. cbn [QSslSocket.tx]. rewrite Htx.
  change (QSslSocket.tx (QSslSocket.write idle [msgHeader]))
    with [msgHeader].
  cbn [app].
  destruct (@socketReadOpen_body_unmasked peer msgHeader h0 (hs ++ qbaMsg) tx
              Hn ltac:(vm_compute; discriminate) Hm)
    as (peer' & Hb & He & Hq1 & Hq2 & _).
  exists peer', (hs ++ qbaMsg). split; [|auto].
  eapply socketRead_reaches; [|exact Hb].
  apply reaches_open; [exact Hp|apply steps_refl].
Qed.

Lemma written_frame_rejected_witness :
  wsState opened = Open /\ wsState after_hello = Open
  /\ nextAction after_hello = ReadOpcodeAnd1ByteLength
  /\ exists peer' rest,
       socketRead after_hello
         (QSslSocket.mk
            (QSslSocket.tx (write opened idle (bytes_of_string "Hi"))) [])
       = Some (peer', QSslSocket.mk rest [])
       /\ wsState peer' = Error
       /\ buffers peer' = buffers after_hello
       /\ bytesInBuffers peer' = bytesInBuffers after_hello.
Proof.
  split; [reflexivity|]. split; [reflexivity|]. split; [reflexivity|].
  exact (@written_frame_rejected opened after_hello (bytes_of_string "Hi") []
           eq_refl eq_refl eq_refl).
Defined.

(** ** The frame decoder: whole frames *)

Lemma socketReadOpen_body_pong w payload rest tx :
  nextAction w = ReadPayload -> nextPayload w = Pong ->
  nextLength w = qlength payload ->
  socketReadOpen_body (w, QSslSocket.mk (payload ++ rest) tx)
  = Continue (set_nextAction ReadOpcodeAnd1ByteLength w,
              QSslSocket.mk rest tx).
Proof.
  intros Hn Hp Hl. unfold socketReadOpen_body. rewrite Hn, Hp.
  unfold QSslSocket.bytesAvailable, QSslSocket.skip.
  cbn [QSslSocket.rx QSslSocket.tx]. unfold qlength in Hl.
  rewrite skipn_exact by lia.
  destruct (Z.leb_spec (nextLength w) (Z.of_nat (length (payload ++ rest))))
    as [H|H]; [reflexivity|rewrite length_app in H; lia].
Qed.

(** The round on a data payload of which [part] is there: all of what
    is left of the payload, or less and then nothing behind it. *)
Lemma socketReadOpen_body_data_part w part rest tx :
  nextAction w = ReadPayload -> nextPayload w = Data ->
  part <> [] -> qlength part <= nextLength w ->
  rest = [] \/ qlength part = nextLength w ->
  let um := unmask_loop (mask w) (length part) part (maskIndex w) in
  socketReadOpen_body (w, QSslSocket.mk (part ++ rest) tx)
  = Continue
      (set_bytesInBuffers (quint64 (bytesInBuffers w + qlength part))
         (set_buffers (buffers w ++ [fst um])
            (set_maskIndex (snd um)
               (set_nextLength (quint64 (nextLength w - qlength part)) w))),
       QSslSocket.mk rest tx).
Proof.
  intros Hn Hp Hne Hle Hcase um.
  assert (Hpos : 0 < qlength part)
    by (destruct part; [contradiction|unfold qlength; cbn [length]; lia]).
  rewrite socketReadOpen_body_data;
    [|assumption|assumption|lia|destruct part; [contradiction|discriminate]].
  cbn zeta.
  assert (Hread : (if nextLength w <? Z.of_nat (length (part ++ rest))
                   then nextLength w else Z.of_nat (length (part ++ rest)))
                  = qlength part).
  { unfold qlength in *. rewrite length_app.
    destruct Hcase as [-> | He]; case_if; to_lia; cbn [length] in *; lia. }
  rewrite Hread. unfold qlength.
  rewrite firstn_exact, skipn_exact by reflexivity.
  rewrite Nat2Z.id. reflexivity.
Qed.

Lemma socketReadOpen_body_data_done w sock :
  nextAction w = ReadPayload -> nextPayload w = Data -> nextLength w = 0 ->
  socketReadOpen_body (w, sock)
  = Continue (set_nextAction ReadOpcodeAnd1ByteLength w, sock).
Proof.
  intros Hn Hp Hl. unfold socketReadOpen_body. rewrite Hn, Hp, Hl.
  reflexivity.
Qed.

(** An invocation on an open connection that gets the decoder to a frame
    boundary with fewer than two octets left returns there. *)
Lemma socketRead_at_boundary w sock w' rest tx :
  wsState w = Open ->
  steps socketReadOpen_body (w, sock) (w', QSslSocket.mk rest tx) ->
  nextAction w' = ReadOpcodeAnd1ByteLength -> (length rest < 2)%nat ->
  socketRead w sock = Some (w', QSslSocket.mk rest tx).
Proof.
  intros Ho Hsteps Hn Hshort.
  eapply socketRead_reaches; [apply reaches_open; eassumption|].
  apply socketReadOpen_body_blocked. unfold needed. rewrite Hn.
  unfold QSslSocket.bytesAvailable. cbn [QSslSocket.rx]. lia.
Qed.

Lemma frame_octets_app b0 b1 ext key payload rest :
  frame_octets b0 b1 ext key payload ++ rest
  = b0 :: b1 :: ext ++ key ++ payload ++ rest.
Proof.
  unfold frame_octets. cbn [app]. rewrite <- !app_assoc. reflexivity.
Qed.

Lemma concat_chunk_of (l : list QByteArray) (u : QByteArray) :
  concat (l ++ chunk_of u) = concat l ++ u.
Proof.
  destruct u as [|x u]; cbn [chunk_of]; [rewrite !app_nil_r; reflexivity|].
  rewrite concat_app. cbn [concat]. rewrite app_nil_r. reflexivity.
Qed.

Lemma buffer_ok_offset w :
  buffer_ok w ->
  (Z.to_nat (buffersFirstConsumed w) <= length (concat (buffers w)))%nat.
Proof.
  intros (Hoff & _ & _). unfold qlength in Hoff.
  destruct (buffers w) as [|first others]; [rewrite Hoff; cbn; lia|].
  cbn [concat]. rewrite length_app. lia.
Qed.

Lemma buffer_ok_total w : buffer_ok w -> 0 <= bytesInBuffers w < 2 ^ 64.
Proof.
  intros (_ & Hb & Hlt). rewrite Hb. unfold pending, qlength in *.
  rewrite length_skipn. lia.
Qed.

Lemma pending_append w w' (u : QByteArray) :
  buffer_ok w ->
  concat (buffers w') = concat (buffers w) ++ u ->
  buffersFirstConsumed w' = buffersFirstConsumed w ->
  pending w' = pending w ++ u.
Proof.
  intros Hok Hb Hc. unfold pending. rewrite Hb, Hc.
  apply skipn_app_le. apply buffer_ok_offset. exact Hok.
Qed.

Lemma payload_kind_data b0 : opcode b0 <= 2 -> payload_kind b0 = Data.
Proof.
  intros H. unfold payload_kind. apply Z.leb_le in H. rewrite H. reflexivity.
Qed.

Lemma valid_opcode_data b0 : opcode b0 <= 2 -> valid_opcode (opcode b0) = true.
Proof.
  intros H. unfold valid_opcode. apply Z.leb_le in H. rewrite H. reflexivity.
Qed.

(** The rounds on a whole data frame. *)
Lemma data_frame_rounds w b0 b1 ext key payload rest tx :
  nextAction w = ReadOpcodeAnd1ByteLength ->
  0 <= bytesInBuffers w < 2 ^ 64 ->
  opcode b0 <= 2 ->
  mask_bit b1 = true ->
  length ext = extension_size b1 ->
  length key = 4%nat ->
  qlength payload = frame_length b1 ext ->
  exists w',
    steps socketReadOpen_body
      (w, QSslSocket.mk (frame_octets b0 b1 ext key payload ++ rest) tx)
      (w', QSslSocket.mk rest tx)
    /\ wsState w' = wsState w
    /\ nextAction w' = ReadOpcodeAnd1ByteLength
    /\ buffers w' = buffers w ++ chunk_of (unmasked key payload)
    /\ bytesInBuffers w' = quint64 (bytesInBuffers w + qlength payload)
    /\ buffersFirstConsumed w' = buffersFirstConsumed w.
Proof.
  intros Hn Hbib H2 Hm He Hk Hl.
  rewrite frame_octets_app.
  pose proof (@frame_prologue w b0 b1 ext key (payload ++ rest) tx Hn
                (valid_opcode_data _ H2) ltac:(lia) Hm He Hk) as Hpro.
  set (wp := at_payload w b0 b1 ext key) in *.
  assert (Hwp : nextAction wp = ReadPayload /\ nextPayload wp = Data
                /\ nextLength wp = qlength payload).
  { subst wp. unfold at_payload.
    cbn [nextAction nextPayload nextLength].
    rewrite payload_kind_data by exact H2. auto. }
  destruct Hwp as (Hwn & Hwd & Hwl).
  destruct payload as [|p0 ps].
  - (* no payload: the decoder goes back to the frame boundary *)
    exists (set_nextAction ReadOpcodeAnd1ByteLength wp).
    split.
    { eapply steps_trans; [exact Hpro|].
      eapply steps_step; [|apply steps_refl].
      apply socketReadOpen_body_data_done; assumption. }
    split; [reflexivity|]. split; [reflexivity|].
    split; [cbn; rewrite app_nil_r; reflexivity|].
    split; [|reflexivity].
    cbn [bytesInBuffers set_nextAction wp at_payload].
    unfold qlength. cbn [length]. rewrite Z.add_0_r.
    symmetry. apply quint64_small. exact Hbib.
  - (* the payload is taken in one round, then the decoder goes back *)
    set (payload := p0 :: ps) in *.
    set (um := unmask_loop key (length payload) payload 0).
    set (wd := set_bytesInBuffers
                 (quint64 (bytesInBuffers wp + qlength payload))
                 (set_buffers (buffers wp ++ [fst um])
                    (set_maskIndex (snd um)
                       (set_nextLength
                          (quint64 (nextLength wp - qlength payload)) wp)))).
    assert (Hdata : socketReadOpen_body
                      (wp, QSslSocket.mk (payload ++ rest) tx)
                    = Continue (wd, QSslSocket.mk rest tx)).
    { apply socketReadOpen_body_data_part; try assumption.
      - discriminate.
      - lia.
      - right. symmetry. exact Hwl. }
    assert (Hwd0 : nextLength wd = 0).
    { subst wd. cbn [nextLength set_bytesInBuffers set_buffers set_maskIndex
                     set_nextLength].
      rewrite Hwl, Z.sub_diag. reflexivity. }
    exists (set_nextAction ReadOpcodeAnd1ByteLength wd).
    split.
    { eapply steps_trans; [exact Hpro|].
      eapply steps_step; [exact Hdata|].
      eapply steps_step; [|apply steps_refl].
      apply socketReadOpen_body_data_done; [reflexivity|exact Hwd|exact Hwd0]. }
    split; [reflexivity|]. split; [reflexivity|].
    split; [|split; reflexivity].
    pose proof (unmask_loop_length key (length payload) payload 0) as Hlen.
    unfold unmasked. fold um. fold um in Hlen.
    destruct (fst um) as [|u0 us]; [discriminate|]. reflexivity.
Qed.

(** X3.  A whole masked data frame (opcode 0, 1 or 2, whatever the FIN and
    reserved bits, whichever of the three forms the length has, with a
    payload below the 2^31 octets that an array can hold) that an open
    engine finds at a frame boundary is decoded in one go: its octets
    are taken from the socket, its payload, unmasked with its key, is added
    to the queue as one chunk (no chunk when the payload is empty) behind
    what was pending, the total grows by the length of the payload, nothing
    is written, and the decoder is at a frame boundary again.  When fewer
    than two octets follow the frame, this is where the invocation of
    [socketRead] returns. *)
Theorem data_frame_delivered :
  forall (w : WebSocket) (b0 b1 : byte)
         (ext key payload rest tx : list byte),
    wsState w = Open ->
    nextAction w = ReadOpcodeAnd1ByteLength ->
    buffer_ok w ->
    opcode b0 <= 2 ->
    mask_bit b1 = true ->
    length ext = extension_size b1 ->
    length key = 4%nat ->
    qlength payload = frame_length b1 ext ->
    qlength payload < 2 ^ 31 ->
    exists w',
      steps socketReadOpen_body
        (w, QSslSocket.mk (frame_octets b0 b1 ext key payload ++ rest) tx)
        (w', QSslSocket.mk rest tx)
      /\ wsState w' = Open
      /\ nextAction w' = ReadOpcodeAnd1ByteLength
      /\ buffers w' = buffers w ++ chunk_of (unmasked key payload)
      /\ pending w' = pending w ++ unmasked key payload
      /\ bytesInBuffers w' = quint64 (bytesInBuffers w + qlength payload)
      /\ buffersFirstConsumed w' = buffersFirstConsumed w
      /\ ((length rest < 2)%nat ->
          socketRead w
            (QSslSocket.mk (frame_octets b0 b1 ext key payload ++ rest) tx)
          = Some (w', QSslSocket.mk rest tx)).
Proof.
  intros w b0 b1 ext key payload rest tx Ho Hn Hok H2 Hm He Hk Hl _.
  destruct (@data_frame_rounds w b0 b1 ext key payload rest tx Hn
              (buffer_ok_total Hok) H2 Hm He Hk Hl)
    as (w' & Hsteps & Hs & Hn' & Hbuf & Hbib & Hc).
  exists w'. split; [exact Hsteps|]. split; [congruence|].
  split; [exact Hn'|]. split; [exact Hbuf|].
  split; [apply pending_append;
          [exact Hok|rewrite Hbuf; apply concat_chunk_of|exact Hc]|].
  split; [exact Hbib|]. split; [exact Hc|].
  intros Hshort. eapply socketRead_at_boundary; eauto.
Qed.

Lemma opened_ok : buffer_ok opened.
Proof.
  unfold buffer_ok, opened, fresh, pending, qlength. cbn. repeat split; lia.
Defined.

Lemma data_frame_delivered_witness :
  wsState opened = Open
  /\ nextAction opened = ReadOpcodeAnd1ByteLength
  /\ buffer_ok opened
  /\ opcode x81 <= 2
  /\ mask_bit x85 = true
  /\ length (@nil byte) = extension_size x85
  /\ length [x37; xfa; x21; x3d] = 4%nat
  /\ qlength [x7f; x9f; x4d; x51; x58] = frame_length x85 []
  /\ qlength [x7f; x9f; x4d; x51; x58] < 2 ^ 31
  /\ exists w',
       steps socketReadOpen_body
         (opened,
          QSslSocket.mk
            (frame_octets x81 x85 [] [x37; xfa; x21; x3d]
               [x7f; x9f; x4d; x51; x58] ++ [x89]) [])
         (w', QSslSocket.mk [x89] [])
       /\ wsState w' = Open
       /\ nextAction w' = ReadOpcodeAnd1ByteLength
       /\ buffers w'
          = buffers opened
            ++ chunk_of (unmasked [x37; xfa; x21; x3d]
                           [x7f; x9f; x4d; x51; x58])
       /\ pending w'
          = pending opened
            ++ unmasked [x37; xfa; x21; x3d] [x7f; x9f; x4d; x51; x58]
       /\ bytesInBuffers w'
          = quint64 (bytesInBuffers opened
                     + qlength [x7f; x9f; x4d; x51; x58])
       /\ buffersFirstConsumed w' = buffersFirstConsumed opened
       /\ ((length [x89] < 2)%nat ->
           socketRead opened
             (QSslSocket.mk
                (frame_octets x81 x85 [] [x37; xfa; x21; x3d]
                   [x7f; x9f; x4d; x51; x58] ++ [x89]) [])
           = Some (w', QSslSocket.mk [x89] [])).
Proof.
  assert (Hop : opcode x81 <= 2) by (apply Z.leb_le; reflexivity).
  split; [reflexivity|]. split; [reflexivity|]. split; [exact opened_ok|].
  split; [exact Hop|]. split; [reflexivity|]. split; [reflexivity|].
  split; [reflexivity|]. split; [reflexivity|]. split; [reflexivity|].
  exact (@data_frame_delivered opened x81 x85 [] [x37; xfa; x21; x3d]
           [x7f; x9f; x4d; x51; x58] [x89] [] eq_refl eq_refl opened_ok Hop
           eq_refl eq_refl eq_refl eq_refl eq_refl).
Defined.

(** X4.  A whole masked pong frame (with a payload below 2^31 octets)
    that an open engine finds at a frame boundary is dropped: its octets are taken from the socket, the queue of
    decoded octets, its total and its offset stay as they are, nothing is
    written, the connection stays open, and the decoder is at a frame
    boundary again. *)
Theorem pong_frame_dropped :
  forall (w : WebSocket) (b0 b1 : byte)
         (ext key payload rest tx : list byte),
    wsState w = Open ->
    nextAction w = ReadOpcodeAnd1ByteLength ->
    opcode b0 = 10 ->
    mask_bit b1 = true ->
    length ext = extension_size b1 ->
    length key = 4%nat ->
    qlength payload = frame_length b1 ext ->
    qlength payload < 2 ^ 31 ->
    exists w',
      steps socketReadOpen_body
        (w, QSslSocket.mk (frame_octets b0 b1 ext key payload ++ rest) tx)
        (w', QSslSocket.mk rest tx)
      /\ wsState w' = Open
      /\ nextAction w' = ReadOpcodeAnd1ByteLength
      /\ buffers w' = buffers w
      /\ bytesInBuffers w' = bytesInBuffers w
      /\ buffersFirstConsumed w' = buffersFirstConsumed w
      /\ webSocketAccept w' = webSocketAccept w
      /\ ((length rest < 2)%nat ->
          socketRead w
            (QSslSocket.mk (frame_octets b0 b1 ext key payload ++ rest) tx)
          = Some (w', QSslSocket.mk rest tx)).
Proof.
  intros w b0 b1 ext key payload rest tx Ho Hn H10 Hm He Hk Hl _.
  rewrite frame_octets_app.
  assert (Hv : valid_opcode (opcode b0) = true)
    by (unfold valid_opcode; rewrite H10; reflexivity).
  pose proof (@frame_prologue w b0 b1 ext key (payload ++ rest) tx Hn
                Hv ltac:(lia) Hm He Hk) as Hpro.
  set (wp := at_payload w b0 b1 ext key) in *.
  assert (Hkind : nextPayload wp = Pong).
  { subst wp. unfold at_payload, payload_kind. cbn [nextPayload].
    rewrite H10. reflexivity. }
  exists (set_nextAction ReadOpcodeAnd1ByteLength wp).
  assert (Hsteps : steps socketReadOpen_body
                     (w, QSslSocket.mk
                           (b0 :: b1 :: ext ++ key ++ payload ++ rest) tx)
                     (set_nextAction ReadOpcodeAnd1ByteLength wp,
                      QSslSocket.mk rest tx)).
  { eapply steps_trans; [exact Hpro|].
    eapply steps_step; [|apply steps_refl].
    apply socketReadOpen_body_pong; [reflexivity|exact Hkind|].
    symmetry. exact Hl. }
  split; [exact Hsteps|]. split; [exact Ho|].
  do 5 (split; [reflexivity|]).
  intros Hshort. eapply socketRead_at_boundary; eauto.
Qed.

Lemma pong_frame_dropped_witness :
  wsState after_hello = Open
  /\ nextAction after_hello = ReadOpcodeAnd1ByteLength
  /\ opcode x8a = 10
  /\ mask_bit x82 = true
  /\ length (@nil byte) = extension_size x82
  /\ length [x01; x02; x03; x04] = 4%nat
  /\ qlength [x10; x20] = frame_length x82 []
  /\ qlength [x10; x20] < 2 ^ 31
  /\ exists w',
       steps socketReadOpen_body
         (after_hello,
          QSslSocket.mk
            (frame_octets x8a x82 [] [x01; x02; x03; x04] [x10; x20] ++ [])
            [])
         (w', QSslSocket.mk [] [])
       /\ wsState w' = Open
       /\ nextAction w' = ReadOpcodeAnd1ByteLength
       /\ buffers w' = buffers after_hello
       /\ bytesInBuffers w' = bytesInBuffers after_hello
       /\ buffersFirstConsumed w' = buffersFirstConsumed after_hello
       /\ webSocketAccept w' = webSocketAccept after_hello
       /\ ((length (@nil byte) < 2)%nat ->
           socketRead after_hello
             (QSslSocket.mk
                (frame_octets x8a x82 [] [x01; x02; x03; x04] [x10; x20]
                   ++ []) [])
           = Some (w', QSslSocket.mk [] [])).
Proof.
  do 8 (split; [reflexivity|]).
  exact (@pong_frame_dropped after_hello x8a x82 [] [x01; x02; x03; x04]
           [x10; x20] [] [] eq_refl eq_refl eq_refl eq_refl eq_refl eq_refl
           eq_refl eq_refl).
Defined.

(** X5.  A whole masked ping frame whose payload is not 65536 octets long
    (and is below 2^31 octets) is answered with exactly one pong: the decoder appends to what has
    been written the octet 0x8A, the length header of the minimal-size
    rule and the payload unmasked with the key of the ping, leaves the
    queue of decoded octets alone, and is at a frame boundary again. *)
Theorem ping_answered :
  forall (w : WebSocket) (b0 b1 : byte)
         (ext key payload rest tx : list byte),
    wsState w = Open ->
    nextAction w = ReadOpcodeAnd1ByteLength ->
    opcode b0 = 9 ->
    mask_bit b1 = true ->
    length ext = extension_size b1 ->
    length key = 4%nat ->
    qlength payload = frame_length b1 ext ->
    qlength payload <> 65536 ->
    qlength payload < 2 ^ 31 ->
    exists w',
      steps socketReadOpen_body
        (w, QSslSocket.mk (frame_octets b0 b1 ext key payload ++ rest) tx)
        (w', QSslSocket.mk rest
               (tx ++ [x8a] ++ minimal_length_header (qlength payload)
                   ++ unmasked key payload))
      /\ wsState w' = Open
      /\ nextAction w' = ReadOpcodeAnd1ByteLength
      /\ buffers w' = buffers w
      /\ bytesInBuffers w' = bytesInBuffers w
      /\ buffersFirstConsumed w' = buffersFirstConsumed w
      /\ ((length rest < 2)%nat ->
          socketRead w
            (QSslSocket.mk (frame_octets b0 b1 ext key payload ++ rest) tx)
          = Some (w', QSslSocket.mk rest
                        (tx ++ [x8a]
                            ++ minimal_length_header (qlength payload)
                            ++ unmasked key payload))).
Proof.
  intros w b0 b1 ext key payload rest tx Ho Hn H9 Hm He Hk Hl H65536 _.
  rewrite frame_octets_app.
  pose proof (@ping_pong w b0 b1 ext key payload rest tx Hn H9 Hm He Hk Hl)
    as Hsteps.
  cbn zeta in Hsteps.
  rewrite writeLength_minimal in Hsteps by exact H65536.
  cbn [QSslSocket.tx] in Hsteps. rewrite <- !app_assoc in Hsteps.
  fold (unmasked key payload) in Hsteps.
  eexists. split; [exact Hsteps|]. split; [exact Ho|].
  do 4 (split; [reflexivity|]).
  intros Hshort. eapply socketRead_at_boundary; eauto.
Qed.

Lemma ping_answered_witness :
  wsState opened = Open
  /\ nextAction opened = ReadOpcodeAnd1ByteLength
  /\ opcode x89 = 9
  /\ mask_bit x82 = true
  /\ length (@nil byte) = extension_size x82
  /\ length [x37; xfa; x21; x3d] = 4%nat
  /\ qlength [x7f; x9f] = frame_length x82 []
  /\ qlength [x7f; x9f] <> 65536
  /\ qlength [x7f; x9f] < 2 ^ 31
  /\ exists w',
       steps socketReadOpen_body
         (opened,
          QSslSocket.mk
            (frame_octets x89 x82 [] [x37; xfa; x21; x3d] [x7f; x9f] ++ [])
            [])
         (w', QSslSocket.mk []
                ([] ++ [x8a] ++ minimal_length_header (qlength [x7f; x9f])
                    ++ unmasked [x37; xfa; x21; x3d] [x7f; x9f]))
       /\ wsState w' = Open
       /\ nextAction w' = ReadOpcodeAnd1ByteLength
       /\ buffers w' = buffers opened
       /\ bytesInBuffers w' = bytesInBuffers opened
       /\ buffersFirstConsumed w' = buffersFirstConsumed opened
       /\ ((length (@nil byte) < 2)%nat ->
           socketRead opened
             (QSslSocket.mk
                (frame_octets x89 x82 [] [x37; xfa; x21; x3d] [x7f; x9f]
                   ++ []) [])
           = Some (w', QSslSocket.mk []
                         ([] ++ [x8a]
                             ++ minimal_length_header (qlength [x7f; x9f])
                             ++ unmasked [x37; xfa; x21; x3d] [x7f; x9f]))).
Proof.
  assert (H : qlength [x7f; x9f] <> 65536) by (vm_compute; discriminate).
  do 7 (split; [reflexivity|]). split; [exact H|]. split; [reflexivity|].
  exact (@ping_answered opened x89 x82 [] [x37; xfa; x21; x3d] [x7f; x9f]
           [] [] eq_refl eq_refl eq_refl eq_refl eq_refl eq_refl eq_refl H
           eq_refl).
Defined.

(** ** The frame decoder: a data payload that arrives in two parts *)

Lemma frame_length_fits b1 ext :
  length ext = extension_size b1 -> 0 <= frame_length b1 ext < 2 ^ 64.
Proof.
  unfold frame_length, extension_size, length_code. intros He.
  pose proof (land_127 (to_Z b1)).
  destruct (Z.land (to_Z b1) 127 <=? 125); [lia|].
  apply qFromBigEndian_fits. destruct (Z.land (to_Z b1) 127 =? 126); lia.
Qed.

Lemma unmasked_app key part1 part2 :
  unmasked key (part1 ++ part2)
  = unmasked key part1
    ++ fst (unmask_loop key (length part2) part2
              (snd (unmask_loop key (length part1) part1 0))).
Proof.
  unfold unmasked. rewrite length_app, unmask_loop_app.
  destruct (unmask_loop key (length part1) part1 0) as [a i1].
  cbn [fst snd].
  destruct (unmask_loop key (length part2) part2 i1) as [b i2].
  reflexivity.
Qed.

(** X6.  The payload of a data frame (of fewer than 2^31 octets) is
    delivered as it arrives.  When
    an invocation finds the header, the key and a first part of the
    payload of a data frame, it queues that part, unmasked, and returns in
    the middle of the payload; when the rest of the payload has arrived,
    the next invocation queues it, unmasked from where the key had got to,
    and is at a frame boundary.  The octets queued are the whole payload
    unmasked with the key, behind what was pending before. *)
Theorem data_payload_streamed :
  forall (w : WebSocket) (b0 b1 : byte)
         (ext key part1 part2 tx : list byte),
    wsState w = Open ->
    nextAction w = ReadOpcodeAnd1ByteLength ->
    buffer_ok w ->
    opcode b0 <= 2 ->
    mask_bit b1 = true ->
    length ext = extension_size b1 ->
    length key = 4%nat ->
    part1 <> [] -> part2 <> [] ->
    qlength part1 + qlength part2 = frame_length b1 ext ->
    qlength part1 + qlength part2 < 2 ^ 31 ->
    exists w1 w2,
      socketRead w (QSslSocket.mk (frame_octets b0 b1 ext key part1) tx)
      = Some (w1, QSslSocket.mk [] tx)
      /\ nextAction w1 = ReadPayload
      /\ nextLength w1 = qlength part2
      /\ buffers w1 = buffers w ++ [unmasked key part1]
      /\ pending w1 = pending w ++ unmasked key part1
      /\ feed (w1, QSslSocket.mk [] tx) part2
         = Some (w2, QSslSocket.mk [] tx)
      /\ wsState w2 = Open
      /\ nextAction w2 = ReadOpcodeAnd1ByteLength
      /\ pending w2 = pending w ++ unmasked key (part1 ++ part2).
Proof.
  intros w b0 b1 ext key part1 part2 tx Ho Hn Hok H2 Hm He Hk Hp1 Hp2 Hl _.
  pose proof (frame_length_fits b1 ext He) as Hfit.
  assert (Hpos1 : 0 < qlength part1)
    by (destruct part1; [contradiction|unfold qlength; cbn [length]; lia]).
  assert (Hpos2 : 0 < qlength part2)
    by (destruct part2; [contradiction|unfold qlength; cbn [length]; lia]).
  pose proof (@frame_prologue w b0 b1 ext key (part1 ++ []) tx Hn
                (valid_opcode_data _ H2) ltac:(lia) Hm He Hk) as Hpro.
  rewrite <- frame_octets_app, !app_nil_r in Hpro.
  set (wp := at_payload w b0 b1 ext key) in *.
  assert (Hwp : nextAction wp = ReadPayload /\ nextPayload wp = Data
                /\ nextLength wp = frame_length b1 ext).
  { subst wp. unfold at_payload.
    cbn [nextAction nextPayload nextLength].
    rewrite payload_kind_data by exact H2. auto. }
  destruct Hwp as (Hwn & Hwd & Hwl).
  (* the first part *)
  set (um1 := unmask_loop key (length part1) part1 0).
  set (w1 := set_bytesInBuffers
               (quint64 (bytesInBuffers wp + qlength part1))
               (set_buffers (buffers wp ++ [fst um1])
                  (set_maskIndex (snd um1)
                     (set_nextLength
                        (quint64 (nextLength wp - qlength part1)) wp)))).
  assert (Hdata1 : socketReadOpen_body (wp, QSslSocket.mk (part1 ++ []) tx)
                   = Continue (w1, QSslSocket.mk [] tx)).
  { apply socketReadOpen_body_data_part; try assumption; [lia|left; reflexivity]. }
  assert (Hlen1 : nextLength w1 = qlength part2).
  { subst w1. cbn [nextLength set_bytesInBuffers set_buffers set_maskIndex
                   set_nextLength].
    rewrite Hwl.
    replace (frame_length b1 ext - qlength part1) with (qlength part2)
      by lia.
    apply quint64_small. lia. }
  assert (Hbuf1 : buffers w1 = buffers w ++ [unmasked key part1])
    by reflexivity.
  assert (Hpend1 : pending w1 = pending w ++ unmasked key part1).
  { apply pending_append; [exact Hok| |reflexivity].
    rewrite Hbuf1, concat_app. cbn [concat]. rewrite app_nil_r.
    reflexivity. }
  assert (Hread1 : socketRead w
                     (QSslSocket.mk (frame_octets b0 b1 ext key part1) tx)
                   = Some (w1, QSslSocket.mk [] tx)).
  { eapply socketRead_reaches.
    - apply reaches_open; [exact Ho|].
      eapply steps_trans; [exact Hpro|].
      eapply steps_step; [|apply steps_refl].
      rewrite app_nil_r in Hdata1. exact Hdata1.
    - apply socketReadOpen_body_blocked. unfold needed.
      change (nextAction w1) with ReadPayload.
      change (nextPayload w1) with (nextPayload wp). rewrite Hwd, Hlen1.
      destruct (Z.eqb_spec (qlength part2) 0); [lia|reflexivity]. }
  (* the second part *)
  set (um2 := unmask_loop key (length part2) part2 (snd um1)).
  set (w2 := set_bytesInBuffers
               (quint64 (bytesInBuffers w1 + qlength part2))
               (set_buffers (buffers w1 ++ [fst um2])
                  (set_maskIndex (snd um2)
                     (set_nextLength
                        (quint64 (nextLength w1 - qlength part2)) w1)))).
  assert (Hdata2 : socketReadOpen_body (w1, QSslSocket.mk (part2 ++ []) tx)
                   = Continue (w2, QSslSocket.mk [] tx)).
  { apply socketReadOpen_body_data_part; try assumption;
      [lia|left; reflexivity]. }
  assert (Hlen2 : nextLength w2 = 0).
  { subst w2. cbn [nextLength set_bytesInBuffers set_buffers set_maskIndex
                   set_nextLength].
    rewrite Hlen1, Z.sub_diag. reflexivity. }
  exists w1, (set_nextAction ReadOpcodeAnd1ByteLength w2).
  split; [exact Hread1|]. split; [reflexivity|]. split; [exact Hlen1|].
  split; [exact Hbuf1|]. split; [exact Hpend1|].
  split.
  { unfold feed, QSslSocket.arrive.
    cbn [fst snd QSslSocket.rx QSslSocket.tx app].
    eapply socketRead_at_boundary; [exact Ho| |reflexivity|cbn; lia].
    rewrite app_nil_r in Hdata2.
    eapply steps_step; [exact Hdata2|].
    eapply steps_step; [|apply steps_refl].
    apply socketReadOpen_body_data_done; [reflexivity|exact Hwd|exact Hlen2]. }
  split; [exact Ho|]. split; [reflexivity|].
  apply pending_append; [exact Hok| |reflexivity].
  change (buffers (set_nextAction ReadOpcodeAnd1ByteLength w2))
    with ((buffers w ++ [unmasked key part1]) ++ [fst um2]).
  rewrite !concat_app. cbn [concat]. rewrite !app_nil_r, <- app_assoc.
  rewrite unmasked_app. reflexivity.
Qed.

Lemma data_payload_streamed_witness :
  wsState opened = Open
  /\ nextAction opened = ReadOpcodeAnd1ByteLength
  /\ buffer_ok opened
  /\ opcode x81 <= 2
  /\ mask_bit x85 = true
  /\ length (@nil byte) = extension_size x85
  /\ length [x37; xfa; x21; x3d] = 4%nat
  /\ [x7f; x9f] <> [] /\ [x4d; x51; x58] <> []
  /\ qlength [x7f; x9f] + qlength [x4d; x51; x58] = frame_length x85 []
  /\ qlength [x7f; x9f] + qlength [x4d; x51; x58] < 2 ^ 31
  /\ exists w1 w2,
       socketRead opened
         (QSslSocket.mk
            (frame_octets x81 x85 [] [x37; xfa; x21; x3d] [x7f; x9f]) [])
       = Some (w1, QSslSocket.mk [] [])
       /\ nextAction w1 = ReadPayload
       /\ nextLength w1 = qlength [x4d; x51; x58]
       /\ buffers w1
          = buffers opened ++ [unmasked [x37; xfa; x21; x3d] [x7f; x9f]]
       /\ pending w1
          = pending opened ++ unmasked [x37; xfa; x21; x3d] [x7f; x9f]
       /\ feed (w1, QSslSocket.mk [] []) [x4d; x51; x58]
          = Some (w2, QSslSocket.mk [] [])
       /\ wsState w2 = Open
       /\ nextAction w2 = ReadOpcodeAnd1ByteLength
       /\ pending w2
          = pending opened
            ++ unmasked [x37; xfa; x21; x3d]
                 ([x7f; x9f] ++ [x4d; x51; x58]).
Proof.
  assert (Hop : opcode x81 <= 2) by (apply Z.leb_le; reflexivity).
  assert (H1 : [x7f; x9f] <> @nil byte) by discriminate.
  assert (H2 : [x4d; x51; x58] <> @nil byte) by discriminate.
  split; [reflexivity|]. split; [reflexivity|]. split; [exact opened_ok|].
  split; [exact Hop|]. split; [reflexivity|]. split; [reflexivity|].
  split; [reflexivity|]. split; [exact H1|]. split; [exact H2|].
  split; [reflexivity|]. split; [reflexivity|].
  exact (@data_payload_streamed opened x81 x85 [] [x37; xfa; x21; x3d]
           [x7f; x9f] [x4d; x51; x58] [] eq_refl eq_refl opened_ok Hop
           eq_refl eq_refl eq_refl H1 H2 eq_refl eq_refl).
Defined.

(** ** The handshake: whole requests *)

Lemma readLine_in_split bs :
  fst (readLine_in bs) ++ snd (readLine_in bs) = bs.
Proof.
  induction bs as [|b rest IH]; [reflexivity|]. cbn [readLine_in].
  destruct (Byte.eqb b LF); [reflexivity|].
  destruct (readLine_in rest) as [line rest']. cbn [fst snd app] in *.
  rewrite IH. reflexivity.
Qed.

Lemma readLine_one_line l rest tx :
  one_line l = true ->
  canReadLine (QSslSocket.mk (l ++ rest) tx) = true
  /\ readLine (QSslSocket.mk (l ++ rest) tx) = (l, QSslSocket.mk rest tx).
Proof.
  unfold one_line, canReadLine, readLine. intros H.
  apply andb_prop in H as [Hc Hn]. apply Nat.eqb_eq in Hn.
  cbn [QSslSocket.rx QSslSocket.tx].
  destruct (@readLine_in_app l rest Hc) as [H1 H2].
  split; [exact H1|]. rewrite H2.
  pose proof (readLine_in_split l) as Hs.
  destruct (readLine_in l) as [a b]. cbn [fst snd] in *.
  destruct b; [|discriminate]. rewrite app_nil_r in Hs. subst a.
  reflexivity.
Qed.

(** The rounds of the scanner on the lines of a request. *)
Lemma socketReadHandshake_body_other w l rest tx :
  other_line l = true ->
  socketReadHandshake_body (w, QSslSocket.mk (l ++ rest) tx)
  = Continue (w, QSslSocket.mk rest tx).
Proof.
  unfold other_line. intros H.
  apply andb_prop in H as [H Hc]. apply andb_prop in H as [H1 Hk].
  apply negb_true_iff in Hk, Hc.
  destruct (readLine_one_line l rest tx H1) as [Hcan Hread].
  unfold socketReadHandshake_body. rewrite Hcan, Hread. cbn [negb].
  unfold is_key_line, key_header in Hk. rewrite Hk, Hc. reflexivity.
Qed.

Lemma socketReadHandshake_body_good_key w l rest tx :
  good_key_line l = true ->
  socketReadHandshake_body (w, QSslSocket.mk (l ++ rest) tx)
  = Continue (set_webSocketAccept (Some (accept_token l)) w,
              QSslSocket.mk rest tx).
Proof.
  unfold good_key_line. intros H.
  apply andb_prop in H as [H Hr]. apply andb_prop in H as [H1 Hk].
  destruct (readLine_one_line l rest tx H1) as [Hcan Hread].
  rewrite socketReadHandshake_body_key;
    [|exact Hcan|rewrite Hread; exact Hk].
  rewrite Hread. cbn [fst snd].
  destruct (Z.ltb_spec (rest_length l) 26) as [Hlt|_];
    [apply Z.leb_le in Hr; lia|reflexivity].
Qed.

Lemma crlf_is_one_line :
  one_line crlf = true /\ is_key_line crlf = false /\ is_crlf crlf = true.
Proof. repeat split; vm_compute; reflexivity. Qed.

Lemma socketReadHandshake_body_blank w rest tx :
  socketReadHandshake_body (w, QSslSocket.mk (crlf ++ rest) tx)
  = match webSocketAccept w with
    | None => Return (set_wsState Error w, QSslSocket.mk rest tx)
    | Some accept =>
        Return (set_wsState Open w,
                QSslSocket.mk rest (tx ++ response accept))
    end.
Proof.
  destruct crlf_is_one_line as (H1 & Hk & Hc).
  destruct (readLine_one_line crlf rest tx H1) as [Hcan Hread].
  unfold socketReadHandshake_body. rewrite Hcan, Hread. cbn [negb].
  unfold is_key_line, key_header in Hk. rewrite Hk, Hc.
  destruct (webSocketAccept w) as [accept|]; [|reflexivity].
  unfold QSslSocket.flush, QSslSocket.write, response.
  cbn [QSslSocket.rx QSslSocket.tx]. rewrite <- !app_assoc. reflexivity.
Qed.

Lemma set_webSocketAccept_same w : set_webSocketAccept (webSocketAccept w) w = w.
Proof. destruct w; reflexivity. Qed.

Lemma scan_other_lines ls : forall w rest tx,
  forallb other_line ls = true ->
  steps socketReadHandshake_body
    (w, QSslSocket.mk (concat ls ++ rest) tx) (w, QSslSocket.mk rest tx).
Proof.
  induction ls as [|l ls IH]; intros w rest tx H; [apply steps_refl|].
  cbn [forallb] in H. apply andb_prop in H as [Hl Hls].
  cbn [concat]. rewrite <- app_assoc.
  eapply steps_step; [apply socketReadHandshake_body_other; exact Hl|].
  apply IH. exact Hls.
Qed.

Lemma scan_passed_lines ls : forall w rest tx,
  forallb passed_line ls = true ->
  exists a,
    steps socketReadHandshake_body
      (w, QSslSocket.mk (concat ls ++ rest) tx)
      (set_webSocketAccept a w, QSslSocket.mk rest tx)
    /\ (forallb other_line ls = true -> a = webSocketAccept w).
Proof.
  induction ls as [|l ls IH]; intros w rest tx H.
  - exists (webSocketAccept w). rewrite set_webSocketAccept_same.
    split; [apply steps_refl|reflexivity].
  - cbn [forallb] in H. apply andb_prop in H as [Hl Hls].
    cbn [concat]. rewrite <- app_assoc. unfold passed_line in Hl.
    destruct (other_line l) eqn:Ho.
    + destruct (IH w rest tx Hls) as (a & Hsteps & Ha). exists a. split.
      * eapply steps_step; [apply socketReadHandshake_body_other; exact Ho|].
        exact Hsteps.
      * cbn [forallb]. rewrite Ho. exact Ha.
    + cbn [orb] in Hl.
      destruct (IH (set_webSocketAccept (Some (accept_token l)) w) rest tx
                  Hls) as (a & Hsteps & _).
      exists a. split.
      * eapply steps_step;
          [apply socketReadHandshake_body_good_key; exact Hl|].
        exact Hsteps.
      * cbn [forallb]. rewrite Ho. discriminate.
Qed.

(** X7.  A whole request opens the connection and is answered with the
    token of its last key header.  The request is any lines that the
    scanner passes (headers that are not the key header, and key headers
    that are long enough), then a key header with at least 26 characters
    after its name, then headers that are not the key header, then the
    blank line.  An invocation of [socketRead] on an engine that has not
    completed the handshake writes the response (the status line and the
    fixed headers, the token of that last key header, and two line ends),
    opens the connection, and in the same invocation goes on to decode the
    octets behind the blank line as frames. *)
Theorem handshake_completes :
  forall (w : WebSocket) (before after : list QByteArray)
         (key_line rest tx : list byte),
    wsState w = None_ \/ wsState w = Handshake ->
    forallb passed_line before = true ->
    good_key_line key_line = true ->
    forallb other_line after = true ->
    let token := accept_token key_line in
    let request := concat before ++ key_line ++ concat after ++ crlf in
    let w' := set_wsState Open (set_webSocketAccept (Some token) w) in
    socketRead w (QSslSocket.mk (request ++ rest) tx)
    = socketReadOpen w' (QSslSocket.mk rest (tx ++ response token))
    /\ (nextAction w = ReadOpcodeAnd1ByteLength -> (length rest < 2)%nat ->
        socketRead w (QSslSocket.mk (request ++ rest) tx)
        = Some (w', QSslSocket.mk rest (tx ++ response token))).
Proof.
  intros w before after key_line rest tx Hw Hb Hk Ha token request w'.
  assert (Hscan : socketReadHandshake (set_wsState Handshake w)
                    (QSslSocket.mk (request ++ rest) tx)
                  = Some (w', QSslSocket.mk rest (tx ++ response token))).
  { apply socketReadHandshake_runs. subst request.
    rewrite <- !app_assoc.
    destruct (scan_passed_lines before (set_wsState Handshake w)
                (key_line ++ concat after ++ crlf ++ rest) tx Hb)
      as (a & Hsteps & _).
    eapply steps_runs; [exact Hsteps|].
    eapply runs_continue;
      [apply socketReadHandshake_body_good_key; exact Hk|].
    eapply steps_runs; [apply scan_other_lines; exact Ha|].
    apply runs_return. rewrite socketReadHandshake_body_blank.
    reflexivity. }
  assert (Hread : socketRead w (QSslSocket.mk (request ++ rest) tx)
                  = socketReadOpen w'
                      (QSslSocket.mk rest (tx ++ response token))).
  { rewrite socketRead_unfold. unfold handshake_phase.
    destruct Hw as [-> | ->]; rewrite Hscan; reflexivity. }
  split; [exact Hread|].
  intros Hn Hshort. rewrite Hread. apply socketReadOpen_runs.
  apply runs_return. apply socketReadOpen_body_blocked.
  unfold needed. change (nextAction w') with (nextAction w). rewrite Hn.
  unfold QSslSocket.bytesAvailable. cbn [QSslSocket.rx]. lia.
Qed.

Lemma handshake_completes_witness :
  (wsState fresh = None_ \/ wsState fresh = Handshake)
  /\ forallb passed_line [request_line; other_key_line] = true
  /\ good_key_line sample_key_line = true
  /\ forallb other_line [upgrade_line] = true
  /\ (let token := accept_token sample_key_line in
      let request :=
        concat [request_line; other_key_line] ++ sample_key_line
          ++ concat [upgrade_line] ++ crlf in
      let w' := set_wsState Open (set_webSocketAccept (Some token) fresh) in
      socketRead fresh (QSslSocket.mk (request ++ [x81]) [])
      = socketReadOpen w' (QSslSocket.mk [x81] ([] ++ response token))
      /\ (nextAction fresh = ReadOpcodeAnd1ByteLength ->
          (length [x81] < 2)%nat ->
          socketRead fresh (QSslSocket.mk (request ++ [x81]) [])
          = Some (w', QSslSocket.mk [x81] ([] ++ response token)))).
Proof.
  assert (H1 : forallb passed_line [request_line; other_key_line] = true)
    by (vm_compute; reflexivity).
  assert (H2 : good_key_line sample_key_line = true)
    by (vm_compute; reflexivity).
  assert (H3 : forallb other_line [upgrade_line] = true)
    by (vm_compute; reflexivity).
  split; [left; reflexivity|]. split; [exact H1|]. split; [exact H2|].
  split; [exact H3|].
  apply (@handshake_completes fresh [request_line; other_key_line]
           [upgrade_line] sample_key_line [x81] []
           (or_introl eq_refl) H1 H2 H3).
Defined.

(** X8.  A request without a key header is refused.  When the blank
    line comes after headers none of which is the key header, on an engine
    that holds no token, the invocation takes the request up to and with
    the blank line, puts the connection in Error and writes nothing; what
    follows the blank line stays in the socket, and no later invocation
    changes anything. *)
Theorem handshake_without_key :
  forall (w : WebSocket) (before : list QByteArray)
         (rest tx : list byte) (chunks : list (list byte)),
    wsState w = None_ \/ wsState w = Handshake ->
    webSocketAccept w = None ->
    forallb other_line before = true ->
    socketRead w (QSslSocket.mk (concat before ++ crlf ++ rest) tx)
    = Some (set_wsState Error w, QSslSocket.mk rest tx)
    /\ feed_all (set_wsState Error w, QSslSocket.mk rest tx) chunks
       = Some (set_wsState Error w,
               QSslSocket.mk (rest ++ concat chunks) tx).
Proof.
  intros w before rest tx chunks Hw Hnone Hb. split.
  - eapply socketRead_scanning; [exact Hw| | |].
    + apply scan_other_lines. exact Hb.
    + rewrite socketReadHandshake_body_blank.
      change (webSocketAccept (set_wsState Handshake w))
        with (webSocketAccept w).
      rewrite Hnone. reflexivity.
    + cbn. discriminate.
  - apply feed_all_ended. right. reflexivity.
Qed.

Lemma handshake_without_key_witness :
  (wsState fresh = None_ \/ wsState fresh = Handshake)
  /\ webSocketAccept fresh = None
  /\ forallb other_line [request_line; upgrade_line] = true
  /\ socketRead fresh
       (QSslSocket.mk (concat [request_line; upgrade_line] ++ crlf ++ [x81])
          [])
     = Some (set_wsState Error fresh, QSslSocket.mk [x81] [])
  /\ feed_all (set_wsState Error fresh, QSslSocket.mk [x81] [])
       [sample_key_line; crlf]
     = Some (set_wsState Error fresh,
             QSslSocket.mk ([x81] ++ concat [sample_key_line; crlf]) []).
Proof.
  assert (H : forallb other_line [request_line; upgrade_line] = true)
    by (vm_compute; reflexivity).
  split; [left; reflexivity|]. split; [reflexivity|]. split; [exact H|].
  apply (@handshake_without_key fresh [request_line; upgrade_line] [x81] []
           [sample_key_line; crlf] (or_introl eq_refl) eq_refl H).
Defined.

(** X9.  Until the blank line has arrived the scanner only collects.
    When the socket holds lines that the scanner passes and then octets
    without a line feed, the invocation takes the lines, leaves the
    unfinished line in the socket, writes nothing, and returns with the
    connection in Handshake and the decoder and the queue as they were;
    the token is the one held before when none of the lines is a key
    header. *)
Theorem handshake_waits :
  forall (w : WebSocket) (lines : list QByteArray) (tail tx : list byte),
    wsState w = None_ \/ wsState w = Handshake ->
    forallb passed_line lines = true ->
    canReadLine_in tail = false ->
    exists accept,
      socketRead w (QSslSocket.mk (concat lines ++ tail) tx)
      = Some (set_webSocketAccept accept (set_wsState Handshake w),
              QSslSocket.mk tail tx)
      /\ (forallb other_line lines = true -> accept = webSocketAccept w).
Proof.
  intros w lines tail tx Hw Hl Ht.
  destruct (scan_passed_lines lines (set_wsState Handshake w) tail tx Hl)
    as (a & Hsteps & Ha).
  exists a. split; [|exact Ha].
  eapply socketRead_scanning; [exact Hw|exact Hsteps| |cbn; discriminate].
  unfold socketReadHandshake_body, canReadLine. cbn [QSslSocket.rx].
  rewrite Ht. reflexivity.
Qed.

Lemma handshake_waits_witness :
  (wsState fresh = None_ \/ wsState fresh = Handshake)
  /\ forallb passed_line [request_line; sample_key_line] = true
  /\ canReadLine_in (bytes_of_string "Upgrade: webso") = false
  /\ exists accept,
       socketRead fresh
         (QSslSocket.mk
            (concat [request_line; sample_key_line]
               ++ bytes_of_string "Upgrade: webso") [])
       = Some (set_webSocketAccept accept (set_wsState Handshake fresh),
               QSslSocket.mk (bytes_of_string "Upgrade: webso") [])
       /\ (forallb other_line [request_line; sample_key_line] = true ->
           accept = webSocketAccept fresh).
Proof.
  assert (H : forallb passed_line [request_line; sample_key_line] = true)
    by (vm_compute; reflexivity).
  split; [left; reflexivity|]. split; [exact H|]. split; [reflexivity|].
  apply (@handshake_waits fresh [request_line; sample_key_line]
           (bytes_of_string "Upgrade: webso") []
           (or_introl eq_refl) H eq_refl).
Defined.

(** ** What an invocation does to the socket *)

#[local] Opaque firstn skipn Z.to_nat.

Lemma io_extends_refl sock : io_extends sock sock.
Proof.
  split; [exists []; reflexivity|exists []; symmetry; apply app_nil_r].
Qed.

Lemma io_extends_trans a b c :
  io_extends a b -> io_extends b c -> io_extends a c.
Proof.
  intros [[c1 H1] [o1 H2]] [[c2 H3] [o2 H4]]. split.
  - exists (c1 ++ c2). rewrite H1, H3. apply app_assoc.
  - exists (o1 ++ o2). rewrite H4, H2. symmetry. apply app_assoc.
Qed.

Lemma io_extends_make sock n written :
  io_extends sock
    (QSslSocket.mk (skipn n (QSslSocket.rx sock))
       (QSslSocket.tx sock ++ written)).
Proof.
  split; cbn [QSslSocket.rx QSslSocket.tx].
  - exists (firstn n (QSslSocket.rx sock)). symmetry. apply firstn_skipn.
  - exists written. reflexivity.
Qed.

Lemma io_extends_skipped sock n :
  io_extends sock
    (QSslSocket.mk (skipn n (QSslSocket.rx sock)) (QSslSocket.tx sock)).
Proof.
  split; cbn [QSslSocket.rx QSslSocket.tx].
  - exists (firstn n (QSslSocket.rx sock)). symmetry. apply firstn_skipn.
  - exists []. symmetry. apply app_nil_r.
Qed.

Lemma writeLength_tx sock L :
  exists h, QSslSocket.tx (writeLength sock L) = QSslSocket.tx sock ++ h.
Proof.
  unfold writeLength.
  destruct (L <=? 125); [eexists; reflexivity|].
  destruct (L <=? 65536); cbn [QSslSocket.write QSslSocket.tx QSslSocket.rx];
    rewrite <- app_assoc; eexists; reflexivity.
Qed.

Lemma socketReadOpen_body_io w sock :
  io_extends sock (snd (outcome (socketReadOpen_body (w, sock)))).
Proof.
  unfold socketReadOpen_body, QSslSocket.read, QSslSocket.skip, unmask.
  destruct (nextAction w) eqn:Hn.
  - case_if; [apply io_extends_refl|].
    repeat case_if;
      try (match goal with
           | |- context [header_length ?a ?b ?c] =>
               destruct (header_length_queue a b c) as (_ & _ & _ & H4);
               cbn zeta in H4; rewrite H4
           end; apply io_extends_skipped).
    + cbn [outcome snd]. unfold QSslSocket.write.
      cbn [QSslSocket.rx QSslSocket.tx]. apply io_extends_make.
    + cbn [outcome snd]. apply io_extends_skipped.
  - case_if; cbn [outcome snd];
      [apply io_extends_refl|apply io_extends_skipped].
  - case_if; cbn [outcome snd];
      [apply io_extends_refl|apply io_extends_skipped].
  - case_if; cbn [outcome snd];
      [apply io_extends_refl|apply io_extends_skipped].
  - destruct (nextPayload w) eqn:Hp.
    + case_if; [cbn [outcome snd]; apply io_extends_refl|].
      case_if; [cbn [outcome snd]; apply io_extends_refl|].
      destruct (unmask_loop _ _ _ _) as [d i']. cbn [outcome snd].
      apply io_extends_skipped.
    + case_if; [|cbn [outcome snd]; apply io_extends_refl].
      destruct (unmask_loop _ _ _ _) as [d i']. cbn [outcome snd].
      set (s1 := QSslSocket.write
                   (QSslSocket.mk
                      (skipn (Z.to_nat (nextLength w)) (QSslSocket.rx sock))
                      (QSslSocket.tx sock)) [pongHeader]).
      pose proof (writeLength_rx s1 (qlength d)) as Hrx.
      destruct (writeLength_tx s1 (qlength d)) as [h Htx].
      destruct (writeLength s1 (qlength d)) as [rx' tx'].
      unfold QSslSocket.write in *. subst s1.
      cbn [QSslSocket.rx QSslSocket.tx] in *.
      subst rx' tx'. rewrite <- !app_assoc. apply io_extends_make.
    + case_if; cbn [outcome snd];
        [apply io_extends_skipped|apply io_extends_refl].
Qed.

Lemma socketReadHandshake_body_io w sock :
  io_extends sock (snd (outcome (socketReadHandshake_body (w, sock)))).
Proof.
  unfold socketReadHandshake_body, readLine, canReadLine.
  destruct (canReadLine_in (QSslSocket.rx sock)); cbn [negb];
    [|apply io_extends_refl].
  pose proof (readLine_in_split (QSslSocket.rx sock)) as Hs.
  destruct (readLine_in (QSslSocket.rx sock)) as [line rest].
  cbn [fst snd] in Hs.
  assert (Hkeep : io_extends sock (QSslSocket.mk rest (QSslSocket.tx sock))).
  { split; cbn [QSslSocket.rx QSslSocket.tx].
    - exists line. symmetry. exact Hs.
    - exists []. symmetry. apply app_nil_r. }
  repeat case_if; cbn [outcome snd]; try exact Hkeep.
  destruct (webSocketAccept w) as [accept|]; cbn [outcome snd];
    [|exact Hkeep].
  unfold QSslSocket.flush, QSslSocket.write.
  cbn [QSslSocket.rx QSslSocket.tx]. rewrite <- !app_assoc.
  split; cbn [QSslSocket.rx QSslSocket.tx].
  - exists line. symmetry. exact Hs.
  - eexists. reflexivity.
Qed.

Lemma runs_io (body : WebSocket * QSslSocket -> flow (WebSocket * QSslSocket)) :
  (forall w sock, io_extends sock (snd (outcome (body (w, sock))))) ->
  forall c r, runs body c r -> io_extends (snd c) (snd r).
Proof.
  intros Hstep c r. induction 1 as [[w sock] r Hb | [w sock] c' r Hb _ IH];
    pose proof (Hstep w sock) as Hs; rewrite Hb in Hs; cbn [outcome] in Hs.
  - exact Hs.
  - eapply io_extends_trans; [exact Hs|exact IH].
Qed.

(** X10.  An invocation of [socketRead] always returns, and all it does
    to the socket is to take octets from the front of those that wait to
    be read and to add octets behind those that have been written: what is
    left to read is a final part of what was there, and what had been
    written is still there, in front of what the invocation wrote. *)
Theorem socketRead_io :
  forall (w : WebSocket) (sock : QSslSocket),
    exists w' sock',
      socketRead w sock = Some (w', sock') /\ io_extends sock sock'.
Proof.
  intros w sock. destruct (socketRead_returns w sock) as [[w' sock'] Hr].
  exists w', sock'. split; [exact Hr|].
  rewrite socketRead_unfold in Hr.
  assert (Hopen : forall w0 sock0 r,
             socketReadOpen w0 sock0 = Some r -> io_extends sock0 (snd r)).
  { intros w0 sock0 r H. apply socketReadOpen_runs in H.
    exact (runs_io socketReadOpen_body_io H). }
  assert (Hphase : forall w0,
             handshake_phase w0 sock = Some (w', sock') ->
             io_extends sock sock').
  { intros w0. unfold handshake_phase.
    destruct (socketReadHandshake w0 sock) as [[w1 sock1]|] eqn:Hh;
      [|discriminate].
    apply socketReadHandshake_runs in Hh.
    pose proof (runs_io socketReadHandshake_body_io Hh) as H1.
    cbn [snd] in H1.
    destruct (wsState w1); try (intros [= <- <-]; exact H1).
    intros H. eapply io_extends_trans; [exact H1|].
    exact (Hopen _ _ _ H). }
  destruct (wsState w).
  - apply Hphase with (1 := Hr).
  - apply Hphase with (1 := Hr).
  - exact (Hopen _ _ _ Hr).
  - injection Hr as <- <-. apply io_extends_refl.
  - injection Hr as <- <-. apply io_extends_refl.
Qed.

#[local] Transparent firstn skipn Z.to_nat.

(** ** The queue invariant under all operations *)

(** A round of the decoder moves octets from the socket to the queue or
    drops them: the engine and the socket never hold more between them. *)
Lemma socketReadOpen_body_load st :
  load (outcome (socketReadOpen_body st)) <= load st.
Proof.
  destruct st as [w [rx tx]]. unfold load.
  destruct (nextAction w) eqn:Hn.
  5: destruct (nextPayload w) eqn:Hp.
  5: { destruct (Z.eq_dec (nextLength w) 0) as [Hz|Hz].
       - rewrite socketReadOpen_body_data_done by assumption.
         cbn [outcome fst snd buffers set_nextAction]. lia.
       - destruct rx as [|b rx].
         + rewrite socketReadOpen_body_blocked; [cbn [outcome]; lia|].
           unfold needed. rewrite Hn, Hp.
           destruct (Z.eqb_spec (nextLength w) 0); [contradiction|].
           reflexivity.
         + rewrite socketReadOpen_body_data
             by (assumption || discriminate).
           cbn zeta.
           cbn [outcome fst snd buffers set_bytesInBuffers set_buffers].
           unfold QSslSocket.bytesAvailable, qlength. cbn [QSslSocket.rx].
           rewrite concat_app. cbn [concat].
           rewrite app_nil_r, !length_app, unmask_loop_length,
             length_firstn, length_skipn.
           lia. }
  all: destruct (@socketReadOpen_body_queue w (QSslSocket.mk rx tx)
                   ltac:(congruence)) as (H1 & _ & _ & H4);
    cbn zeta in *; cbn [fst snd]; rewrite H1; lia.
Qed.

Lemma socketReadHandshake_body_load st :
  load (outcome (socketReadHandshake_body st)) <= load st.
Proof.
  destruct st as [w sock]. unfold load.
  destruct (socketReadHandshake_body_queue w sock) as (H1 & _ & _ & _ & H5).
  cbn zeta in *. cbn [fst snd]. rewrite H1. lia.
Qed.

Lemma runs_load
    (body : WebSocket * QSslSocket -> flow (WebSocket * QSslSocket)) :
  (forall st, load (outcome (body st)) <= load st) ->
  forall c r, runs body c r -> load r <= load c.
Proof.
  intros Hstep c r. induction 1 as [c r Hb | c c' r Hb _ IH];
    pose proof (Hstep c) as Hs; rewrite Hb in Hs; cbn [outcome] in Hs; lia.
Qed.

Lemma socketRead_load w sock r :
  socketRead w sock = Some r -> load r <= load (w, sock).
Proof.
  rewrite socketRead_unfold.
  assert (Hopen : forall w0 sock0,
             socketReadOpen w0 sock0 = Some r -> load r <= load (w0, sock0)).
  { intros w0 sock0 H. apply socketReadOpen_runs in H.
    exact (runs_load socketReadOpen_body_load H). }
  assert (Hphase : handshake_phase (set_wsState Handshake w) sock = Some r ->
                   load r <= load (w, sock)).
  { unfold handshake_phase.
    destruct (socketReadHandshake (set_wsState Handshake w) sock)
      as [[w1 sock1]|] eqn:Hh; [|discriminate].
    apply socketReadHandshake_runs in Hh.
    pose proof (runs_load socketReadHandshake_body_load Hh) as H1.
    change (load (set_wsState Handshake w, sock)) with (load (w, sock)) in H1.
    destruct (wsState w1); try (intros [= <-]; exact H1).
    intros H. apply Hopen in H. lia. }
  destruct (wsState w); auto; intros [= <-]; lia.
Qed.

(** A round of [read] keeps the queue well formed whatever the maximum
    length is, and leaves the decoder alone. *)
Lemma read_body_keeps st :
  buffer_ok (rl_ws st) ->
  let w' := rl_ws (outcome (read_body st)) in
  buffer_ok w'
  /\ qlength (concat (buffers w')) <= qlength (concat (buffers (rl_ws st)))
  /\ nextLength w' = nextLength (rl_ws st).
Proof.
  destruct st as [w maxLen len buf]. cbn [rl_ws]. intros Hok.
  pose proof Hok as (Hoff & Hbytes & Hlt).
  unfold read_body. cbn [rl_ws rl_maxLen rl_len rl_buf].
  destruct (buffers w) as [|first others] eqn:Hb.
  { cbn [outcome rl_ws]. rewrite Hb. split; [exact Hok|].
    split; [lia|reflexivity]. }
  unfold pending, qlength in Hoff, Hbytes, Hlt.
  try rewrite Hb in Hbytes. try rewrite Hb in Hlt.
  cbn [concat] in Hbytes, Hlt.
  set (c := buffersFirstConsumed w) in *.
  rewrite length_app in Hlt.
  rewrite skipn_app_le, length_app, length_skipn in Hbytes by lia.
  unfold qlength.
  rewrite (@quint64_small (Z.of_nat (length first) - c)) by lia.
  destruct (Z.eqb_spec (Z.of_nat (length first) - c) 0) as [Hz|Hz].
  - (* the head chunk is used up: it is removed *)
    cbn [outcome rl_ws].
    unfold buffer_ok, pending, qlength.
    cbn [buffers bytesInBuffers buffersFirstConsumed nextLength
         set_buffersFirstConsumed set_buffers].
    change (Z.to_nat 0) with O. cbn [skipn concat]. rewrite length_app.
    split; [|split; [lia|reflexivity]].
    split; [destruct others; [reflexivity|lia]|]. split; lia.
  - destruct (Z.eqb_spec maxLen 0) as [Hm0|Hm0].
    { cbn [outcome rl_ws]. rewrite Hb. split; [exact Hok|].
      split; [lia|reflexivity]. }
    (* octets are copied out of the head chunk *)
    set (readStep := if Z.of_nat (length first) - c <? quint64 maxLen
                     then Z.of_nat (length first) - c else quint64 maxLen).
    assert (Hrs : 0 <= readStep <= Z.of_nat (length first) - c).
    { pose proof (Z.mod_pos_bound maxLen (2 ^ 64) ltac:(lia)) as Hq.
      fold (quint64 maxLen) in Hq. subst readStep. case_if; to_lia; lia. }
    cbn [outcome rl_ws].
    unfold buffer_ok, pending, qlength.
    cbn [buffers bytesInBuffers buffersFirstConsumed nextLength
         set_buffersFirstConsumed set_bytesInBuffers].
    rewrite Hb. cbn [concat].
    rewrite (@quint64_small (c + readStep)) by lia.
    rewrite (@quint64_small (bytesInBuffers w - readStep)) by lia.
    rewrite skipn_app_le by lia.
    rewrite !length_app, length_skipn.
    split; [|split; [lia|reflexivity]].
    split; [lia|]. split; lia.
Qed.

Lemma read_body_runs_keep st r :
  runs read_body st r -> buffer_ok (rl_ws st) ->
  buffer_ok (rl_ws r)
  /\ qlength (concat (buffers (rl_ws r)))
     <= qlength (concat (buffers (rl_ws st)))
  /\ nextLength (rl_ws r) = nextLength (rl_ws st).
Proof.
  induction 1 as [st r Hb | st st' r Hb _ IH]; intros Hok;
    pose proof (read_body_keeps st Hok) as Hs; rewrite Hb in Hs;
    cbn [outcome] in Hs; cbn zeta in Hs; [exact Hs|].
  destruct Hs as (Hok' & Hle & Hn). destruct (IH Hok') as (H1 & H2 & H3).
  split; [exact H1|]. split; [lia|congruence].
Qed.

Lemma read_keeps w maxLen :
  buffer_ok w ->
  exists len bytes w',
    read w maxLen = Some (len, bytes, w')
    /\ buffer_ok w'
    /\ qlength (concat (buffers w')) <= qlength (concat (buffers w))
    /\ nextLength w' = nextLength w.
Proof.
  intros Hok. destruct (read_returns w maxLen) as [[[len bytes] w'] Hr].
  exists len, bytes, w'. split; [exact Hr|].
  unfold read in Hr.
  destruct (while_loop read_body (read_fuel w) (mk_read_locals w maxLen 0 []))
    as [st|] eqn:Hw; [|discriminate].
  injection Hr as _ _ <-. apply while_loop_runs in Hw.
  exact (read_body_runs_keep Hw Hok).
Qed.

Lemma write_rx w sock qbaMsg :
  QSslSocket.rx (write w sock qbaMsg) = QSslSocket.rx sock.
Proof.
  unfold write. destruct (wsState w); try reflexivity.
  unfold QSslSocket.write at 1. cbn [QSslSocket.rx].
  rewrite writeLength_rx. reflexivity.
Qed.

Lemma arrivals_nonneg ops : 0 <= arrivals ops.
Proof.
  induction ops as [|op ops IH]; cbn [arrivals fold_right]; [lia|].
  fold (arrivals ops). destruct op; unfold qlength; lia.
Qed.

(** X11.  The queue stays well formed under everything the owner of an
    engine can do.  Starting from an engine whose queue is well formed
    (a fresh engine is), whatever sequence of invocations of [socketRead]
    on newly arrived octets, of [write] and of both overloads of [read]
    with any maximum lengths is performed, every operation returns, and
    afterwards the offset lies within the head chunk and [bytesAvailable]
    is exactly the number of decoded octets that have not been read; this
    holds as long as the octets queued, waiting and arriving are fewer
    than 2^31, the number of octets that an array can hold. *)
Theorem queue_invariant :
  forall (ops : list operation) (w : WebSocket) (sock : QSslSocket),
    buffer_ok w ->
    nextLength_fits w ->
    load (w, sock) + arrivals ops < 2 ^ 31 ->
    exists w' sock',
      perform_all ops (w, sock) = Some (w', sock')
      /\ buffer_ok w'
      /\ bytesAvailable w' = qlength (pending w').
Proof.
  induction ops as [|op ops IH]; intros w sock Hok Hfit Hload.
  - exists w, sock. split; [reflexivity|]. split; [exact Hok|].
    destruct Hok as (_ & Hb & _). unfold bytesAvailable. rewrite Hb.
    apply qint64_small. unfold load, pending, qlength in *.
    cbn [fst snd arrivals fold_right] in Hload.
    unfold QSslSocket.bytesAvailable in Hload.
    rewrite length_skipn. lia.
  - pose proof (arrivals_nonneg ops) as Hpos.
    assert (Hnext : forall w1 sock1,
               perform op (w, sock) = Some (w1, sock1) ->
               buffer_ok w1 -> nextLength_fits w1 ->
               load (w1, sock1) + arrivals ops < 2 ^ 31 ->
               exists w' sock',
                 perform_all (op :: ops) (w, sock) = Some (w', sock')
                 /\ buffer_ok w'
                 /\ bytesAvailable w' = qlength (pending w')).
    { intros w1 sock1 Hp Hok1 Hfit1 Hload1. cbn [perform_all]. rewrite Hp.
      apply IH; assumption. }
    destruct op as [arrived|qbaMsg|maxLen|maxLen];
      cbn [arrivals fold_right] in Hload; fold (arrivals ops) in Hload.
    + (* socketRead on the octets that have arrived *)
      destruct (socketRead_returns w (QSslSocket.arrive sock arrived))
        as [[w1 sock1] Hr].
      assert (Hld : load (w, QSslSocket.arrive sock arrived)
                    = load (w, sock) + qlength arrived).
      { unfold load. cbn [fst snd]. rewrite bytesAvailable_arrive.
        unfold qlength. lia. }
      assert (Hdec : decoder_ok (w, QSslSocket.arrive sock arrived)).
      { split; [exact Hfit|]. split; [exact Hok|].
        fold (load (w, QSslSocket.arrive sock arrived)). lia. }
      destruct (socketRead_keeps_ok Hdec Hr) as (Hfit1 & Hok1 & _).
      pose proof (socketRead_load _ _ Hr) as Hle.
      apply (Hnext w1 sock1); [exact Hr|exact Hok1|exact Hfit1|lia].
    + (* write *)
      apply (Hnext w (write w sock qbaMsg));
        [reflexivity|exact Hok|exact Hfit|].
      unfold load, QSslSocket.bytesAvailable in *. cbn [fst snd] in *.
      rewrite write_rx. lia.
    + (* read into a buffer *)
      destruct (@read_keeps w maxLen Hok)
        as (len & bytes & w1 & Hr & Hok1 & Hle & Hn).
      apply (Hnext w1 sock);
        [cbn [perform fst snd]; rewrite Hr; reflexivity|exact Hok1| |].
      * unfold nextLength_fits in *. rewrite Hn. exact Hfit.
      * unfold load in *. cbn [fst snd] in *. lia.
    + (* read into a new array *)
      set (target := if quint64 maxLen <? bytesInBuffers w
                     then quint64 maxLen else bytesInBuffers w).
      destruct (@read_keeps w (qint64 target) Hok)
        as (len & bytes & w1 & Hr & Hok1 & Hle & Hn).
      apply (Hnext w1 sock);
        [cbn [perform fst snd]; unfold read_array; fold target; rewrite Hr;
         reflexivity|exact Hok1| |].
      * unfold nextLength_fits in *. rewrite Hn. exact Hfit.
      * unfold load in *. cbn [fst snd] in *. lia.
Qed.

Lemma queue_invariant_witness :
  buffer_ok fresh
  /\ nextLength_fits fresh
  /\ load (fresh, idle)
     + arrivals [SocketRead sample_request; SocketRead hello_frame; Read 2;
                 Write (bytes_of_string "Hi"); ReadArray (-1)] < 2 ^ 31
  /\ exists w' sock',
       perform_all
         [SocketRead sample_request; SocketRead hello_frame; Read 2;
          Write (bytes_of_string "Hi"); ReadArray (-1)] (fresh, idle)
       = Some (w', sock')
       /\ buffer_ok w'
       /\ bytesAvailable w' = qlength (pending w').
Proof.
  assert (Hfit : nextLength_fits fresh)
    by (unfold nextLength_fits, fresh; cbn [nextLength]; lia).
  assert (Hload : load (fresh, idle)
                  + arrivals [SocketRead sample_request;
                              SocketRead hello_frame; Read 2;
                              Write (bytes_of_string "Hi"); ReadArray (-1)]
                  < 2 ^ 31) by (vm_compute; reflexivity).
  split; [exact buffer_ok_fresh|]. split; [exact Hfit|].
  split; [exact Hload|].
  exact (@queue_invariant
           [SocketRead sample_request; SocketRead hello_frame; Read 2;
            Write (bytes_of_string "Hi"); ReadArray (-1)]
           fresh idle buffer_ok_fresh Hfit Hload).
Defined.

(** X12.  A negative maximum length is no error for the second overload
    of [read]: converted to the unsigned type it exceeds the total, so
    the call returns all the decoded octets that have not been read (as
    long as they fit an array, which holds fewer than 2^31 octets), and
    leaves the queue empty of pending octets with the total at zero. *)
Theorem read_array_negative_drains :
  forall (w : WebSocket) (maxLen : Z),
    buffer_ok w ->
    bytesInBuffers w < 2 ^ 31 ->
    - 2 ^ 63 <= maxLen < 0 ->
    exists w',
      read_array w maxLen = Some (pending w, w')
      /\ pending w' = []
      /\ bytesInBuffers w' = 0
      /\ buffer_ok w'.
Proof.
  intros w maxLen Hok Hsmall Hneg. pose proof Hok as (_ & Hbytes & _).
  assert (Hpos : 0 <= bytesInBuffers w)
    by (rewrite Hbytes; unfold qlength; lia).
  unfold read_array.
  assert (Hq : quint64 maxLen = maxLen + 2 ^ 64).
  { unfold quint64.
    replace maxLen with (maxLen + 2 ^ 64 + (-1) * 2 ^ 64) at 1 by lia.
    rewrite Z.mod_add by lia. apply Z.mod_small. lia. }
  rewrite Hq.
  destruct (Z.ltb_spec (maxLen + 2 ^ 64) (bytesInBuffers w)) as [H|_];
    [lia|].
  rewrite qint64_small by lia.
  destruct (@read_spec w (bytesInBuffers w) Hok ltac:(lia))
    as (w' & Hr & Hp & Hn & _ & Hok').
  cbn zeta in Hr, Hn.
  assert (Hall : Z.to_nat (bytesInBuffers w) = length (pending w))
    by (rewrite Hbytes; unfold qlength; lia).
  rewrite Hall, firstn_all in Hr, Hn. rewrite Hall, skipn_all in Hp.
  rewrite Hr. exists w'.
  rewrite skipn_all2 by (rewrite repeat_length; lia).
  rewrite app_nil_r.
  split; [reflexivity|]. split; [exact Hp|]. split; [lia|exact Hok'].
Qed.

Lemma read_array_negative_drains_witness :
  buffer_ok two_chunks
  /\ bytesInBuffers two_chunks < 2 ^ 31
  /\ - 2 ^ 63 <= -1 < 0
  /\ exists w',
       read_array two_chunks (-1) = Some (pending two_chunks, w')
       /\ pending w' = []
       /\ bytesInBuffers w' = 0
       /\ buffer_ok w'.
Proof.
  assert (H1 : bytesInBuffers two_chunks < 2 ^ 31) by reflexivity.
  assert (H2 : - 2 ^ 63 <= -1 < 0) by lia.
  split; [exact two_chunks_ok|]. split; [exact H1|]. split; [exact H2|].
  exact (@read_array_negative_drains two_chunks (-1) two_chunks_ok H1 H2).
Defined.

(** ** The masking transform, octet by octet *)

Lemma unmask_loop_nth key data : forall index j,
  0 <= index < 4 -> (j < length data)%nat ->
  nth j (fst (unmask_loop key (length data) data index)) x00
  = byte_xor (nth j data x00)
      (nth (Z.to_nat ((index + Z.of_nat j) mod 4)) key x00).
Proof.
  induction data as [|d rest IH]; intros index j Hi Hj;
    [cbn [length] in Hj; lia|].
  cbn [length unmask_loop]. rewrite next_index by exact Hi.
  specialize (IH ((index + 1) mod 4)).
  destruct (unmask_loop key (length rest) rest ((index + 1) mod 4))
    as [rest' index'].
  cbn [fst] in *. destruct j as [|j]; cbn [nth].
  - rewrite Z.add_0_r, Z.mod_small by exact Hi. reflexivity.
  - rewrite IH; [|apply Z.mod_pos_bound; lia|cbn [length] in Hj; lia].
    rewrite Zplus_mod_idemp_l.
    replace (index + Z.of_nat (S j)) with (index + 1 + Z.of_nat j) by lia.
    reflexivity.
Qed.

(** X13.  What [unmask] computes: the array keeps its length, and its
    octet at position [j] becomes that octet exclusive-or the octet of
    the key at position [(i + j) mod 4], where [i] is the rolling index
    at the start; nothing but the rolling index changes in the engine. *)
Theorem unmask_octets :
  forall (w : WebSocket) (d : QByteArray) (k0 k1 k2 k3 : byte) (i : Z)
         (j : nat),
    0 <= i < 4 ->
    (j < length d)%nat ->
    let w0 := set_maskIndex i (set_mask [k0; k1; k2; k3] w) in
    let (d', w') := unmask w0 d (qlength d) in
    length d' = length d
    /\ nth j d' x00
       = byte_xor (nth j d x00)
           (nth (Z.to_nat ((i + Z.of_nat j) mod 4)) [k0; k1; k2; k3] x00)
    /\ w' = set_maskIndex ((i + qlength d) mod 4) w0.
Proof.
  intros w d k0 k1 k2 k3 i j Hi Hj. unfold unmask, qlength. cbn zeta.
  rewrite Nat2Z.id. cbn [mask maskIndex set_maskIndex set_mask].
  pose proof (unmask_loop_length [k0; k1; k2; k3] (length d) d i) as Hlen.
  pose proof (@unmask_loop_nth [k0; k1; k2; k3] d i j Hi Hj) as Hnth.
  pose proof (@unmask_loop_index [k0; k1; k2; k3] d i Hi) as Hidx.
  destruct (unmask_loop [k0; k1; k2; k3] (length d) d i) as [d' i'].
  cbn [fst snd] in *. subst i'. auto.
Qed.

Lemma unmask_octets_witness :
  0 <= 1 < 4
  /\ (3 < length [x7f; x9f; x4d; x51; x58])%nat
  /\ let w0 := set_maskIndex 1 (set_mask [x37; xfa; x21; x3d] opened) in
     let (d', w') := unmask w0 [x7f; x9f; x4d; x51; x58]
                       (qlength [x7f; x9f; x4d; x51; x58]) in
     length d' = length [x7f; x9f; x4d; x51; x58]
     /\ nth 3 d' x00
        = byte_xor (nth 3 [x7f; x9f; x4d; x51; x58] x00)
            (nth (Z.to_nat ((1 + Z.of_nat 3) mod 4))
               [x37; xfa; x21; x3d] x00)
     /\ w' = set_maskIndex ((1 + qlength [x7f; x9f; x4d; x51; x58]) mod 4) w0.
Proof.
  assert (Hi : 0 <= 1 < 4) by lia.
  assert (Hj : (3 < length [x7f; x9f; x4d; x51; x58])%nat)
    by (cbn [length]; lia).
  split; [exact Hi|]. split; [exact Hj|].
  exact (@unmask_octets opened [x7f; x9f; x4d; x51; x58]
           x37 xfa x21 x3d 1 3%nat Hi Hj).
Defined.

(** X14.  Unmasking can be done in parts: unmasking an array that is two
    arrays one after the other gives what unmasking the first and then,
    with the rolling index where that leaves it, the second gives, one
    after the other, and leaves the engine the same. *)
Theorem unmask_in_parts :
  forall (w : WebSocket) (d1 d2 : QByteArray),
    let (d', w') := unmask w (d1 ++ d2) (qlength (d1 ++ d2)) in
    let (d1', w1) := unmask w d1 (qlength d1) in
    let (d2', w2) := unmask w1 d2 (qlength d2) in
    d' = d1' ++ d2' /\ w' = w2.
Proof.
  intros w d1 d2. unfold unmask, qlength. rewrite !Nat2Z.id.
  rewrite length_app, unmask_loop_app.
  destruct (unmask_loop (mask w) (length d1) d1 (maskIndex w)) as [a i1].
  cbn [mask maskIndex set_maskIndex].
  destruct (unmask_loop (mask w) (length d2) d2 i1) as [b i2].
  split; reflexivity.
Qed.

(** ** The length header, written and read back *)

Lemma lor_shift_add acc x :
  0 <= x < 256 -> Z.lor (Z.shiftl acc 8) x = acc * 256 + x.
Proof.
  intros Hx. rewrite Z.shiftl_mul_pow2 by lia. change (2 ^ 8) with 256.
  assert (Hland : Z.land (acc * 256) x = 0).
  { apply Z.bits_inj'. intros k Hk. rewrite Z.land_spec, Z.bits_0.
    destruct (Z.ltb_spec k 8) as [Hlt|Hge].
    - change 256 with (2 ^ 8). rewrite Z.mul_pow2_bits_low by exact Hlt.
      reflexivity.
    - replace (Z.testbit x k) with false; [apply andb_false_r|].
      symmetry. apply Z.testbit_false; [lia|].
      rewrite Z.div_small; [reflexivity|].
      split; [lia|]. apply Z.lt_le_trans with (2 ^ 8); [lia|].
      apply Z.pow_le_mono_r; lia. }
  rewrite <- Z.lxor_lor by exact Hland. symmetry.
  apply Z.add_nocarry_lxor. exact Hland.
Qed.

Lemma qToBigEndian_length n v : length (qToBigEndian n v) = n.
Proof.
  induction n as [|n IH]; cbn [qToBigEndian length]; congruence.
Qed.

(** [qFromBigEndian] reads back what [qToBigEndian] wrote. *)
Lemma qFromBigEndian_acc_qToBigEndian n : forall acc v,
  qFromBigEndian_acc acc (qToBigEndian n v)
  = acc * 2 ^ (8 * Z.of_nat n) + v mod 2 ^ (8 * Z.of_nat n).
Proof.
  induction n as [|n IH]; intros acc v.
  - cbn [qToBigEndian qFromBigEndian_acc]. change (2 ^ (8 * Z.of_nat 0)) with 1.
    rewrite Z.mod_1_r. lia.
  - cbn [qToBigEndian qFromBigEndian_acc].
    rewrite to_Z_of_Z, Z.shiftr_div_pow2 by lia.
    rewrite lor_shift_add by (apply Z.mod_pos_bound; lia).
    rewrite IH.
    replace (8 * Z.of_nat (S n)) with (8 * Z.of_nat n + 8) by lia.
    rewrite Z.pow_add_r by lia. change (2 ^ 8) with 256.
    set (p := 2 ^ (8 * Z.of_nat n)).
    assert (Hp : 0 < p) by (apply Z.pow_pos_nonneg; lia).
    rewrite (Z.rem_mul_r v p 256) by lia. ring.
Qed.

Lemma qFromBigEndian_qToBigEndian n v :
  0 <= v < 2 ^ (8 * Z.of_nat n) ->
  qFromBigEndian (qToBigEndian n v) = v.
Proof.
  intros Hv. unfold qFromBigEndian.
  rewrite qFromBigEndian_acc_qToBigEndian, Z.mod_small by exact Hv. lia.
Qed.

(** The length header of [writeLength] with the mask bit added to its
    first octet, as a client sends it. *)
Lemma masked_length_header L :
  0 <= L < 2 ^ 64 -> L <> 65536 ->
  exists h0 ext,
    QSslSocket.tx (writeLength idle L) = h0 :: ext
    /\ mask_bit (of_Z (Z.lor (to_Z h0) 128)) = true
    /\ length ext = extension_size (of_Z (Z.lor (to_Z h0) 128))
    /\ frame_length (of_Z (Z.lor (to_Z h0) 128)) ext = L.
Proof.
  intros HL H65536. unfold writeLength.
  destruct (Z.leb_spec L 125) as [H1|H1].
  - exists (of_Z L), []. split; [reflexivity|].
    rewrite to_Z_of_Z, (Z.mod_small L) by lia.
    assert (Hr : 0 <= Z.lor L 128 < 2 ^ 8) by (apply lor_range; lia).
    assert (Hhigh : Z.land (Z.lor L 128) 128 = 128).
    { rewrite Z.land_lor_distr_l, land_128_small by lia. reflexivity. }
    assert (Hlow : Z.land (Z.lor L 128) 127 = L).
    { rewrite Z.land_lor_distr_l. change (Z.land 128 127) with 0.
      rewrite Z.lor_0_r. change 127 with (Z.ones 7).
      rewrite Z.land_ones by lia. apply Z.mod_small.
      change (2 ^ 7) with 128. lia. }
    unfold mask_bit, extension_size, frame_length, length_code.
    rewrite to_Z_of_Z, (Z.mod_small (Z.lor L 128))
      by (change 256 with (2 ^ 8); exact Hr).
    rewrite Hhigh, Hlow.
    apply Z.leb_le in H1. rewrite H1. auto.
  - destruct (Z.leb_spec L 65536) as [H2|H2].
    + exists (of_Z 126), (qToBigEndian 2 (quint16 L)).
      split; [reflexivity|].
      change (of_Z (Z.lor (to_Z (of_Z 126)) 128)) with xfe.
      split; [reflexivity|]. split; [reflexivity|].
      change (frame_length xfe (qToBigEndian 2 (quint16 L)))
        with (qFromBigEndian (qToBigEndian 2 (quint16 L))).
      unfold quint16. rewrite (Z.mod_small L)
        by (change (2 ^ 16) with 65536; lia).
      apply qFromBigEndian_qToBigEndian.
      change (2 ^ (8 * Z.of_nat 2)) with 65536. lia.
    + exists (of_Z 127), (qToBigEndian 8 L).
      split; [reflexivity|].
      change (of_Z (Z.lor (to_Z (of_Z 127)) 128)) with xff.
      split; [reflexivity|]. split; [reflexivity|].
      change (frame_length xff (qToBigEndian 8 L))
        with (qFromBigEndian (qToBigEndian 8 L)).
      apply qFromBigEndian_qToBigEndian.
      change (2 ^ (8 * Z.of_nat 8)) with (2 ^ 64). lia.
Qed.

(** X15.  The decoder reads back the length that the writer wrote.  For
    every length below 2^64 other than 65536, take the header that
    [writeLength] writes, in whichever of its three forms, and set the mask
    bit in its first octet, as a client does: behind any opcode octet of
    a data, ping or pong frame and in front of a key, the decoder takes
    the header and the key and is at the payload with exactly that length
    as the number of octets to come. *)
Theorem length_header_read_back :
  forall (w : WebSocket) (L : Z) (b0 : byte) (key rest tx : list byte),
    0 <= L < 2 ^ 64 ->
    L <> 65536 ->
    nextAction w = ReadOpcodeAnd1ByteLength ->
    valid_opcode (opcode b0) = true ->
    opcode b0 <> 8 ->
    length key = 4%nat ->
    exists h0 ext w',
      QSslSocket.tx (writeLength idle L) = h0 :: ext
      /\ steps socketReadOpen_body
           (w, QSslSocket.mk
                 (b0 :: of_Z (Z.lor (to_Z h0) 128) :: ext ++ key ++ rest) tx)
           (w', QSslSocket.mk rest tx)
      /\ nextAction w' = ReadPayload
      /\ nextLength w' = L
      /\ mask w' = key.
Proof.
  intros w L b0 key rest tx HL H65536 Hn Hv H8 Hk.
  destruct (masked_length_header HL H65536) as (h0 & ext & Htx & Hm & He & Hf).
  exists h0, ext, (at_payload w b0 (of_Z (Z.lor (to_Z h0) 128)) ext key).
  split; [exact Htx|].
  split; [apply frame_prologue; assumption|].
  split; [reflexivity|]. split; [exact Hf|reflexivity].
Qed.

Lemma length_header_read_back_witness :
  0 <= 70000 < 2 ^ 64
  /\ 70000 <> 65536
  /\ nextAction opened = ReadOpcodeAnd1ByteLength
  /\ valid_opcode (opcode x82) = true
  /\ opcode x82 <> 8
  /\ length [x37; xfa; x21; x3d] = 4%nat
  /\ exists h0 ext w',
       QSslSocket.tx (writeLength idle 70000) = h0 :: ext
       /\ steps socketReadOpen_body
            (opened,
             QSslSocket.mk
               (x82 :: of_Z (Z.lor (to_Z h0) 128)
                    :: ext ++ [x37; xfa; x21; x3d] ++ [x01]) [])
            (w', QSslSocket.mk [x01] [])
       /\ nextAction w' = ReadPayload
       /\ nextLength w' = 70000
       /\ mask w' = [x37; xfa; x21; x3d].
Proof.
  assert (H1 : 0 <= 70000 < 2 ^ 64) by lia.
  assert (H2 : 70000 <> 65536) by lia.
  assert (H3 : opcode x82 <> 8) by (vm_compute; discriminate).
  split; [exact H1|]. split; [exact H2|]. split; [reflexivity|].
  split; [reflexivity|]. split; [exact H3|]. split; [reflexivity|].
  exact (@length_header_read_back opened 70000 x82 [x37; xfa; x21; x3d]
           [x01] [] H1 H2 eq_refl eq_refl H3 eq_refl).
Defined.

(** ** The frame decoder: a sequence of frames *)

Lemma frame_rounds f w rest tx :
  nextAction w = ReadOpcodeAnd1ByteLength ->
  0 <= bytesInBuffers w < 2 ^ 64 ->
  well_formed f = true ->
  exists w',
    steps socketReadOpen_body
      (w, QSslSocket.mk (frame_bytes f ++ rest) tx)
      (w', QSslSocket.mk rest (tx ++ answered f))
    /\ wsState w' = wsState w
    /\ nextAction w' = ReadOpcodeAnd1ByteLength
    /\ concat (buffers w') = concat (buffers w) ++ delivered f
    /\ 0 <= bytesInBuffers w' < 2 ^ 64
    /\ buffersFirstConsumed w' = buffersFirstConsumed w.
Proof.
  destruct f as [b0 b1 ext key payload].
  unfold well_formed, frame_bytes, delivered, answered.
  cbn [f_b0 f_b1 f_ext f_key f_payload]. intros Hn Hbib Hwf.
  apply andb_prop in Hwf as [Hwf H65536]. apply andb_prop in Hwf as [Hwf _].
  apply andb_prop in Hwf as [Hwf Hl]. apply andb_prop in Hwf as [Hwf Hk].
  apply andb_prop in Hwf as [Hwf He]. apply andb_prop in Hwf as [Hwf Hm].
  apply andb_prop in Hwf as [Hv H8].
  apply Nat.eqb_eq in He, Hk. apply Z.eqb_eq in Hl.
  apply negb_true_iff in H8. apply Z.eqb_neq in H8.
  destruct (Z.leb_spec (opcode b0) 2) as [H2|H2].
  - (* a data frame *)
    destruct (@data_frame_rounds w b0 b1 ext key payload rest tx Hn Hbib H2
                Hm He Hk Hl)
      as (w' & Hsteps & Hs & Hn' & Hbuf & Hb & Hc).
    destruct (Z.eqb_spec (opcode b0) 9) as [H9|_]; [lia|].
    rewrite app_nil_r. exists w'.
    split; [exact Hsteps|]. split; [exact Hs|]. split; [exact Hn'|].
    split; [rewrite Hbuf; apply concat_chunk_of|].
    split; [rewrite Hb; apply Z.mod_pos_bound; lia|exact Hc].
  - destruct (Z.eqb_spec (opcode b0) 9) as [H9|H9].
    + (* a ping frame *)
      cbn [andb] in H65536. apply negb_true_iff in H65536.
      apply Z.eqb_neq in H65536.
      pose proof (@ping_pong w b0 b1 ext key payload rest tx Hn H9 Hm He Hk
                    Hl) as Hsteps.
      cbn zeta in Hsteps. rewrite writeLength_minimal in Hsteps
        by exact H65536.
      cbn [QSslSocket.tx] in Hsteps. rewrite <- !app_assoc in Hsteps.
      fold (unmasked key payload) in Hsteps.
      rewrite <- frame_octets_app in Hsteps.
      eexists. split; [exact Hsteps|].
      split; [reflexivity|]. split; [reflexivity|].
      split; [symmetry; apply app_nil_r|].
      split; [exact Hbib|reflexivity].
    + (* a pong frame *)
      assert (H10 : opcode b0 = 10).
      { unfold valid_opcode in Hv.
        destruct (Z.leb_spec (opcode b0) 2); [lia|].
        destruct (Z.eqb_spec (opcode b0) 8); [contradiction|].
        destruct (Z.eqb_spec (opcode b0) 9); [contradiction|].
        destruct (Z.eqb_spec (opcode b0) 10); [assumption|discriminate]. }
      rewrite app_nil_r.
      pose proof (@frame_prologue w b0 b1 ext key (payload ++ rest) tx Hn
                    Hv H8 Hm He Hk) as Hpro.
      rewrite <- frame_octets_app in Hpro.
      exists (set_nextAction ReadOpcodeAnd1ByteLength
                (at_payload w b0 b1 ext key)).
      split.
      { eapply steps_trans; [exact Hpro|].
        eapply steps_step; [|apply steps_refl].
        apply socketReadOpen_body_pong; [reflexivity| |].
        - unfold at_payload, payload_kind. cbn [nextPayload].
          rewrite H10. reflexivity.
        - symmetry. exact Hl. }
      split; [reflexivity|]. split; [reflexivity|].
      split; [symmetry; apply app_nil_r|].
      split; [exact Hbib|reflexivity].
Qed.

Lemma frames_rounds frames : forall w rest tx,
  nextAction w = ReadOpcodeAnd1ByteLength ->
  0 <= bytesInBuffers w < 2 ^ 64 ->
  forallb well_formed frames = true ->
  exists w',
    steps socketReadOpen_body
      (w, QSslSocket.mk (concat (map frame_bytes frames) ++ rest) tx)
      (w', QSslSocket.mk rest (tx ++ concat (map answered frames)))
    /\ wsState w' = wsState w
    /\ nextAction w' = ReadOpcodeAnd1ByteLength
    /\ concat (buffers w')
       = concat (buffers w) ++ concat (map delivered frames)
    /\ buffersFirstConsumed w' = buffersFirstConsumed w.
Proof.
  induction frames as [|f frames IH]; intros w rest tx Hn Hbib Hwf.
  - exists w. cbn [map concat app]. rewrite !app_nil_r.
    split; [apply steps_refl|]. auto.
  - cbn [forallb] in Hwf. apply andb_prop in Hwf as [Hf Hfs].
    cbn [map concat]. rewrite <- app_assoc.
    destruct (@frame_rounds f w (concat (map frame_bytes frames) ++ rest) tx
                Hn Hbib Hf)
      as (w1 & Hsteps1 & Hs1 & Hn1 & Hbuf1 & Hbib1 & Hc1).
    destruct (IH w1 rest (tx ++ answered f) Hn1 Hbib1 Hfs)
      as (w' & Hsteps & Hs & Hn' & Hbuf & Hc).
    exists w'. rewrite <- !app_assoc in Hsteps.
    split; [eapply steps_trans; eassumption|]. split; [congruence|].
    split; [exact Hn'|].
    split; [rewrite Hbuf, Hbuf1; symmetry; apply app_assoc|congruence].
Qed.

(** X16.  Frames are decoded one after the other and the framing is
    discarded.  When an open engine at a frame boundary finds any sequence
    of well-formed masked data, ping and pong frames, it takes them all:
    the payloads of the data frames, each unmasked with the key of its
    frame, are queued in the order of the frames behind what was pending,
    every ping is answered, in the order of the pings, with a pong that
    carries its unmasked payload, pongs are dropped, and the decoder is
    at a frame boundary again.  When fewer than two octets follow the
    frames, this is where the invocation of [socketRead] returns. *)
Theorem frames_decoded :
  forall (frames : list frame) (w : WebSocket) (rest tx : list byte),
    wsState w = Open ->
    nextAction w = ReadOpcodeAnd1ByteLength ->
    buffer_ok w ->
    forallb well_formed frames = true ->
    exists w',
      steps socketReadOpen_body
        (w, QSslSocket.mk (concat (map frame_bytes frames) ++ rest) tx)
        (w', QSslSocket.mk rest (tx ++ concat (map answered frames)))
      /\ wsState w' = Open
      /\ nextAction w' = ReadOpcodeAnd1ByteLength
      /\ pending w' = pending w ++ concat (map delivered frames)
      /\ ((length rest < 2)%nat ->
          socketRead w
            (QSslSocket.mk (concat (map frame_bytes frames) ++ rest) tx)
          = Some (w', QSslSocket.mk rest
                        (tx ++ concat (map answered frames)))).
Proof.
  intros frames w rest tx Ho Hn Hok Hwf.
  destruct (@frames_rounds frames w rest tx Hn (buffer_ok_total Hok) Hwf)
    as (w' & Hsteps & Hs & Hn' & Hbuf & Hc).
  exists w'. split; [exact Hsteps|]. split; [congruence|].
  split; [exact Hn'|].
  split; [apply pending_append; assumption|].
  intros Hshort. eapply socketRead_at_boundary; eauto.
Qed.

Lemma frames_decoded_witness :
  wsState opened = Open
  /\ nextAction opened = ReadOpcodeAnd1ByteLength
  /\ buffer_ok opened
  /\ forallb well_formed sample_frames = true
  /\ exists w',
       steps socketReadOpen_body
         (opened,
          QSslSocket.mk (concat (map frame_bytes sample_frames) ++ [x81]) [])
         (w', QSslSocket.mk [x81]
                ([] ++ concat (map answered sample_frames)))
       /\ wsState w' = Open
       /\ nextAction w' = ReadOpcodeAnd1ByteLength
       /\ pending w'
          = pending opened ++ concat (map delivered sample_frames)
       /\ ((length [x81] < 2)%nat ->
           socketRead opened
             (QSslSocket.mk (concat (map frame_bytes sample_frames) ++ [x81])
                [])
           = Some (w', QSslSocket.mk [x81]
                         ([] ++ concat (map answered sample_frames)))).
Proof.
  assert (H : forallb well_formed sample_frames = true)
    by (vm_compute; reflexivity).
  split; [reflexivity|]. split; [reflexivity|]. split; [exact opened_ok|].
  split; [exact H|].
  exact (@frames_decoded sample_frames opened [x81] [] eq_refl eq_refl
           opened_ok H).
Defined.

(** ** An invocation leaves nothing undone *)

Lemma runs_last (S : Type) (body : S -> flow S) c r :
  runs body c r -> exists s, steps body c s /\ body s = Return r.
Proof.
  induction 1 as [c r Hb | c c' r Hb _ (s & Hsteps & Hlast)].
  - exists c. split; [apply steps_refl|exact Hb].
  - exists s. split; [eapply steps_step; eassumption|exact Hlast].
Qed.

Lemma socketReadOpen_settles w sock r :
  wsState w = Open ->
  socketReadOpen w sock = Some r ->
  socketRead (fst r) (snd r) = Some r.
Proof.
  intros Ho Hr. apply socketReadOpen_runs in Hr. destruct r as [wr sockr].
  pose proof (socketReadOpen_runs_state Hr Ho) as Hstate.
  destruct (runs_last Hr) as ([ws socks] & _ & Hlast).
  destruct Hstate as [Hopen|Hend]; [|apply socketRead_ended; exact Hend].
  cbn [fst snd] in *.
  destruct (socketReadOpen_body_Return _ _ Hlast) as [[[= -> ->] _]|[_ Hend]].
  - cbn [fst snd] in *. rewrite socketRead_unfold, Hopen.
    apply socketReadOpen_runs. apply runs_return. exact Hlast.
  - cbn [fst] in Hend. destruct Hend; congruence.
Qed.

(** X17.  An invocation of [socketRead] does all there is to do: it
    always returns, and a further invocation, when no octets have arrived
    in between, returns the same engine and the same socket, having read
    nothing and written nothing. *)
Theorem socketRead_settles :
  forall (w : WebSocket) (sock : QSslSocket),
    exists r,
      socketRead w sock = Some r
      /\ socketRead (fst r) (snd r) = Some r
      /\ feed r [] = Some r.
Proof.
  intros w sock. destruct (socketRead_returns w sock) as [[wr sockr] Hr].
  exists (wr, sockr). split; [exact Hr|]. cbn [fst snd].
  assert (Hagain : socketRead wr sockr = Some (wr, sockr)).
  { rewrite socketRead_unfold in Hr.
    assert (Hphase : handshake_phase (set_wsState Handshake w) sock
                     = Some (wr, sockr) ->
                     socketRead wr sockr = Some (wr, sockr)).
    { unfold handshake_phase.
      destruct (socketReadHandshake (set_wsState Handshake w) sock)
        as [[w1 sock1]|] eqn:Hh; [|discriminate].
      pose proof Hh as Hruns. apply socketReadHandshake_runs in Hruns.
      destruct (socketReadHandshake_resume Hruns eq_refl [])
        as (_ & _ & _ & Hstate).
      cbn [fst] in Hstate.
      destruct (wsState w1) eqn:Hw1.
      - destruct Hstate as [H|[H|H]]; discriminate.
      - intros [= <- <-].
        destruct (runs_last Hruns) as ([ws socks] & _ & Hlast).
        destruct (socketReadHandshake_body_Return _ _ Hlast)
          as [[[= <- <-] Hcan]|(_ & _ & [H|H])];
          [|cbn [fst] in H; congruence|cbn [fst] in H; congruence].
        rewrite socketRead_unfold, Hw1. unfold handshake_phase.
        rewrite <- Hw1, set_wsState_same.
        assert (Hs : socketReadHandshake w1 sock1 = Some (w1, sock1))
          by (apply socketReadHandshake_runs; apply runs_return; exact Hlast).
        rewrite Hs, Hw1. reflexivity.
      - intros H. apply (socketReadOpen_settles _ _ Hw1 H).
      - intros [= <- <-]. apply socketRead_ended. left. exact Hw1.
      - intros [= <- <-]. apply socketRead_ended. right. exact Hw1. }
    destruct (wsState w) eqn:Hw; try (apply Hphase; exact Hr).
    - apply (socketReadOpen_settles _ _ Hw Hr).
    - injection Hr as <- <-. apply socketRead_ended. left. exact Hw.
    - injection Hr as <- <-. apply socketRead_ended. right. exact Hw. }
  split; [exact Hagain|].
  unfold feed. rewrite arrive_nil. exact Hagain.
Qed.

(** ** [read] with a negative maximum length *)

(** One round of [read] on a well-formed queue when the maximum length
    is negative: the round returns only when the queue has no chunk left,
    and otherwise takes all that is left of the head chunk. *)
Lemma read_body_step_negative st :
  buffer_ok (rl_ws st) ->
  - 2 ^ 63 <= rl_maxLen st - qlength (pending (rl_ws st)) ->
  rl_maxLen st < 0 ->
  0 <= rl_len st -> rl_len st + qlength (pending (rl_ws st)) < 2 ^ 63 ->
  match read_body st with
  | Return r => r = st /\ buffers (rl_ws st) = []
  | Continue st' =>
      exists k : nat,
        (k <= length (pending (rl_ws st)))%nat
        /\ rl_maxLen st' = rl_maxLen st - Z.of_nat k
        /\ rl_len st' = rl_len st + Z.of_nat k
        /\ rl_buf st' = rl_buf st ++ firstn k (pending (rl_ws st))
        /\ pending (rl_ws st') = skipn k (pending (rl_ws st))
        /\ bytesInBuffers (rl_ws st')
           = bytesInBuffers (rl_ws st) - Z.of_nat k
        /\ buffer_ok (rl_ws st')
  end.
Proof.
  destruct st as [w maxLen len buf]. cbn [rl_ws rl_maxLen rl_len rl_buf].
  unfold buffer_ok, pending, read_body, qlength.
  cbn [rl_ws rl_maxLen rl_len rl_buf].
  intros (Hoff & Hbytes & Hlt) Hlow Hneg Hl Hsum.
  destruct (buffers w) as [|first others] eqn:Hb.
  { split; reflexivity. }
  set (c := buffersFirstConsumed w) in *.
  cbn [concat] in *.
  rewrite skipn_app_le in * by lia.
  rewrite length_app in Hlt. rewrite length_app, length_skipn in Hlow, Hsum.
  rewrite quint64_small by lia.
  destruct (Z.eqb_spec (Z.of_nat (length first) - c) 0) as [Hz|Hz].
  - (* the head chunk is used up: it is removed *)
    exists O. cbn [rl_ws rl_maxLen rl_len rl_buf buffers bytesInBuffers
      wsState buffersFirstConsumed set_buffersFirstConsumed set_buffers].
    rewrite skipn_all2 by lia. cbn [app firstn skipn Z.to_nat].
    rewrite skipn_all2 in Hbytes by lia. cbn [app] in Hbytes.
    rewrite app_nil_r, Z.sub_0_r, Z.add_0_r.
    repeat split; try lia; try assumption.
    destruct others as [|second others']; [reflexivity|lia].
  - destruct (Z.eqb_spec maxLen 0) as [Hm0|Hm0]; [lia|].
    (* all that is left of the head chunk is copied *)
    assert (Hq : quint64 maxLen = maxLen + 2 ^ 64).
    { unfold quint64.
      replace maxLen with (maxLen + 2 ^ 64 + (-1) * 2 ^ 64) at 1 by lia.
      rewrite Z.mod_add by lia. apply Z.mod_small. lia. }
    rewrite Hq.
    destruct (Z.ltb_spec (Z.of_nat (length first) - c) (maxLen + 2 ^ 64))
      as [_|H]; [|lia].
    set (readStep := Z.of_nat (length first) - c).
    assert (Hrs : 0 < readStep <= Z.of_nat (length first) - c)
      by (subst readStep; lia).
    exists (Z.to_nat readStep).
    cbn [rl_ws rl_maxLen rl_len rl_buf buffers bytesInBuffers wsState
      buffersFirstConsumed set_buffersFirstConsumed set_bytesInBuffers].
    rewrite Hb. cbn [concat].
    rewrite (@quint64_small (c + readStep)) by lia.
    rewrite skipn_app_le by lia.
    rewrite (@qint64_small (len + readStep)) by lia.
    assert (Hm' : qint64 (maxLen - readStep) = maxLen - readStep).
    { unfold qint64. rewrite Z.mod_small; lia. }
    rewrite Hm'.
    rewrite Z2Nat.id by lia.
    rewrite firstn_app_le by (rewrite length_skipn; lia).
    replace (Z.to_nat (c + readStep))
      with (Z.to_nat readStep + Z.to_nat c)%nat by lia.
    rewrite <- skipn_skipn.
    rewrite (@skipn_app_le _ (concat others) (Z.to_nat readStep))
      by (rewrite length_skipn; lia).
    rewrite length_app.
    assert (Hq' : quint64 (bytesInBuffers w - readStep)
                  = bytesInBuffers w - readStep).
    { apply quint64_small. rewrite Hbytes, length_app, length_skipn. lia. }
    rewrite Hq'.
    repeat split; try lia.
    + rewrite length_skipn. lia.
    + rewrite Hbytes, !length_app, !length_skipn. lia.
    + rewrite length_app. lia.
Qed.

Lemma read_body_runs_negative st r :
  runs read_body st r ->
  buffer_ok (rl_ws st) ->
  - 2 ^ 63 <= rl_maxLen st - qlength (pending (rl_ws st)) ->
  rl_maxLen st < 0 ->
  0 <= rl_len st -> rl_len st + qlength (pending (rl_ws st)) < 2 ^ 63 ->
  rl_buf r = rl_buf st ++ pending (rl_ws st)
  /\ rl_len r = rl_len st + qlength (pending (rl_ws st))
  /\ buffers (rl_ws r) = []
  /\ bytesInBuffers (rl_ws r)
     = bytesInBuffers (rl_ws st) - qlength (pending (rl_ws st))
  /\ buffer_ok (rl_ws r).
Proof.
  induction 1 as [st r Hb | st st' r Hb _ IH]; intros Hok Hlow Hneg Hl Hsum;
    pose proof (read_body_step_negative st Hok Hlow Hneg Hl Hsum) as Hstep;
    rewrite Hb in Hstep.
  - destruct Hstep as [-> Hnil]. unfold pending, qlength. rewrite Hnil.
    cbn [concat]. rewrite skipn_nil. cbn [length].
    rewrite app_nil_r, Z.add_0_r, Z.sub_0_r. auto.
  - destruct Hstep as (k & Hkp & Hm' & Hl' & Hbuf & Hpend & Hbytes & Hok').
    assert (Hlen : qlength (pending (rl_ws st'))
                   = qlength (pending (rl_ws st)) - Z.of_nat k).
    { rewrite Hpend. unfold qlength. rewrite length_skipn. lia. }
    destruct (IH Hok' ltac:(lia) ltac:(lia) ltac:(lia) ltac:(lia))
      as (IHb & IHl & IHn & IHbytes & IHok).
    rewrite IHb, IHl, IHbytes, Hbuf, Hl', Hbytes, Hlen, Hpend.
    rewrite <- app_assoc, firstn_skipn.
    split; [reflexivity|]. split; [lia|]. split; [exact IHn|].
    split; [lia|exact IHok].
Qed.

(** X18.  A negative maximum length is no error for the first overload
    of [read] either: since it is never zero, and as an unsigned value
    exceeds what is left of every chunk, the call copies all the decoded
    octets that have not been read into the buffer, whatever its size,
    returns their number, and leaves the queue without a chunk and the
    total at zero. *)
Theorem read_negative_copies_all :
  forall (w : WebSocket) (maxLen : Z),
    buffer_ok w ->
    bytesInBuffers w < 2 ^ 31 ->
    - 2 ^ 62 <= maxLen < 0 ->
    exists w',
      read w maxLen = Some (bytesInBuffers w, pending w, w')
      /\ buffers w' = []
      /\ bytesInBuffers w' = 0
      /\ buffer_ok w'.
Proof.
  intros w maxLen Hok Hsmall Hneg. pose proof Hok as (_ & Hbytes & _).
  destruct (read_returns w maxLen) as [r Hr]. pose proof Hr as Hr'.
  unfold read in Hr'.
  destruct (while_loop read_body (read_fuel w) (mk_read_locals w maxLen 0 []))
    as [st|] eqn:Hw; [|discriminate].
  apply while_loop_runs in Hw.
  destruct (read_body_runs_negative Hw) as (Hb & Hl & Hn & Hz & Hok');
    cbn [rl_ws rl_maxLen rl_len rl_buf] in *; try assumption; try lia.
  exists (rl_ws st). rewrite (read_runs Hw).
  cbn [app] in Hb. rewrite Hb, Hl, Z.add_0_l, <- Hbytes.
  split; [reflexivity|]. split; [exact Hn|]. split; [lia|exact Hok'].
Qed.

Lemma read_negative_copies_all_witness :
  buffer_ok two_chunks
  /\ bytesInBuffers two_chunks < 2 ^ 31
  /\ - 2 ^ 62 <= -1 < 0
  /\ exists w',
       read two_chunks (-1)
       = Some (bytesInBuffers two_chunks, pending two_chunks, w')
       /\ buffers w' = []
       /\ bytesInBuffers w' = 0
       /\ buffer_ok w'.
Proof.
  assert (H1 : bytesInBuffers two_chunks < 2 ^ 31) by reflexivity.
  assert (H2 : - 2 ^ 62 <= -1 < 0) by lia.
  split; [exact two_chunks_ok|]. split; [exact H1|]. split; [exact H2|].
  exact (@read_negative_copies_all two_chunks (-1) two_chunks_ok H1 H2).
Defined.
